(** * commit-split: status parsing, proposal validation and repair

    A shallow embedding of
    - [src/commit/gitStatusParser.ts]: [parseGitStatusOutput],
      [handleRenamedFilePath], [getFileState];
    - [src/commit/commitGenerator.ts]: [validateAIOutput];
    - the command-line entry module, which imports the two: the repair
      and commit loop of [commitChanges];
    - [src/commit/gitCommands.ts]: [commitFiles], and [getFileDiff] as a
      collaborator;
    together with the JavaScript string, regular-expression, array and
    [Set] primitives these functions call.

    JavaScript strings are sequences of UTF-16 code units; they are modelled
    as [list N].  Console output, diff requests and [process.exit] are
    modelled by a log of events and an outcome that is either a returned
    value or an exit code. *)

From Stdlib Require Import String Ascii.
From Stdlib Require Import List NArith ZArith Bool Arith Lia.
Import ListNotations.

(* ================================================================== *)
(** * Part I: definitions                                              *)
(* ================================================================== *)

(** ** JavaScript strings *)

Module JS.

(** A UTF-16 code unit. *)
Definition code_unit := N.

(** A JavaScript string value. *)
Definition jsstring := list code_unit.

(** [str] reads an ASCII literal as a JavaScript string. *)
Definition str (s : string) : jsstring :=
  map N_of_ascii (list_ascii_of_string s).

(** The string ['\n']. *)
Definition newline : jsstring := [10%N].

(** [===] on two strings. *)
Fixpoint eqb (a b : jsstring) : bool :=
  match a, b with
  | [], [] => true
  | x :: a', y :: b' => N.eqb x y && eqb a' b'
  | _, _ => false
  end.

(** ECMAScript [LineTerminator]: LF, CR, LS, PS. *)
Definition isLineTerminator (c : code_unit) : bool :=
  N.eqb c 10 || N.eqb c 13 || N.eqb c 8232 || N.eqb c 8233.

(** ECMAScript [WhiteSpace] or [LineTerminator]: the characters removed by
    [String.prototype.trim] and matched by the class escape [\s]. *)
Definition isWhiteSpace (c : code_unit) : bool :=
  N.eqb c 9 || N.eqb c 11 || N.eqb c 12 || N.eqb c 32 || N.eqb c 160
  || N.eqb c 5760 || (N.leb 8192 c && N.leb c 8202)
  || N.eqb c 8239 || N.eqb c 8287 || N.eqb c 12288 || N.eqb c 65279
  || isLineTerminator c.

Fixpoint trimStart (s : jsstring) : jsstring :=
  match s with
  | c :: s' => if isWhiteSpace c then trimStart s' else s
  | [] => []
  end.

Definition trimEnd (s : jsstring) : jsstring := rev (trimStart (rev s)).

(** [String.prototype.trim]. *)
Definition trim (s : jsstring) : jsstring := trimEnd (trimStart s).

(** [p] is a prefix of [s]. *)
Fixpoint startsWith (p s : jsstring) : bool :=
  match p, s with
  | [], _ => true
  | x :: p', y :: s' => N.eqb x y && startsWith p' s'
  | _ :: _, [] => false
  end.

(** [String.prototype.includes]. *)
Fixpoint includes (sub s : jsstring) : bool :=
  startsWith sub s ||
  match s with
  | [] => false
  | _ :: s' => includes sub s'
  end.

(** [String.prototype.split] for a non-empty separator: [skip] counts the
    code units of a separator occurrence that are still to be passed over,
    [cur] is the current segment, reversed. *)
Fixpoint split_go (sep s : jsstring) (skip : nat) (cur : jsstring)
  : list jsstring :=
  match s with
  | [] => [rev cur]
  | c :: s' =>
      match skip with
      | S n => split_go sep s' n cur
      | O =>
          if startsWith sep s
          then rev cur :: split_go sep s' (length sep - 1) []
          else split_go sep s' 0 (c :: cur)
      end
  end.

(** [s.split(sep)]; with the empty separator the string is cut into its
    code units. *)
Definition split (sep s : jsstring) : list jsstring :=
  match sep with
  | [] => map (fun c => [c]) s
  | _ :: _ => split_go sep s 0 []
  end.

(** [Array.prototype.join] on an array of strings. *)
Definition join (sep : jsstring) (l : list jsstring) : jsstring :=
  match l with
  | [] => []
  | x :: l' => x ++ flat_map (fun y => sep ++ y) l'
  end.

(** [Array.prototype.includes] on an array of strings. *)
Definition arrayIncludes (l : list jsstring) (x : jsstring) : bool :=
  existsb (eqb x) l.

(** [Array.prototype.indexOf] on an array of strings: the first index of
    [x], or [-1]. *)
Fixpoint indexOf (l : list jsstring) (x : jsstring) : Z :=
  match l with
  | [] => (-1)%Z
  | y :: l' =>
      if eqb y x then 0%Z
      else let i := indexOf l' x in
           if (i <? 0)%Z then (-1)%Z else (i + 1)%Z
  end.

(** [Array.prototype.filter] with the two-argument callback
    [(element, index) => ...]; [i] is the index of the head of [l]. *)
Fixpoint filterIndexed_from (f : jsstring -> Z -> bool) (i : Z)
  (l : list jsstring) : list jsstring :=
  match l with
  | [] => []
  | x :: l' =>
      if f x i then x :: filterIndexed_from f (i + 1) l'
      else filterIndexed_from f (i + 1) l'
  end.

Definition filterIndexed (f : jsstring -> Z -> bool) (l : list jsstring)
  : list jsstring :=
  filterIndexed_from f 0 l.

(** A [Set<string>]: its elements in insertion order. *)
Definition JSSet := list jsstring.

Definition Set_has (s : JSSet) (x : jsstring) : bool := arrayIncludes s x.

Definition Set_add (s : JSSet) (x : jsstring) : JSSet :=
  if Set_has s x then s else s ++ [x].

(** [new Set(iterable)]. *)
Definition Set_new (l : list jsstring) : JSSet := fold_left Set_add l [].

End JS.

Import JS.

(** ** Regular expressions

    The fragment of ECMAScript patterns used by the status parser: anchors,
    literal characters, greedy quantifiers over a character class,
    sequence, alternation and numbered capturing groups. *)

Module Regex.

Inductive regex : Type :=
| Bol                                                  (* ^ *)
| Eol                                                  (* $ *)
| Chr (c : code_unit)                                  (* a literal *)
| Rep (cls : code_unit -> bool) (lo : nat) (hi : option nat)
                                                       (* cls{lo,hi} *)
| Seq (r1 r2 : regex)
| Alt (r1 r2 : regex)                                  (* r1|r2 *)
| Grp (i : nat) (r : regex).                           (* ( r ) *)

(** The captures recorded so far, most recent first. *)
Definition captures := list (nat * jsstring).

Definition below (hi : option nat) : bool :=
  match hi with
  | Some O => false
  | _ => true
  end.

(** Greedy repetition of a character class: take one more character when
    the class and the upper bound allow it and the rest then succeeds;
    otherwise stop here, which needs the lower bound to be reached. *)
Fixpoint rep {A : Type} (cls : code_unit -> bool) (lo : nat)
  (hi : option nat) (pos : nat) (s : jsstring)
  (k : nat -> jsstring -> option A) {struct s} : option A :=
  let stop := match lo with O => k pos s | S _ => None end in
  match s with
  | c :: s' =>
      if cls c && below hi
      then match rep cls (pred lo) (option_map pred hi) (S pos) s' k with
           | Some res => Some res
           | None => stop
           end
      else stop
  | [] => stop
  end.

(** The backtracking matcher of the ECMAScript specification, in
    continuation-passing style: [pos] is the index of the head of [s] in
    the subject string, [k] is the rest of the pattern. *)
Fixpoint rmatch {A : Type} (r : regex) (pos : nat) (s : jsstring)
  (caps : captures) (k : nat -> jsstring -> captures -> option A)
  : option A :=
  match r with
  | Bol => if Nat.eqb pos 0 then k pos s caps else None
  | Eol => match s with [] => k pos s caps | _ :: _ => None end
  | Chr c =>
      match s with
      | x :: s' => if N.eqb x c then k (S pos) s' caps else None
      | [] => None
      end
  | Rep cls lo hi => rep cls lo hi pos s (fun pos' s' => k pos' s' caps)
  | Seq r1 r2 =>
      rmatch r1 pos s caps (fun pos' s' caps' => rmatch r2 pos' s' caps' k)
  | Alt r1 r2 =>
      match rmatch r1 pos s caps k with
      | Some res => Some res
      | None => rmatch r2 pos s caps k
      end
  | Grp i r' =>
      rmatch r' pos s caps
        (fun pos' s' caps' => k pos' s' ((i, firstn (pos' - pos) s) :: caps'))
  end.

(** The result of a successful match: where it starts, the matched text
    and the captures. *)
Record match_result : Type := MatchResult {
  index : nat;
  matched : jsstring;
  groups : captures
}.

(** [RegExp.prototype.exec] without the [g] and [y] flags: the first start
    index, from [pos] on, at which the pattern matches. *)
Fixpoint exec_from (r : regex) (pos : nat) (s : jsstring)
  : option match_result :=
  match rmatch r pos s []
          (fun pos' _ caps => Some (MatchResult pos (firstn (pos' - pos) s) caps))
  with
  | Some m => Some m
  | None =>
      match s with
      | [] => None
      | _ :: s' => exec_from r (S pos) s'
      end
  end.

(** [s.match(r)]. *)
Definition exec (r : regex) (s : jsstring) : option match_result :=
  exec_from r 0 s.

Fixpoint lookup (i : nat) (caps : captures) : option jsstring :=
  match caps with
  | [] => None
  | (j, w) :: caps' => if Nat.eqb i j then Some w else lookup i caps'
  end.

(** Element [i >= 1] of the match array; a group that did not take part in
    the match is [undefined], read here as the empty string (both groups of
    the status-line pattern take part in every match). *)
Definition group (m : match_result) (i : nat) : jsstring :=
  match lookup i (groups m) with
  | Some w => w
  | None => []
  end.

(** Declarative reading of a pattern: [Matches r pos w rest caps caps']
    says that, at index [pos] of the subject and in front of [rest], the
    pattern can consume [w], extending the captures [caps] to [caps']. *)
Inductive Matches : regex -> nat -> jsstring -> jsstring ->
                    captures -> captures -> Prop :=
| M_Bol rest caps : Matches Bol 0 [] rest caps caps
| M_Eol pos caps : Matches Eol pos [] [] caps caps
| M_Chr c pos rest caps : Matches (Chr c) pos [c] rest caps caps
| M_Rep cls lo hi pos w rest caps :
    forallb cls w = true ->
    lo <= length w ->
    (forall h, hi = Some h -> length w <= h) ->
    Matches (Rep cls lo hi) pos w rest caps caps
| M_Seq r1 r2 pos w1 w2 rest caps caps1 caps2 :
    Matches r1 pos w1 (w2 ++ rest) caps caps1 ->
    Matches r2 (pos + length w1) w2 rest caps1 caps2 ->
    Matches (Seq r1 r2) pos (w1 ++ w2) rest caps caps2
| M_AltL r1 r2 pos w rest caps caps' :
    Matches r1 pos w rest caps caps' ->
    Matches (Alt r1 r2) pos w rest caps caps'
| M_AltR r1 r2 pos w rest caps caps' :
    Matches r2 pos w rest caps caps' ->
    Matches (Alt r1 r2) pos w rest caps caps'
| M_Grp i r pos w rest caps caps' :
    Matches r pos w rest caps caps' ->
    Matches (Grp i r) pos w rest caps ((i, w) :: caps').

End Regex.

Import Regex.

(** ** Data model ([src/config/types.ts]) *)

(** A member of the compiled [FileState] enum object: a number under a
    name, or (reverse mapping) a name under a number. *)
Inductive jsvalue : Type :=
| Num (n : N)
| Str (s : jsstring).

(** [enum FileState { M = 1, A = 2, R = 4, D = 8 }] as the object the
    compiler emits, reverse mapping included. *)
Definition FileState : list (jsstring * jsvalue) :=
  [ (str "M", Num 1); (str "A", Num 2); (str "R", Num 4); (str "D", Num 8);
    (str "1", Str (str "M")); (str "2", Str (str "A"));
    (str "4", Str (str "R")); (str "8", Str (str "D")) ].

Definition FileState_M : N := 1.
Definition FileState_A : N := 2.
Definition FileState_R : N := 4.
Definition FileState_D : N := 8.

Record FileChange : Type := mkFileChange {
  path : jsstring;
  state : N;
  diff : option jsstring
}.

Record AICommit : Type := mkAICommit {
  title : jsstring;
  changes : list jsstring
}.

Record GeneratorValidationResult : Type := mkValidationResult {
  valid : bool;
  duplicateFiles : list jsstring;
  missingFiles : list jsstring;
  invalidFiles : list jsstring
}.

(** The invariant the data model puts on a validation result: [valid]
    holds exactly when the three lists are empty. *)
Definition ValidationResult_wf (v : GeneratorValidationResult) : Prop :=
  valid v = true <->
  duplicateFiles v = [] /\ missingFiles v = [] /\ invalidFiles v = [].

(** ** Effects: console, collaborators and [process.exit] *)

Inductive event : Type :=
| LogWarning (message warning : jsstring)     (* console.warn *)
| LogError (message error : jsstring)         (* console.error *)
| GetFileDiff (filePath : jsstring)           (* git diff <filePath> *)
| GitCommit (command : jsstring).             (* execAsync(command) *)

Inductive outcome (A : Type) : Type :=
| Returned (a : A)
| Exited (code : Z).

Arguments Returned {A} a.
Arguments Exited {A} code.

(** A computation: what it logged and requested, in order, and how it
    ended. *)
Definition Eff (A : Type) : Type := (list event * outcome A)%type.

Definition ret {A : Type} (a : A) : Eff A := ([], Returned a).

Definition bind {A B : Type} (c : Eff A) (f : A -> Eff B) : Eff B :=
  match c with
  | (log, Returned a) => let '(log', o) := f a in (log ++ log', o)
  | (log, Exited code) => (log, Exited code)
  end.

Definition emit (e : event) : Eff unit := ([e], Returned tt).

(** [process.exit(code)]. *)
Definition exit {A : Type} (code : Z) : Eff A := ([], Exited code).

Notation "x <- c ;; k" := (bind c (fun x => k))
  (at level 61, c at next level, right associativity).
Notation "c ;; k" := (bind c (fun _ => k))
  (at level 61, right associativity).

(** [logWarning] and [logError] of [consoleUtils.ts]; the colouring of the
    message is not part of the model. *)
Definition logWarning (message warning : jsstring) : Eff unit :=
  emit (LogWarning message warning).

Definition logError (message error : jsstring) : Eff unit :=
  emit (LogError message error).

(** ** The status parser ([src/commit/gitStatusParser.ts]) *)

Definition isStatusLetter (c : code_unit) : bool :=
  existsb (N.eqb c) (str "MARDU").

(** The class of [.]: anything but a line terminator. *)
Definition isDot (c : code_unit) : bool := negb (isLineTerminator c).

Definition questionMark : code_unit := 63%N.

(** [/^\s*([MARDU]{1,2}|\?\?)\s{1,2}(.+)$/] *)
Definition statusRegex : regex :=
  Seq Bol
 (Seq (Rep isWhiteSpace 0 None)
 (Seq (Grp 1 (Alt (Rep isStatusLetter 1 (Some 2))
                  (Seq (Chr questionMark) (Chr questionMark))))
 (Seq (Rep isWhiteSpace 1 (Some 2))
 (Seq (Grp 2 (Rep isDot 1 None))
      Eol)))).

(** [handleRenamedFilePath]: the second piece of an [old -> new] field. *)
Definition handleRenamedFilePath (filePath : jsstring) : jsstring :=
  if includes (str "->") filePath
  then trim (nth 1 (split (str "->") filePath) [])
  else filePath.

Fixpoint FileState_get (members : list (jsstring * jsvalue))
  (key : jsstring) : option jsvalue :=
  match members with
  | [] => None
  | (k, v) :: members' =>
      if JS.eqb k key then Some v else FileState_get members' key
  end.

(** [acc | v] on the small non-negative integers that occur here: a
    number is or-ed in; the names of the reverse mapping convert to [NaN],
    hence to [0]. *)
Definition bitOr (acc : N) (v : jsvalue) : N :=
  match v with
  | Num n => N.lor acc n
  | Str _ => N.lor acc 0
  end.

(** [getFileState]: or together the enum values of the status letters. *)
Definition getFileState (statusCode : jsstring) : N :=
  fold_left
    (fun acc char =>
       match FileState_get FileState char with
       | Some stateValue => bitOr acc stateValue
       | None => acc
       end)
    (split [] statusCode) 0%N.

Section StatusParser.

(** The diff collaborator [getFileDiff] of [gitCommands.ts]: the diff text,
    or [undefined] when the command failed. *)
Variable getFileDiff : jsstring -> option jsstring.

Definition awaitFileDiff (filePath : jsstring) : Eff (option jsstring) :=
  emit (GetFileDiff filePath) ;; ret (getFileDiff filePath).

(** The [for (const line of statusLines)] loop of [parseGitStatusOutput];
    [fileChanges] is the array built so far. *)
Fixpoint parseLines (statusLines : list jsstring)
  (fileChanges : list FileChange) : Eff (list FileChange) :=
  match statusLines with
  | [] => ret fileChanges
  | line :: rest =>
      if JS.eqb (trim line) []
      then parseLines rest fileChanges
      else
        match exec statusRegex line with
        | Some m =>
            let statusCode := group m 1 in
            let filePath := group m 2 in
            if JS.eqb statusCode (str "??")
            then
              logWarning (str "Untracked file:")
                         (filePath ++ str " (skipping)") ;;
              parseLines rest fileChanges
            else
              (if includes (str "U") statusCode
               then
                 logWarning (str "Unmerged file:") filePath ;;
                 logWarning
                   (str "Please resolve the conflict before running the program.")
                   [] ;;
                 exit 1
               else ret tt) ;;
              let trimmedFilePath := trim filePath in
              let fullFilePath := handleRenamedFilePath trimmedFilePath in
              let fileState := getFileState statusCode in
              diff <- (if negb (N.eqb fileState FileState_D)
                       then awaitFileDiff fullFilePath
                       else ret None) ;;
              let fileChange := mkFileChange trimmedFilePath fileState diff in
              parseLines rest (fileChanges ++ [fileChange])
        | None =>
            logError (str "Unable to parse Git status line:") line ;;
            parseLines rest fileChanges
        end
  end.

Definition parseGitStatusOutput (statusOutput : jsstring)
  : Eff (list FileChange) :=
  let statusLines := split newline statusOutput in
  parseLines statusLines [].

End StatusParser.

(** ** The proposal validator ([validateAIOutput], [commitGenerator.ts]) *)

Definition validateAIOutput (parsedJson : list AICommit)
  (fileChanges : list FileChange) : GeneratorValidationResult :=
  let allFilePaths := map path fileChanges in
  let aiFilePaths := flat_map changes parsedJson in
  (* 1. files listed more than once *)
  let duplicateFiles :=
    filterIndexed
      (fun file index => negb (Z.eqb (indexOf aiFilePaths file) index))
      aiFilePaths in
  (* 2. files of the change list that are not listed *)
  let missingFiles :=
    filter (fun file => negb (arrayIncludes aiFilePaths file)) allFilePaths in
  (* 3. listed files that are not in the change list *)
  let invalidFiles :=
    filter (fun file => negb (arrayIncludes allFilePaths file)) aiFilePaths in
  {| valid :=
       negb (0 <? length duplicateFiles)
       && negb (0 <? length missingFiles)
       && negb (0 <? length invalidFiles);
     duplicateFiles :=
       if 0 <? length duplicateFiles then Set_new duplicateFiles else [];
     missingFiles :=
       if 0 <? length missingFiles then missingFiles else [];
     invalidFiles :=
       if 0 <? length invalidFiles then Set_new invalidFiles else [] |}.

(** ** Repair and commit ([commitChanges]) *)

(** The callback given to [filter] in the duplicate pass, run over the
    [changes] of one commit; it reads and updates [committedFiles]. *)
Fixpoint filterDuplicates (duplicateFiles changes : list jsstring)
  (committedFiles : JSSet) : list jsstring * JSSet :=
  match changes with
  | [] => ([], committedFiles)
  | filePath :: rest =>
      if negb (arrayIncludes duplicateFiles filePath)
      then
        let '(kept, committed) :=
          filterDuplicates duplicateFiles rest committedFiles in
        (filePath :: kept, committed)
      else if Set_has committedFiles filePath
      then filterDuplicates duplicateFiles rest committedFiles
      else
        let '(kept, committed) :=
          filterDuplicates duplicateFiles rest
            (Set_add committedFiles filePath) in
        (filePath :: kept, committed)
  end.

(** [a[i] = x]; an index past the end is never written by the loop. *)
Fixpoint setIndex {A : Type} (i : nat) (x : A) (a : list A) : list A :=
  match a, i with
  | [], _ => []
  | _ :: a', O => x :: a'
  | y :: a', S j => y :: setIndex j x a'
  end.

(** [for (let i = filesToCommit.length - 1; i >= 0; i--)]: [n] is [i + 1],
    so the body runs at index [n - 1], then [n - 2], down to [0]. *)
Fixpoint duplicateLoop (duplicateFiles : list jsstring) (n : nat)
  (filesToCommit : list AICommit) (committedFiles : JSSet)
  : list AICommit * JSSet :=
  match n with
  | O => (filesToCommit, committedFiles)
  | S i =>
      match nth_error filesToCommit i with
      | Some commit =>
          let '(kept, committed) :=
            filterDuplicates duplicateFiles (changes commit) committedFiles in
          duplicateLoop duplicateFiles i
            (setIndex i (mkAICommit (title commit) kept) filesToCommit)
            committed
      | None => (filesToCommit, committedFiles)
      end
  end.

(** The duplicate pass: the loop, started at the last commit with an empty
    [committedFiles]. *)
Definition resolveDuplicates (duplicateFiles : list jsstring)
  (filesToCommit : list AICommit) : list AICommit :=
  fst (duplicateLoop duplicateFiles (length filesToCommit) filesToCommit []).

(** The invalid pass: [for (const commit of filesToCommit)]. *)
Definition removeInvalid (invalidFiles : list jsstring)
  (filesToCommit : list AICommit) : list AICommit :=
  let invalidFileSet := Set_new invalidFiles in
  map (fun commit =>
         mkAICommit (title commit)
           (filter (fun filePath => negb (Set_has invalidFileSet filePath))
                   (changes commit)))
      filesToCommit.

(** The repair part of [commitChanges]: the state of the array
    [aiCommits] when the commits start.  The source assigns to the
    [changes] field of the commit objects in place; the objects of the
    array are distinct ([getAICommits] builds one object per commit), so
    the array is modelled as a list of values. *)
Definition repair (aiCommits : list AICommit)
  (validationResult : GeneratorValidationResult) : list AICommit :=
  let filesToCommit := aiCommits in
  if negb (valid validationResult)
  then
    let filesToCommit :=
      if 0 <? length (duplicateFiles validationResult)
      then resolveDuplicates (duplicateFiles validationResult) filesToCommit
      else filesToCommit in
    if 0 <? length (invalidFiles validationResult)
    then removeInvalid (invalidFiles validationResult) filesToCommit
    else filesToCommit
  else filesToCommit.

(** The command line that [commitFiles] hands to the shell: the title
    between double quotes, then the paths joined by blanks. *)
Definition doubleQuote : code_unit := 34%N.

Definition commitCommand (title : jsstring) (files : list jsstring)
  : jsstring :=
  str "git commit -m " ++ [doubleQuote] ++ title ++ [doubleQuote]
    ++ str " " ++ join (str " ") files.

Section CommitLoop.

(** The answer of git to the command of the [i]-th group of the commit
    loop: [None] when the promise of [execAsync] is fulfilled, [Some error]
    when it is rejected. *)
Variable execAsync : nat -> jsstring -> option jsstring.




End CommitLoop.

(** ** Vocabulary of the statements *)

(** Every path proposed by the groups, in order, duplicates kept. *)
Definition proposedPaths (commits : list AICommit) : list jsstring :=
  flat_map changes commits.

Definition count (p : jsstring) (l : list jsstring) : nat :=
  length (filter (JS.eqb p) l).

(** [l'] is [l] with some elements left out, the others in their order. *)
Inductive Subsequence {A : Type} : list A -> list A -> Prop :=
| Sub_nil : Subsequence [] []
| Sub_keep x l' l : Subsequence l' l -> Subsequence (x :: l') (x :: l)
| Sub_drop x l' l : Subsequence l' l -> Subsequence l' (x :: l).

(** A line is blank when trimming leaves nothing. *)
Definition isBlank (line : jsstring) : bool := JS.eqb (trim line) [].

(** The status token of a line that matches the status-line pattern. *)
Definition statusCodeOf (line : jsstring) : option jsstring :=
  match exec statusRegex line with
  | Some m => Some (group m 1)
  | None => None
  end.

(** The file field of a line that matches the status-line pattern. *)
Definition filePathOf (line : jsstring) : option jsstring :=
  match exec statusRegex line with
  | Some m => Some (group m 2)
  | None => None
  end.

(** A non-blank line that matches the pattern with a token containing the
    unmerged letter. *)
Definition isUnmergedLine (line : jsstring) : bool :=
  negb (isBlank line) &&
  match statusCodeOf line with
  | Some statusCode =>
      negb (JS.eqb statusCode (str "??")) && includes (str "U") statusCode
  | None => false
  end.

(** A non-blank line that matches the pattern, is not an untracked line and
    has no unmerged letter in its token. *)
Definition isRecordLine (line : jsstring) : bool :=
  negb (isBlank line) &&
  match statusCodeOf line with
  | Some statusCode =>
      negb (JS.eqb statusCode (str "??"))
      && negb (includes (str "U") statusCode)
  | None => false
  end.

(** A non-blank line that does not match the pattern. *)
Definition isUnparseableLine (line : jsstring) : bool :=
  negb (isBlank line) &&
  match exec statusRegex line with
  | Some _ => false
  | None => true
  end.


(** ** Auxiliary readings used by the proofs *)

(** The duplicate loop read as a recursion on the array: the commits after
    the head are filtered first, and the head is filtered against the set
    they leave behind. *)
Fixpoint duplicatePass (duplicateFiles : list jsstring)
  (filesToCommit : list AICommit) (committedFiles : JSSet)
  : list AICommit * JSSet :=
  match filesToCommit with
  | [] => ([], committedFiles)
  | commit :: rest =>
      let '(rest', committed1) :=
        duplicatePass duplicateFiles rest committedFiles in
      let '(kept, committed2) :=
        filterDuplicates duplicateFiles (changes commit) committed1 in
      (mkAICommit (title commit) kept :: rest', committed2)
  end.

(** Group by group, [G'] has the titles of [G] and a subsequence of its
    changes. *)
Definition SameGroupsFewerPaths (G G' : list AICommit) : Prop :=
  Forall2
    (fun g g' =>
       title g' = title g /\ Subsequence (changes g') (changes g))
    G G'.

(** In [G'], path [p] is listed once, namely in the group standing where
    the last group of [G] that lists [p] stands. *)
Definition KeptOnceInLatest (p : jsstring) (G G' : list AICommit) : Prop :=
  exists pre g post pre' g' post',
    G = pre ++ g :: post /\ G' = pre' ++ g' :: post' /\
    length pre' = length pre /\ length post' = length post /\
    In p (changes g) /\ ~ In p (proposedPaths post) /\
    title g' = title g /\ count p (changes g') = 1 /\
    ~ In p (proposedPaths pre') /\ ~ In p (proposedPaths post').

(** What the body of the parser's loop does with one line: nothing is
    pushed, a record is pushed, or the process exits. *)
Inductive lineResult : Type :=
| Skipped (log : list event)
| Recorded (log : list event) (fileChange : FileChange)
| Fatal (log : list event) (code : Z).

Definition unparseableReport (line : jsstring) : event :=
  LogError (str "Unable to parse Git status line:") line.

Definition conflictReport (filePath : jsstring) : list event :=
  [ LogWarning (str "Unmerged file:") filePath;
    LogWarning
      (str "Please resolve the conflict before running the program.") [] ].

Section LineStep.

Variable getFileDiff : jsstring -> option jsstring.

Definition lineStep (line : jsstring) : lineResult :=
  if isBlank line then Skipped []
  else
    match exec statusRegex line with
    | None => Skipped [unparseableReport line]
    | Some m =>
        let statusCode := group m 1 in
        let filePath := group m 2 in
        if JS.eqb statusCode (str "??")
        then Skipped [LogWarning (str "Untracked file:")
                        (filePath ++ str " (skipping)")]
        else if includes (str "U") statusCode
        then Fatal (conflictReport filePath) 1
        else
          let trimmedFilePath := trim filePath in
          let fileState := getFileState statusCode in
          if negb (N.eqb fileState FileState_D)
          then Recorded
                 [GetFileDiff (handleRenamedFilePath trimmedFilePath)]
                 (mkFileChange trimmedFilePath fileState
                    (getFileDiff (handleRenamedFilePath trimmedFilePath)))
          else Recorded [] (mkFileChange trimmedFilePath fileState None)
    end.

End LineStep.

Definition isLogError (e : event) : bool :=
  match e with
  | LogError _ _ => true
  | _ => false
  end.

(** A record made from one of [lines]: its kind is a non-empty set of the
    four flags and its path is the trimmed file field of the line. *)
Definition RecordOf (lines : list jsstring) (r : FileChange) : Prop :=
  (1 <= state r <= 15)%N /\
  exists line filePath,
    In line lines /\ filePathOf line = Some filePath /\
    path r = trim filePath.

(** ** Sample data *)

(** Three changed files [f1], [f2], [f3]. *)
Definition sampleChanges : list FileChange :=
  [ mkFileChange (str "f1") FileState_M None;
    mkFileChange (str "f2") FileState_A None;
    mkFileChange (str "f3") FileState_D None ].

(** The proposal A = [f1, f2], B = [f2, f3]: [f2] is listed twice. *)
Definition sampleDuplicated : list AICommit :=
  [ mkAICommit (str "A") [str "f1"; str "f2"];
    mkAICommit (str "B") [str "f2"; str "f3"] ].

(** A proposal that lists the unknown path [x] and leaves out [f3]. *)
Definition sampleInvalid : list AICommit :=
  [ mkAICommit (str "A") [str "x"; str "f1"];
    mkAICommit (str "B") [str "f2"] ].

(** ** The status-line pattern, read declaratively *)

(** One or two of the letters M, A, R, D, U, or the untracked marker. *)
Definition StatusToken (code : jsstring) : Prop :=
  code = str "??" \/
  (forallb isStatusLetter code = true /\ 1 <= length code <= 2).

(** [line] is: white space, the token [code], one or two white-space
    characters, and a non-empty file field without line terminator. *)
Definition StatusLine (line code : jsstring) : Prop :=
  exists lead gap file,
    line = lead ++ code ++ gap ++ file /\
    forallb isWhiteSpace lead = true /\
    StatusToken code /\
    forallb isWhiteSpace gap = true /\ 1 <= length gap <= 2 /\
    forallb isDot file = true /\ 1 <= length file.

(** A non-blank line that matches the pattern, whose token is not the
    untracked marker and has no unmerged letter. *)
Definition RecordLine (line : jsstring) : Prop :=
  forallb isWhiteSpace line = false /\
  exists code,
    StatusLine line code /\ code <> str "??" /\
    includes (str "U") code = false.

(** A line that matches the pattern with a token containing the unmerged
    letter. *)
Definition UnmergedLine (line : jsstring) : Prop :=
  exists code, StatusLine line code /\ includes (str "U") code = true.

(** A non-blank line that does not match the pattern. *)
Definition UnparseableLine (line : jsstring) : Prop :=
  forallb isWhiteSpace line = false /\
  ~ exists code, StatusLine line code.

(* ================================================================== *)
(** * Part I, continued: the rest of the modelled code                 *)
(* ================================================================== *)

(** ** More JavaScript primitives *)

(** [s.repeat(n)]. *)
Fixpoint repeatString (s : jsstring) (n : nat) : jsstring :=
  match n with
  | O => []
  | S n' => s ++ repeatString s n'
  end.

Definition isDecimalDigit (c : code_unit) : bool :=
  N.leb 48 c && N.leb c 57.

Definition isHexDigit (c : code_unit) : bool :=
  isDecimalDigit c || (N.leb 65 c && N.leb c 70) || (N.leb 97 c && N.leb c 102).

Definition isOctalDigit (c : code_unit) : bool := N.leb 48 c && N.leb c 55.

Definition isBinaryDigit (c : code_unit) : bool := N.eqb c 48 || N.eqb c 49.

(** The longest prefix of [s] in the class, and what follows it. *)
Fixpoint span (cls : code_unit -> bool) (s : jsstring)
  : jsstring * jsstring :=
  match s with
  | c :: s' =>
      if cls c then let '(a, b) := span cls s' in (c :: a, b) else ([], s)
  | [] => ([], [])
  end.

(** [ExponentPart_opt] up to the end of the string: nothing, or [e] or [E],
    an optional sign and at least one digit. *)
Definition isExponentToEnd (s : jsstring) : bool :=
  match s with
  | [] => true
  | c :: s' =>
      (N.eqb c 101 || N.eqb c 69) &&
      let digits :=
        match s' with
        | d :: s'' => if N.eqb d 43 || N.eqb d 45 then s'' else s'
        | [] => s'
        end in
      negb (JS.eqb digits []) && forallb isDecimalDigit digits
  end.

(** [StrUnsignedDecimalLiteral]: [Infinity], digits with an optional
    fraction, or a fraction alone, then an optional exponent. *)
Definition isUnsignedDecimalLiteral (s : jsstring) : bool :=
  JS.eqb s (str "Infinity") ||
  let '(intPart, afterInt) := span isDecimalDigit s in
  match afterInt with
  | c :: afterDot =>
      if N.eqb c 46
      then
        let '(fracPart, afterFrac) := span isDecimalDigit afterDot in
        negb (JS.eqb intPart [] && JS.eqb fracPart [])
        && isExponentToEnd afterFrac
      else negb (JS.eqb intPart []) && isExponentToEnd afterInt
  | [] => negb (JS.eqb intPart [])
  end.

(** [NonDecimalIntegerLiteral]: [0x], [0o] or [0b] (either case) and at
    least one digit of that base. *)
Definition isNonDecimalIntegerLiteral (s : jsstring) : bool :=
  match s with
  | z :: p :: digits =>
      N.eqb z 48 && negb (JS.eqb digits []) &&
      (((N.eqb p 120 || N.eqb p 88) && forallb isHexDigit digits)
       || ((N.eqb p 111 || N.eqb p 79) && forallb isOctalDigit digits)
       || ((N.eqb p 98 || N.eqb p 66) && forallb isBinaryDigit digits))
  | _ => false
  end.

(** [Number.isNaN(Number(s))] for a string [s]: the string, white space at
    both ends apart, is neither empty nor a [StrNumericLiteral]. *)
Definition Number_isNaN_of_string (s : jsstring) : bool :=
  let t := trim s in
  negb
    (JS.eqb t []
     || isNonDecimalIntegerLiteral t
     || match t with
        | c :: t' =>
            if N.eqb c 43 || N.eqb c 45
            then isUnsignedDecimalLiteral t'
            else isUnsignedDecimalLiteral t
        | [] => false
        end).

(** The value of a key that is an array index: [0], or digits that do not
    start with [0], with a value of at most [2^32 - 2]. *)
Definition arrayIndexOf (key : jsstring) : option N :=
  match key with
  | [] => None
  | c :: rest =>
      let value := fold_left (fun acc d => (acc * 10 + (d - 48))%N) key 0%N in
      if forallb isDecimalDigit key
         && (negb (N.eqb c 48) || JS.eqb rest [])
         && N.leb value 4294967294
      then Some value
      else None
  end.

Fixpoint insertKey (k : N * jsstring) (l : list (N * jsstring))
  : list (N * jsstring) :=
  match l with
  | [] => [k]
  | k' :: l' =>
      if N.leb (fst k) (fst k') then k :: l else k' :: insertKey k l'
  end.

(** [Object.keys(o)] for an object given by its own properties in creation
    order: the integer keys in ascending order, then the other keys in
    creation order. *)
Definition Object_keys (o : list (jsstring * jsvalue)) : list jsstring :=
  let indexKeys :=
    fold_right
      (fun kv acc =>
         match arrayIndexOf (fst kv) with
         | Some i => insertKey (i, fst kv) acc
         | None => acc
         end)
      [] o in
  let nameKeys :=
    filter (fun k => match arrayIndexOf k with Some _ => false | None => true end)
           (map fst o) in
  map snd indexKeys ++ nameKeys.

(** ** State names for the prompt ([getFileStateStrings]) *)

(** [stateMap]: the names under the enum values. *)
Definition stateMap : list (N * jsstring) :=
  [ (FileState_M, str "MODIFIED"); (FileState_A, str "ADDED");
    (FileState_R, str "RENAMED"); (FileState_D, str "DELETED") ].

Fixpoint stateMap_get (m : list (N * jsstring)) (k : N) : jsstring :=
  match m with
  | [] => []
  | (k', v) :: m' => if N.eqb k' k then v else stateMap_get m' k
  end.

(** The number under an enum key, for [fileState & FileState[key]] and for
    the index into [stateMap]. *)
Definition FileState_number (key : jsstring) : N :=
  match FileState_get FileState key with
  | Some (Num n) => n
  | _ => 0%N
  end.

Definition getFileStateStrings (fileState : N) : jsstring :=
  join (str ", ")
    (map (fun key => stateMap_get stateMap (FileState_number key))
       (filter (fun key => negb (N.eqb (N.land fileState (FileState_number key)) 0))
          (filter Number_isNaN_of_string (Object_keys FileState)))).

(** The contribution of one status letter to the kind. *)
Definition letterValue (c : code_unit) : N :=
  match FileState_get FileState [c] with
  | Some stateValue => bitOr 0 stateValue
  | None => 0%N
  end.

(** The names of the flags that are set, in the order of the enum. *)
Definition flagNames (fileState : N) : list jsstring :=
  (if N.testbit fileState 0 then [str "MODIFIED"] else [])
  ++ (if N.testbit fileState 1 then [str "ADDED"] else [])
  ++ (if N.testbit fileState 2 then [str "RENAMED"] else [])
  ++ (if N.testbit fileState 3 then [str "DELETED"] else []).

Definition letterM : code_unit := 77%N.
Definition letterA : code_unit := 65%N.
Definition letterR : code_unit := 82%N.
Definition letterD : code_unit := 68%N.

Definition occurs (c : code_unit) (s : jsstring) : bool :=
  existsb (N.eqb c) s.

(** ** Further readings of the status parser *)

Section LineReadings.

Variable getFileDiff : jsstring -> option jsstring.

(** The record that the loop builds from a record line. *)
Definition recordOfLine (line : jsstring) : FileChange :=
  let statusCode :=
    match statusCodeOf line with Some c => c | None => [] end in
  let filePath :=
    match filePathOf line with Some f => f | None => [] end in
  let trimmedFilePath := trim filePath in
  let fileState := getFileState statusCode in
  mkFileChange trimmedFilePath fileState
    (if N.eqb fileState FileState_D
     then None
     else getFileDiff (handleRenamedFilePath trimmedFilePath)).

End LineReadings.

Definition isGetFileDiff (e : event) : bool :=
  match e with
  | GetFileDiff _ => true
  | _ => false
  end.

Definition isDeleted (r : FileChange) : bool := N.eqb (state r) FileState_D.

(** A non-blank line that matches the pattern with the untracked marker. *)
Definition isUntrackedLine (line : jsstring) : bool :=
  negb (isBlank line) &&
  match statusCodeOf line with
  | Some statusCode => JS.eqb statusCode (str "??")
  | None => false
  end.

Definition isUntrackedWarning (e : event) : bool :=
  match e with
  | LogWarning message _ => JS.eqb message (str "Untracked file:")
  | _ => false
  end.

Definition untrackedReport (line : jsstring) : event :=
  LogWarning (str "Untracked file:")
    (match filePathOf line with Some f => f | None => [] end
     ++ str " (skipping)").

(** ** Reading the commits out of a log *)




(** The words that the paths part of a commit command shows between its
    blanks. *)
Definition pathWords (files : list jsstring) : list jsstring :=
  split (str " ") (join (str " ") files).

(** A text in which the code unit [d] does not occur. *)
Definition lacksUnit (d : code_unit) (l : jsstring) : bool :=
  forallb (fun c => negb (N.eqb d c)) l.

(** ** Masking an API key ([maskApiKey], [utils/modelUtils.ts]) *)

Definition visibleLength : nat := 4.

Definition star : code_unit := 42%N.

Definition maskApiKey (key : jsstring) : jsstring :=
  if JS.eqb key []
  then str "No API Key"
  else if visibleLength <? length key
  then firstn visibleLength key
       ++ repeatString (str "*") (length key - visibleLength)
  else repeatString (str "*") (length key).

(** ** The rename arrow *)

(** The separator ['->'] of [handleRenamedFilePath]. *)
Definition arrow : jsstring := str "->".

(** ** The answer of the language model ([commitGenerator.ts]) *)

(** A pattern that matches the literal text [c :: w]. *)
Fixpoint lit (c : code_unit) (w : jsstring) : regex :=
  match w with
  | [] => Chr c
  | d :: w' => Seq (Chr c) (lit d w')
  end.

Definition backtick : code_unit := 96%N.

(** The pattern of markdown fences; its source text is three backticks
    followed by [json], or three backticks. *)
Definition fenceRegex : regex :=
  Alt (lit backtick (str "``json")) (lit backtick (str "``")).

(** Three backticks. *)
Definition fence : jsstring := str "```".

(** [s.replace(r, '')] for a pattern [r] with the [g] flag: the matches are
    searched from left to right, each search starting where the last match
    ended (one further on after an empty match), and are left out.  [pos]
    is the index of the head of [s], [skip] the number of code units of the
    current match that are still to be left out. *)
Fixpoint removeAll_go (r : regex) (pos : nat) (s : jsstring) (skip : nat)
  : jsstring :=
  match s with
  | [] => []
  | c :: s' =>
      match skip with
      | S n => removeAll_go r (S pos) s' n
      | O =>
          match rmatch r pos s [] (fun pos' _ _ => Some (pos' - pos)) with
          | Some (S n) => removeAll_go r (S pos) s' n
          | Some O => c :: removeAll_go r (S pos) s' 0
          | None => c :: removeAll_go r (S pos) s' 0
          end
      end
  end.

Definition removeAll (r : regex) (s : jsstring) : jsstring :=
  removeAll_go r 0 s 0.

(** [cleanJson]: the content without markdown fences, trimmed. *)
Definition cleanJson (content : jsstring) : jsstring :=
  trim (removeAll fenceRegex content).

Module AIResponse.

(** A value as [JSON.parse] returns it.  A number is kept as its literal;
    the members of an object are listed as the text has them, and a
    repeated key has the value of its last member. *)
#[local] Unset Elimination Schemes.

Inductive json : Type :=
| JNull
| JBool (b : bool)
| JNumber (literal : jsstring)
| JString (s : jsstring)
| JArray (items : list json)
| JObject (members : list (jsstring * json)).

#[local] Set Elimination Schemes.

(** The result of an expression that may throw. *)
Inductive attempt (A : Type) : Type :=
| Value (a : A)
| Thrown.

Arguments Value {A} a.
Arguments Thrown {A}.

(** The three properties the code reads.  None of them is a built-in
    property of a string, number, boolean, array or plain object. *)
Inductive propertyKey : Type := Commits | Title | Changes.

Definition keyName (k : propertyKey) : jsstring :=
  match k with
  | Commits => str "commits"
  | Title => str "title"
  | Changes => str "changes"
  end.

Fixpoint lookupMember (key : jsstring) (members : list (jsstring * json))
  : option json :=
  match members with
  | [] => None
  | (k, v) :: members' =>
      match lookupMember key members' with
      | Some later => Some later
      | None => if JS.eqb k key then Some v else None
      end
  end.

(** [value.key]: a [TypeError] on [null], [undefined] (here [None]) when
    the value has no such property. *)
Definition getMember (value : json) (k : propertyKey)
  : attempt (option json) :=
  match value with
  | JNull => Thrown
  | JObject members => Value (lookupMember (keyName k) members)
  | _ => Value None
  end.

(** [typeof x === 'string'] *)
Definition isString (x : option json) : bool :=
  match x with
  | Some (JString _) => true
  | _ => false
  end.

(** [Array.isArray(x)] *)
Definition isArray (x : option json) : bool :=
  match x with
  | Some (JArray _) => true
  | _ => false
  end.

Definition isValidSingleCommit (commit : json) : attempt bool :=
  match getMember commit Title with
  | Thrown => Thrown
  | Value t =>
      if isString t
      then match getMember commit Changes with
           | Thrown => Thrown
           | Value c => Value (isArray c)
           end
      else Value false
  end.

(** [Array.prototype.every] with a callback that may throw: it stops at
    the first element for which the callback is false or throws. *)
Fixpoint every (f : json -> attempt bool) (l : list json) : attempt bool :=
  match l with
  | [] => Value true
  | x :: l' =>
      match f x with
      | Thrown => Thrown
      | Value false => Value false
      | Value true => every f l'
      end
  end.

Definition validateAICommit (parsedData : json) : attempt bool :=
  match getMember parsedData Commits with
  | Thrown => Thrown
  | Value commits =>
      match commits with
      | Some (JArray items) => every isValidSingleCommit items
      | _ => Value false
      end
  end.

(** A commit as [getAICommits] returns it: the elements of [changes] are
    whatever the answer holds. *)
Record commit : Type := mkCommit {
  title : jsstring;
  changes : list json
}.

(** [({ title: commit.title, changes: commit.changes })] for a commit that
    passed [isValidSingleCommit]. *)
Definition toCommit (c : json) : commit :=
  mkCommit
    match getMember c Title with
    | Value (Some (JString t)) => t
    | _ => []
    end
    match getMember c Changes with
    | Value (Some (JArray l)) => l
    | _ => []
    end.

(** What the request gave: a failure, or a completion with its content;
    [None] stands for a completion without choices, message or content. *)
Inductive completion : Type :=
| RequestFailed (error : jsstring)
| Completed (content : option jsstring).

(** What is reported before the process exits. *)
Inductive failure : Type :=
| WrongFormat (parsedData : json)
| NotJSON (cleanJson : jsstring)
| EmptyContent
| RequestError (error : jsstring).

Inductive result : Type :=
| Commits_ (commits : list commit)
| ExitAfter (reported : failure) (code : Z).

Section GetAICommits.

(** [JSON.parse]; [None] stands for a [SyntaxError]. *)
Variable JSON_parse : jsstring -> option json.

(** [getAICommits] from the answer of the request on. *)
Definition getAICommits (chatCompletion : completion) : result :=
  match chatCompletion with
  | RequestFailed error => ExitAfter (RequestError error) 1
  | Completed content =>
      match content with
      | None => ExitAfter EmptyContent 1
      | Some text =>
          if JS.eqb text []
          then ExitAfter EmptyContent 1
          else
            let cleaned := cleanJson text in
            match JSON_parse cleaned with
            | None => ExitAfter (NotJSON cleaned) 1
            | Some parsedData =>
                match validateAICommit parsedData with
                | Thrown => ExitAfter (NotJSON cleaned) 1
                | Value true =>
                    match getMember parsedData Commits with
                    | Value (Some (JArray items)) =>
                        Commits_ (map toCommit items)
                    | _ => Commits_ []
                    end
                | Value false => ExitAfter (WrongFormat parsedData) 1
                end
            end
      end
  end.

End GetAICommits.

(** A commit of the expected shape: an object with a string under [title]
    and an array under [changes]. *)
Definition WellFormedCommit (c : json) : Prop :=
  exists members t l,
    c = JObject members /\
    lookupMember (str "title") members = Some (JString t) /\
    lookupMember (str "changes") members = Some (JArray l).

End AIResponse.

(** ** Running git ([gitCommands.ts]) and reading its status *)

(** What [execAsync] gives: the two output streams, or a rejection. *)
Inductive execResult : Type :=
| ExecDone (stdout stderr : jsstring)
| ExecFailed (error : jsstring).

(** A status text, or the error that [getGitStatusOutput] lets through. *)
Inductive statusAttempt : Type :=
| StatusText (statusOutput : jsstring)
| StatusThrown (error : jsstring).

(** [getGitStatusOutput]: a non-empty [stderr] is logged and gives the
    empty text; a rejection of [execAsync] is not caught here. *)
Definition getGitStatusOutput (git : execResult) : Eff statusAttempt :=
  match git with
  | ExecFailed error => ret (StatusThrown error)
  | ExecDone stdout stderr =>
      if negb (JS.eqb stderr [])
      then logError (str "Git command error:") stderr ;; ret (StatusText [])
      else ret (StatusText (trim stdout))
  end.

Section GetGitFileChanges.

Variable getFileDiff : jsstring -> option jsstring.

(** [getGitFileChanges]: the [catch] turns an error of
    [getGitStatusOutput] into a report and the empty list. *)
Definition getGitFileChanges (git : execResult) : Eff (list FileChange) :=
  a <- getGitStatusOutput git ;;
  match a with
  | StatusText gitStatusOutput =>
      parseGitStatusOutput getFileDiff gitStatusOutput
  | StatusThrown error =>
      logError (str "Error while getting Git status:") error ;; ret []
  end.

End GetGitFileChanges.

(** The text that [getRecentCommitTitles] makes of the output of
    [git log]: its non-empty lines. *)
Definition commitTitlesOf (stdout : jsstring) : jsstring :=
  join newline
    (filter (fun title => 0 <? length title) (split newline (trim stdout))).

Definition getRecentCommitTitles (git : execResult) : Eff jsstring :=
  match git with
  | ExecFailed error =>
      logError (str "Error while getting commit title:") error ;; ret []
  | ExecDone stdout stderr =>
      (if negb (JS.eqb stderr [])
       then logWarning (str "Git command warning/error: " ++ stderr) []
       else ret tt) ;;
      ret (commitTitlesOf stdout)
  end.

(** A text without a line feed. *)
Definition noNewline (l : jsstring) : bool := lacksUnit 10%N l.

(* ================================================================== *)
(** * Part II: properties                                              *)
(* ================================================================== *)

(** ** Strings, arrays and sets *)

Lemma eqb_eq (a b : jsstring) : JS.eqb a b = true <-> a = b.
Proof.
  revert b; induction a as [|x a IH]; intros [|y b]; simpl;
    split; intro H; try reflexivity; try discriminate.
  - apply andb_true_iff in H as [Hx Ha].
    apply N.eqb_eq in Hx. apply IH in Ha. congruence.
  - injection H as -> ->. rewrite N.eqb_refl. simpl. now apply IH.
Qed.

Lemma eqb_refl (a : jsstring) : JS.eqb a a = true.
Proof. now apply eqb_eq. Qed.

Lemma eqb_neq (a b : jsstring) : JS.eqb a b = false <-> a <> b.
Proof.
  rewrite <- eqb_eq. destruct (JS.eqb a b); split; congruence.
Qed.

Lemma eqb_sym (a b : jsstring) : JS.eqb a b = JS.eqb b a.
Proof.
  destruct (JS.eqb a b) eqn:E.
  - apply eqb_eq in E. subst. symmetry. apply eqb_refl.
  - destruct (JS.eqb b a) eqn:E'; [|reflexivity].
    apply eqb_eq in E'. subst. now rewrite eqb_refl in E.
Qed.

Lemma jsstring_eq_dec (a b : jsstring) : {a = b} + {a <> b}.
Proof.
  destruct (JS.eqb a b) eqn:E.
  - left. now apply eqb_eq.
  - right. now apply eqb_neq.
Qed.

Lemma arrayIncludes_In (l : list jsstring) (x : jsstring) :
  arrayIncludes l x = true <-> In x l.
Proof.
  unfold arrayIncludes. rewrite existsb_exists. split.
  - intros (y & Hy & E). apply eqb_eq in E. now subst.
  - intros H. exists x. split; [assumption | apply eqb_refl].
Qed.

Lemma arrayIncludes_false (l : list jsstring) (x : jsstring) :
  arrayIncludes l x = false <-> ~ In x l.
Proof.
  rewrite <- arrayIncludes_In. destruct (arrayIncludes l x); split; congruence.
Qed.

Lemma count_nil (p : jsstring) : count p [] = 0.
Proof. reflexivity. Qed.

Lemma count_cons (p x : jsstring) (l : list jsstring) :
  count p (x :: l) = (if JS.eqb p x then 1 else 0) + count p l.
Proof. unfold count. simpl. now destruct (JS.eqb p x). Qed.

Lemma count_app (p : jsstring) (l1 l2 : list jsstring) :
  count p (l1 ++ l2) = count p l1 + count p l2.
Proof. unfold count. now rewrite filter_app, length_app. Qed.

Lemma count_In (p : jsstring) (l : list jsstring) :
  In p l <-> 1 <= count p l.
Proof.
  induction l as [|x l IH]; simpl.
  - rewrite count_nil. split; [tauto | lia].
  - rewrite count_cons. destruct (JS.eqb p x) eqn:E.
    + apply eqb_eq in E. subst. split; [lia | auto].
    + apply eqb_neq in E. rewrite IH. simpl.
      split; [intros [->|H]; [congruence | exact H] | auto].
Qed.

Lemma count_zero (p : jsstring) (l : list jsstring) :
  ~ In p l <-> count p l = 0.
Proof. rewrite count_In. lia. Qed.

Lemma NoDup_count (l : list jsstring) :
  NoDup l <-> forall p, count p l <= 1.
Proof.
  induction l as [|x l IH].
  - split; [intros _ p; rewrite count_nil; lia | constructor].
  - split.
    + intros H p. inversion H as [|? ? Hx Hl]; subst.
      rewrite count_cons. destruct (JS.eqb p x) eqn:E.
      * apply eqb_eq in E. subst. apply count_zero in Hx. lia.
      * simpl. now apply IH.
    + intros H. constructor.
      * apply count_zero. specialize (H x).
        rewrite count_cons, eqb_refl in H. lia.
      * apply IH. intros p. specialize (H p). rewrite count_cons in H. lia.
Qed.

Lemma no_member_nil {A : Type} (l : list A) : (forall x, ~ In x l) -> l = [].
Proof.
  destruct l as [|x l]; [reflexivity|].
  intros H. exfalso. apply (H x). now left.
Qed.

Lemma length_pos_false {A : Type} (l : list A) :
  (0 <? length l) = false <-> l = [].
Proof.
  destruct l; simpl; split; try reflexivity; try discriminate.
Qed.

Lemma Set_has_In (s : JSSet) (x : jsstring) : Set_has s x = true <-> In x s.
Proof. apply arrayIncludes_In. Qed.

Lemma Set_add_In (s : JSSet) (x y : jsstring) :
  In y (Set_add s x) <-> In y s \/ y = x.
Proof.
  unfold Set_add. destruct (Set_has s x) eqn:E.
  - apply Set_has_In in E. split; [auto | intros [H | ->]; assumption].
  - rewrite in_app_iff. simpl. intuition (subst; auto).
Qed.

Lemma Set_add_NoDup (s : JSSet) (x : jsstring) :
  NoDup s -> NoDup (Set_add s x).
Proof.
  intros H. unfold Set_add. destruct (Set_has s x) eqn:E; [assumption|].
  apply arrayIncludes_false in E.
  apply NoDup_count. intros p. rewrite count_app, count_cons, count_nil.
  pose proof (proj1 (NoDup_count s) H p) as Hp.
  destruct (JS.eqb p x) eqn:Ep; [|lia].
  apply eqb_eq in Ep. subst. apply count_zero in E. lia.
Qed.

Lemma Set_fold_In (l : list jsstring) (acc : JSSet) (y : jsstring) :
  In y (fold_left Set_add l acc) <-> In y acc \/ In y l.
Proof.
  revert acc; induction l as [|x l IH]; intros acc; simpl.
  - tauto.
  - rewrite IH, Set_add_In. intuition (subst; auto).
Qed.

Lemma Set_fold_NoDup (l : list jsstring) (acc : JSSet) :
  NoDup acc -> NoDup (fold_left Set_add l acc).
Proof.
  revert acc; induction l as [|x l IH]; intros acc H; simpl.
  - assumption.
  - apply IH. now apply Set_add_NoDup.
Qed.

Lemma Set_new_In (l : list jsstring) (y : jsstring) :
  In y (Set_new l) <-> In y l.
Proof. unfold Set_new. rewrite Set_fold_In. simpl. tauto. Qed.

Lemma Set_new_NoDup (l : list jsstring) : NoDup (Set_new l).
Proof. apply Set_fold_NoDup. constructor. Qed.

(** ** [indexOf] and the duplicate filter of the validator *)

Lemma indexOf_range (l : list jsstring) (x : jsstring) :
  (indexOf l x = -1 /\ ~ In x l)%Z \/
  (0 <= indexOf l x < Z.of_nat (length l) /\ In x l)%Z.
Proof.
  induction l as [|y l IH]; simpl.
  - left. split; [reflexivity | tauto].
  - destruct (JS.eqb y x) eqn:E.
    + apply eqb_eq in E. right. split; [lia | now left].
    + apply eqb_neq in E.
      destruct IH as [[Hi Hn] | [Hi Hin]].
      * left. rewrite Hi. simpl. split; [reflexivity | tauto].
      * right. destruct (indexOf l x <? 0)%Z eqn:Hlt.
        -- apply Z.ltb_lt in Hlt. lia.
        -- split; [lia | now right].
Qed.

Lemma indexOf_app_seen (pre l : list jsstring) (x : jsstring) :
  In x pre -> (indexOf (pre ++ l) x < Z.of_nat (length pre))%Z.
Proof.
  induction pre as [|y pre IH]; simpl; [tauto|].
  intros H. destruct (JS.eqb y x) eqn:E; [lia|].
  apply eqb_neq in E. destruct H as [H|H]; [congruence|].
  specialize (IH H).
  destruct (indexOf (pre ++ l) x <? 0)%Z; lia.
Qed.

Lemma indexOf_app_fresh (pre l : list jsstring) (x : jsstring) :
  ~ In x pre -> indexOf (pre ++ x :: l) x = Z.of_nat (length pre).
Proof.
  induction pre as [|y pre IH]; simpl; intros H.
  - now rewrite eqb_refl.
  - destruct (JS.eqb y x) eqn:E.
    + apply eqb_eq in E. tauto.
    + rewrite IH by tauto.
      destruct (Z.of_nat (length pre) <? 0)%Z eqn:Hlt.
      * apply Z.ltb_lt in Hlt. lia.
      * lia.
Qed.

(** An element passes the filter [indexOf(file) !== index] exactly when it
    already occurs to its left. *)
Lemma repeated_filter_In (a l pre : list jsstring) (p : jsstring) :
  a = pre ++ l ->
  In p (filterIndexed_from
          (fun file index => negb (Z.eqb (indexOf a file) index))
          (Z.of_nat (length pre)) l)
  <-> (In p pre /\ In p l) \/ 2 <= count p l.
Proof.
  revert pre; induction l as [|x l IH]; intros pre Ha.
  - simpl. rewrite count_nil. split; [tauto | intros [[_ []] | H]; lia].
  - assert (Ha' : a = (pre ++ [x]) ++ l) by now rewrite <- app_assoc.
    specialize (IH (pre ++ [x]) Ha').
    rewrite length_app, Nat2Z.inj_add in IH. simpl in IH.
    cbn [filterIndexed_from].
    rewrite in_app_iff in IH. simpl in IH. simpl In.
    rewrite count_cons. rewrite (count_In p l) in *.
    destruct (in_dec jsstring_eq_dec x pre) as [Hin | Hnin].
    + pose proof (indexOf_app_seen pre (x :: l) x Hin) as Hlt.
      rewrite <- Ha in Hlt.
      replace (Z.eqb (indexOf a x) (Z.of_nat (length pre))) with false
        by (symmetry; apply Z.eqb_neq; lia).
      simpl. rewrite IH.
      destruct (JS.eqb p x) eqn:E;
        [apply eqb_eq in E | apply eqb_neq in E]; simpl;
        intuition (subst; try congruence; try lia; auto).
    + pose proof (indexOf_app_fresh pre l x Hnin) as Heq.
      rewrite <- Ha in Heq. rewrite Heq, Z.eqb_refl. simpl. rewrite IH.
      destruct (JS.eqb p x) eqn:E;
        [apply eqb_eq in E | apply eqb_neq in E]; simpl;
        intuition (subst; try congruence; try lia; auto).
Qed.

Lemma repeated_In (a : list jsstring) (p : jsstring) :
  In p (filterIndexed
          (fun file index => negb (Z.eqb (indexOf a file) index)) a)
  <-> 2 <= count p a.
Proof.
  unfold filterIndexed.
  rewrite (repeated_filter_In a a [] p eq_refl).
  simpl. tauto.
Qed.

(** ** The validator *)

Lemma Set_new_nil (l : list jsstring) : Set_new l = [] <-> l = [].
Proof.
  split; intros H.
  - apply no_member_nil. intros x Hx. apply Set_new_In in Hx.
    rewrite H in Hx. exact Hx.
  - subst. reflexivity.
Qed.

Lemma when_nonempty_Set_new (l : list jsstring) :
  (if 0 <? length l then Set_new l else []) = Set_new l.
Proof. destruct l; reflexivity. Qed.

Lemma when_nonempty_id (l : list jsstring) :
  (if 0 <? length l then l else []) = l.
Proof. destruct l; reflexivity. Qed.

Lemma validate_duplicateFiles_In (G : list AICommit) (L : list FileChange)
  (p : jsstring) :
  In p (duplicateFiles (validateAIOutput G L)) <->
  2 <= count p (proposedPaths G).
Proof.
  unfold validateAIOutput. cbn [duplicateFiles].
  rewrite when_nonempty_Set_new, Set_new_In. apply repeated_In.
Qed.

Lemma validate_duplicateFiles_NoDup (G : list AICommit)
  (L : list FileChange) :
  NoDup (duplicateFiles (validateAIOutput G L)).
Proof.
  unfold validateAIOutput. cbn [duplicateFiles].
  rewrite when_nonempty_Set_new. apply Set_new_NoDup.
Qed.

Lemma validate_missingFiles_In (G : list AICommit) (L : list FileChange)
  (p : jsstring) :
  In p (missingFiles (validateAIOutput G L)) <->
  In p (map path L) /\ ~ In p (proposedPaths G).
Proof.
  unfold validateAIOutput. cbn [missingFiles].
  rewrite when_nonempty_id, filter_In, negb_true_iff, arrayIncludes_false.
  reflexivity.
Qed.

Lemma validate_invalidFiles_In (G : list AICommit) (L : list FileChange)
  (p : jsstring) :
  In p (invalidFiles (validateAIOutput G L)) <->
  In p (proposedPaths G) /\ ~ In p (map path L).
Proof.
  unfold validateAIOutput. cbn [invalidFiles].
  rewrite when_nonempty_Set_new, Set_new_In, filter_In, negb_true_iff,
    arrayIncludes_false.
  reflexivity.
Qed.

Lemma validate_invalidFiles_NoDup (G : list AICommit)
  (L : list FileChange) :
  NoDup (invalidFiles (validateAIOutput G L)).
Proof.
  unfold validateAIOutput. cbn [invalidFiles].
  rewrite when_nonempty_Set_new. apply Set_new_NoDup.
Qed.

Lemma validate_wf (G : list AICommit) (L : list FileChange) :
  ValidationResult_wf (validateAIOutput G L).
Proof.
  unfold ValidationResult_wf, validateAIOutput.
  cbn [valid duplicateFiles missingFiles invalidFiles].
  rewrite !when_nonempty_Set_new, when_nonempty_id, !Set_new_nil.
  rewrite !andb_true_iff, !negb_true_iff, !length_pos_false.
  tauto.
Qed.

(** C2.  [validateAIOutput] is a total function whose result lists are:
    [duplicateFiles], without repetition, the paths occurring at least
    twice in the concatenation of all groups' changes; [missingFiles], the
    paths of the change list that occur nowhere in that concatenation;
    [invalidFiles], without repetition, the proposed paths that are no path
    of the change list; and [valid] is true exactly when the three lists
    are empty. *)
Theorem validateAIOutput_spec (G : list AICommit) (L : list FileChange) :
  let v := validateAIOutput G L in
  (NoDup (duplicateFiles v) /\
   forall p, In p (duplicateFiles v) <-> 2 <= count p (proposedPaths G))
  /\ (forall p, In p (missingFiles v) <->
                In p (map path L) /\ ~ In p (proposedPaths G))
  /\ (NoDup (invalidFiles v) /\
      forall p, In p (invalidFiles v) <->
                In p (proposedPaths G) /\ ~ In p (map path L))
  /\ (valid v = true <->
      duplicateFiles v = [] /\ missingFiles v = [] /\ invalidFiles v = []).
Proof.
  cbv zeta.
  split; [split; [apply validate_duplicateFiles_NoDup|]|].
  { intros p. apply validate_duplicateFiles_In. }
  split; [intros p; apply validate_missingFiles_In|].
  split; [split; [apply validate_invalidFiles_NoDup|]|].
  { intros p. apply validate_invalidFiles_In. }
  apply validate_wf.
Qed.

Lemma valid_no_duplicate (G : list AICommit) (L : list FileChange) :
  valid (validateAIOutput G L) = true ->
  forall p, count p (proposedPaths G) <= 1.
Proof.
  intros Hv p. apply validate_wf in Hv as (Hd & _ & _).
  destruct (le_lt_dec (count p (proposedPaths G)) 1) as [H|H]; [exact H|].
  assert (Hp : In p (duplicateFiles (validateAIOutput G L)))
    by (apply validate_duplicateFiles_In; lia).
  rewrite Hd in Hp. destruct Hp.
Qed.

Lemma valid_all_listed (G : list AICommit) (L : list FileChange) :
  valid (validateAIOutput G L) = true ->
  forall p, In p (proposedPaths G) <-> In p (map path L).
Proof.
  intros Hv p.
  pose proof (proj1 (validate_wf G L) Hv) as (_ & Hm & Hi).
  split; intros H.
  - destruct (in_dec jsstring_eq_dec p (map path L)) as [Hin|Hnin];
      [exact Hin|].
    assert (Hp : In p (invalidFiles (validateAIOutput G L)))
      by (apply validate_invalidFiles_In; auto).
    rewrite Hi in Hp. destruct Hp.
  - destruct (in_dec jsstring_eq_dec p (proposedPaths G)) as [Hin|Hnin];
      [exact Hin|].
    assert (Hp : In p (missingFiles (validateAIOutput G L)))
      by (apply validate_missingFiles_In; auto).
    rewrite Hm in Hp. destruct Hp.
Qed.

(** C5.  When the validator answers [valid = true], the concatenation of
    the groups' changes lists every path of the change list exactly once
    and nothing else. *)
Theorem valid_exact_cover (G : list AICommit) (L : list FileChange) :
  valid (validateAIOutput G L) = true ->
  NoDup (proposedPaths G)
  /\ (forall p, In p (proposedPaths G) <-> In p (map path L))
  /\ (forall p, count p (proposedPaths G) =
                if arrayIncludes (map path L) p then 1 else 0).
Proof.
  intros Hv.
  pose proof (valid_no_duplicate G L Hv) as Hle.
  pose proof (valid_all_listed G L Hv) as Hcover.
  split; [now apply NoDup_count|]. split; [exact Hcover|].
  intros p. specialize (Hle p).
  destruct (arrayIncludes (map path L) p) eqn:E.
  - apply arrayIncludes_In, Hcover, count_In in E. lia.
  - apply arrayIncludes_false in E. rewrite <- Hcover in E.
    now apply count_zero.
Qed.

(** ** Subsequences *)

Lemma Subsequence_refl {A : Type} (l : list A) : Subsequence l l.
Proof. induction l; constructor; assumption. Qed.

Lemma Subsequence_trans {A : Type} (l1 l2 l3 : list A) :
  Subsequence l1 l2 -> Subsequence l2 l3 -> Subsequence l1 l3.
Proof.
  intros H12 H23. revert l1 H12.
  induction H23 as [| x l2 l3 H IH | x l2 l3 H IH]; intros l1 H12.
  - exact H12.
  - inversion H12; subst.
    + apply Sub_keep. now apply IH.
    + apply Sub_drop. now apply IH.
  - apply Sub_drop. now apply IH.
Qed.

Lemma Subsequence_In {A : Type} (l' l : list A) (x : A) :
  Subsequence l' l -> In x l' -> In x l.
Proof.
  induction 1 as [| y l' l H IH | y l' l H IH]; simpl; intros Hx.
  - exact Hx.
  - destruct Hx as [-> | Hx]; auto.
  - auto.
Qed.

Lemma Subsequence_filter {A : Type} (f : A -> bool) (l : list A) :
  Subsequence (filter f l) l.
Proof.
  induction l as [|x l IH]; simpl.
  - constructor.
  - destruct (f x); constructor; assumption.
Qed.

Lemma Subsequence_nil {A : Type} (l : list A) : Subsequence [] l.
Proof. induction l; constructor; assumption. Qed.

(** ** The duplicate pass *)

Lemma bool_eq_iff (a b : bool) : (a = true <-> b = true) -> a = b.
Proof. destruct a, b; intuition congruence. Qed.

Lemma arrayIncludes_cons (x p : jsstring) (l : list jsstring) :
  arrayIncludes (x :: l) p = JS.eqb p x || arrayIncludes l p.
Proof. reflexivity. Qed.

Lemma arrayIncludes_app (l1 l2 : list jsstring) (p : jsstring) :
  arrayIncludes (l1 ++ l2) p = arrayIncludes l1 p || arrayIncludes l2 p.
Proof. unfold arrayIncludes. apply existsb_app. Qed.

Lemma Set_has_add (c : JSSet) (x p : jsstring) :
  Set_has (Set_add c x) p = Set_has c p || JS.eqb p x.
Proof.
  apply bool_eq_iff.
  rewrite orb_true_iff, !Set_has_In, Set_add_In, eqb_eq. reflexivity.
Qed.

Lemma filterDuplicates_sub (d ch : list jsstring) (c : JSSet) :
  Subsequence (fst (filterDuplicates d ch c)) ch.
Proof.
  revert c; induction ch as [|x ch IH]; intros c; simpl.
  - constructor.
  - destruct (arrayIncludes d x); simpl.
    + destruct (Set_has c x).
      * apply Sub_drop, IH.
      * specialize (IH (Set_add c x)).
        destruct (filterDuplicates d ch (Set_add c x)). now apply Sub_keep.
    + specialize (IH c). destruct (filterDuplicates d ch c).
      now apply Sub_keep.
Qed.

Lemma filterDuplicates_set (d ch : list jsstring) (c : JSSet)
  (y : jsstring) :
  In y (snd (filterDuplicates d ch c)) <-> In y c \/ (In y ch /\ In y d).
Proof.
  revert c; induction ch as [|x ch IH]; intros c; simpl.
  - tauto.
  - destruct (arrayIncludes d x) eqn:Ed; simpl.
    + apply arrayIncludes_In in Ed.
      destruct (Set_has c x) eqn:Ec.
      * apply Set_has_In in Ec. rewrite IH.
        intuition (subst; auto).
      * specialize (IH (Set_add c x)).
        destruct (filterDuplicates d ch (Set_add c x)). simpl in *.
        rewrite IH, Set_add_In. intuition (subst; auto).
    + apply arrayIncludes_false in Ed.
      specialize (IH c). destruct (filterDuplicates d ch c). simpl in *.
      rewrite IH. intuition (subst; auto). tauto.
Qed.

Lemma filterDuplicates_count_other (d ch : list jsstring) (c : JSSet)
  (p : jsstring) :
  ~ In p d ->
  count p (fst (filterDuplicates d ch c)) = count p ch.
Proof.
  intros Hp. revert c; induction ch as [|x ch IH]; intros c; simpl.
  - reflexivity.
  - rewrite count_cons.
    destruct (arrayIncludes d x) eqn:Ed; simpl.
    + apply arrayIncludes_In in Ed.
      assert (E : JS.eqb p x = false)
        by (apply eqb_neq; intros ->; tauto).
      rewrite E. simpl.
      destruct (Set_has c x).
      * apply IH.
      * specialize (IH (Set_add c x)).
        destruct (filterDuplicates d ch (Set_add c x)). simpl in *.
        now rewrite count_cons, E, IH.
    + specialize (IH c). destruct (filterDuplicates d ch c). simpl in *.
      now rewrite count_cons, IH.
Qed.

Lemma filterDuplicates_count_dup (d ch : list jsstring) (c : JSSet)
  (p : jsstring) :
  In p d ->
  count p (fst (filterDuplicates d ch c)) =
  if Set_has c p then 0 else if arrayIncludes ch p then 1 else 0.
Proof.
  intros Hp. revert c; induction ch as [|x ch IH]; intros c.
  - simpl. rewrite count_nil. now destruct (Set_has c p).
  - cbn [filterDuplicates]. rewrite arrayIncludes_cons.
    destruct (arrayIncludes d x) eqn:Ed; cbn [negb].
    + destruct (Set_has c x) eqn:Ec.
      * rewrite IH. destruct (JS.eqb p x) eqn:E; [|reflexivity].
        apply eqb_eq in E. subst. now rewrite Ec.
      * specialize (IH (Set_add c x)).
        destruct (filterDuplicates d ch (Set_add c x)). cbn [fst] in *.
        rewrite count_cons, IH, Set_has_add.
        destruct (JS.eqb p x) eqn:E.
        -- apply eqb_eq in E. subst. rewrite Ec. reflexivity.
        -- rewrite orb_false_r. reflexivity.
    + apply arrayIncludes_false in Ed.
      assert (E : JS.eqb p x = false)
        by (apply eqb_neq; intros ->; tauto).
      specialize (IH c). destruct (filterDuplicates d ch c). cbn [fst] in *.
      rewrite count_cons, E, IH. reflexivity.
Qed.

Lemma proposedPaths_cons (g : AICommit) (G : list AICommit) :
  proposedPaths (g :: G) = changes g ++ proposedPaths G.
Proof. reflexivity. Qed.

Lemma proposedPaths_app (G1 G2 : list AICommit) :
  proposedPaths (G1 ++ G2) = proposedPaths G1 ++ proposedPaths G2.
Proof. unfold proposedPaths. apply flat_map_app. Qed.

Lemma duplicatePass_frame (d : list jsstring) (G : list AICommit)
  (c : JSSet) :
  SameGroupsFewerPaths G (fst (duplicatePass d G c)).
Proof.
  induction G as [|g G IH]; simpl.
  - constructor.
  - destruct (duplicatePass d G c) as [G' c1]. simpl in IH.
    pose proof (filterDuplicates_sub d (changes g) c1) as Hs.
    destruct (filterDuplicates d (changes g) c1) as [kept c2]. simpl in *.
    constructor; [split; [reflexivity | exact Hs] | exact IH].
Qed.

Lemma duplicatePass_set (d : list jsstring) (G : list AICommit) (c : JSSet)
  (y : jsstring) :
  In y (snd (duplicatePass d G c)) <->
  In y c \/ (In y (proposedPaths G) /\ In y d).
Proof.
  induction G as [|g G IH]; simpl.
  - tauto.
  - destruct (duplicatePass d G c) as [G' c1]. simpl in IH.
    pose proof (filterDuplicates_set d (changes g) c1 y) as Hs.
    destruct (filterDuplicates d (changes g) c1) as [kept c2]. simpl in *.
    rewrite Hs, IH, in_app_iff. tauto.
Qed.

Lemma duplicatePass_count_other (d : list jsstring) (G : list AICommit)
  (c : JSSet) (p : jsstring) :
  ~ In p d ->
  count p (proposedPaths (fst (duplicatePass d G c))) =
  count p (proposedPaths G).
Proof.
  intros Hp. induction G as [|g G IH]; simpl.
  - reflexivity.
  - destruct (duplicatePass d G c) as [G' c1]. simpl in IH.
    pose proof (filterDuplicates_count_other d (changes g) c1 p Hp) as Hs.
    destruct (filterDuplicates d (changes g) c1) as [kept c2]. simpl in *.
    now rewrite !count_app, Hs, IH.
Qed.

Lemma duplicatePass_count_dup (d : list jsstring) (G : list AICommit)
  (c : JSSet) (p : jsstring) :
  In p d ->
  count p (proposedPaths (fst (duplicatePass d G c))) =
  if Set_has c p then 0
  else if arrayIncludes (proposedPaths G) p then 1 else 0.
Proof.
  intros Hp. induction G as [|g G IH]; simpl.
  - rewrite count_nil. now destruct (Set_has c p).
  - pose proof (duplicatePass_set d G c p) as Hset.
    destruct (duplicatePass d G c) as [G' c1]. simpl in IH, Hset.
    pose proof (filterDuplicates_count_dup d (changes g) c1 p Hp) as Hs.
    destruct (filterDuplicates d (changes g) c1) as [kept c2]. simpl in *.
    rewrite count_app, Hs, IH, arrayIncludes_app.
    destruct (Set_has c p) eqn:Ec.
    + assert (E1 : Set_has c1 p = true).
      { apply Set_has_In, Hset. left. now apply Set_has_In. }
      now rewrite E1.
    + destruct (arrayIncludes (proposedPaths G) p) eqn:Eg.
      * assert (E1 : Set_has c1 p = true).
        { apply Set_has_In, Hset. right. split; [|exact Hp].
          now apply arrayIncludes_In. }
        rewrite E1, orb_true_r. reflexivity.
      * assert (E1 : Set_has c1 p = false).
        { apply arrayIncludes_false. intros Hin. apply Hset in Hin.
          destruct Hin as [Hin | [Hin _]].
          - apply Set_has_In in Hin. congruence.
          - apply arrayIncludes_In in Hin. congruence. }
        rewrite E1, orb_false_r.
        destruct (arrayIncludes (changes g) p); reflexivity.
Qed.

Lemma duplicatePass_app (d : list jsstring) (G1 G2 : list AICommit)
  (c : JSSet) :
  duplicatePass d (G1 ++ G2) c =
  let '(G2', c1) := duplicatePass d G2 c in
  let '(G1', c2) := duplicatePass d G1 c1 in
  (G1' ++ G2', c2).
Proof.
  induction G1 as [|g G1 IH]; simpl.
  - now destruct (duplicatePass d G2 c).
  - rewrite IH. destruct (duplicatePass d G2 c) as [G2' c1].
    destruct (duplicatePass d G1 c1) as [G1' c2].
    now destruct (filterDuplicates d (changes g) c2).
Qed.

Lemma setIndex_app {A : Type} (pre post : list A) (x y : A) :
  setIndex (length pre) y (pre ++ x :: post) = pre ++ y :: post.
Proof.
  induction pre as [|z pre IH]; simpl; [reflexivity | now rewrite IH].
Qed.

Lemma nth_error_middle {A : Type} (pre post : list A) (x : A) :
  nth_error (pre ++ x :: post) (length pre) = Some x.
Proof.
  induction pre as [|z pre IH]; simpl; [reflexivity | exact IH].
Qed.

(** The index loop of the source computes the recursive reading. *)
Lemma duplicateLoop_pass (d : list jsstring) (pre post : list AICommit)
  (c : JSSet) :
  duplicateLoop d (length pre) (pre ++ post) c =
  let '(pre', c') := duplicatePass d pre c in (pre' ++ post, c').
Proof.
  revert post c. induction pre as [|g pre IH] using rev_ind; intros post c.
  - reflexivity.
  - rewrite length_app, Nat.add_1_r. cbn [length duplicateLoop].
    rewrite <- app_assoc. cbn [app].
    rewrite nth_error_middle, duplicatePass_app. cbn [duplicatePass].
    destruct (filterDuplicates d (changes g) c) as [kept c1].
    rewrite setIndex_app, IH.
    destruct (duplicatePass d pre c1) as [pre' c2].
    now rewrite <- app_assoc.
Qed.

Lemma resolveDuplicates_pass (d : list jsstring) (G : list AICommit) :
  resolveDuplicates d G = fst (duplicatePass d G []).
Proof.
  unfold resolveDuplicates.
  pose proof (duplicateLoop_pass d G [] []) as H.
  rewrite app_nil_r in H. rewrite H.
  destruct (duplicatePass d G []). simpl. apply app_nil_r.
Qed.

(** ** Frame of the two passes *)

Lemma SameGroups_refl (G : list AICommit) : SameGroupsFewerPaths G G.
Proof.
  induction G as [|g G IH]; constructor.
  - split; [reflexivity | apply Subsequence_refl].
  - exact IH.
Qed.

Lemma SameGroups_trans (G1 G2 G3 : list AICommit) :
  SameGroupsFewerPaths G1 G2 -> SameGroupsFewerPaths G2 G3 ->
  SameGroupsFewerPaths G1 G3.
Proof.
  intros H12. revert G3.
  induction H12 as [|g1 g2 G1 G2 [Ht Hs] H IH]; intros G3 H23.
  - inversion H23. constructor.
  - inversion H23 as [|? g3 ? G3' [Ht' Hs'] H']; subst.
    constructor.
    + split; [congruence | eapply Subsequence_trans; eassumption].
    + now apply IH.
Qed.

Lemma SameGroups_length (G G' : list AICommit) :
  SameGroupsFewerPaths G G' -> length G' = length G.
Proof. intros H. symmetry. eapply Forall2_length. exact H. Qed.

Lemma SameGroups_titles (G G' : list AICommit) :
  SameGroupsFewerPaths G G' -> map title G' = map title G.
Proof.
  induction 1 as [|g g' G G' [Ht _] H IH]; simpl; [reflexivity|].
  now rewrite Ht, IH.
Qed.

Lemma SameGroups_In (G G' : list AICommit) (p : jsstring) :
  SameGroupsFewerPaths G G' ->
  In p (proposedPaths G') -> In p (proposedPaths G).
Proof.
  induction 1 as [|g g' G G' [_ Hs] H IH]; simpl; [tauto|].
  rewrite !in_app_iff. intros [Hp | Hp].
  - left. eapply Subsequence_In; eassumption.
  - right. now apply IH.
Qed.

Lemma SameGroups_nth (G G' : list AICommit) (i : nat) (g : AICommit) :
  SameGroupsFewerPaths G G' ->
  nth_error G i = Some g ->
  exists g', nth_error G' i = Some g' /\ title g' = title g /\
             Subsequence (changes g') (changes g).
Proof.
  intros H. revert i. induction H as [|g0 g0' G G' [Ht Hs] H IH]; intros i.
  - destruct i; discriminate.
  - destruct i as [|i]; simpl.
    + intros [= <-]. exists g0'. auto.
    + apply IH.
Qed.

Lemma SameGroups_nth_inv (G G' : list AICommit) (i : nat) (g' : AICommit) :
  SameGroupsFewerPaths G G' ->
  nth_error G' i = Some g' ->
  exists g, nth_error G i = Some g /\ title g' = title g /\
            Subsequence (changes g') (changes g).
Proof.
  intros H. revert i. induction H as [|g0 g0' G G' [Ht Hs] H IH]; intros i.
  - destruct i; discriminate.
  - destruct i as [|i]; simpl.
    + intros [= <-]. exists g0. auto.
    + apply IH.
Qed.

Lemma resolveDuplicates_frame (d : list jsstring) (G : list AICommit) :
  SameGroupsFewerPaths G (resolveDuplicates d G).
Proof. rewrite resolveDuplicates_pass. apply duplicatePass_frame. Qed.

Lemma removeInvalid_frame (inv : list jsstring) (G : list AICommit) :
  SameGroupsFewerPaths G (removeInvalid inv G).
Proof.
  unfold removeInvalid. induction G as [|g G IH]; simpl; constructor.
  - split; [reflexivity | apply Subsequence_filter].
  - exact IH.
Qed.

Lemma repair_same_groups (G : list AICommit)
  (v : GeneratorValidationResult) :
  SameGroupsFewerPaths G (repair G v).
Proof.
  unfold repair. destruct (valid v); simpl; [apply SameGroups_refl|].
  destruct (0 <? length (invalidFiles v));
    destruct (0 <? length (duplicateFiles v));
    repeat first [ apply SameGroups_refl
                 | apply resolveDuplicates_frame
                 | apply removeInvalid_frame
                 | eapply SameGroups_trans;
                   [apply resolveDuplicates_frame | apply removeInvalid_frame] ].
Qed.

(** C10.  Whatever the validation result, repairing keeps the number of
    groups, their order and their titles; every group's changes become a
    subsequence of what they were, so no path is inserted and the paths
    that stay keep their order; a group stays in the list at its index even
    when all its changes are removed. *)
Theorem repair_frame (G : list AICommit) (v : GeneratorValidationResult) :
  length (repair G v) = length G
  /\ map title (repair G v) = map title G
  /\ SameGroupsFewerPaths G (repair G v)
  /\ (forall i g', nth_error (repair G v) i = Some g' ->
        exists g, nth_error G i = Some g /\ title g' = title g /\
                  Subsequence (changes g') (changes g) /\
                  forall p, In p (changes g') -> In p (changes g))
  /\ (forall i g, nth_error G i = Some g ->
        exists g', nth_error (repair G v) i = Some g' /\
                   title g' = title g /\
                   Subsequence (changes g') (changes g)).
Proof.
  pose proof (repair_same_groups G v) as H.
  split; [now apply SameGroups_length|].
  split; [now apply SameGroups_titles|].
  split; [exact H|].
  split.
  - intros i g' Hi.
    destruct (SameGroups_nth_inv G (repair G v) i g' H Hi)
      as (g & Hg & Ht & Hs).
    exists g. repeat split; try assumption.
    intros p. now apply Subsequence_In.
  - intros i g. now apply SameGroups_nth.
Qed.

(** ** The invalid pass *)

Lemma Set_has_new (l : list jsstring) (p : jsstring) :
  Set_has (Set_new l) p = arrayIncludes l p.
Proof.
  apply bool_eq_iff.
  now rewrite Set_has_In, Set_new_In, arrayIncludes_In.
Qed.

Lemma count_filter (f : jsstring -> bool) (l : list jsstring)
  (p : jsstring) :
  count p (filter f l) = if f p then count p l else 0.
Proof.
  induction l as [|x l IH]; simpl.
  - rewrite count_nil. now destruct (f p).
  - destruct (f x) eqn:Ex; rewrite !count_cons.
    + rewrite IH. destruct (f p) eqn:Ep; [reflexivity|].
      destruct (JS.eqb p x) eqn:E; [|reflexivity].
      apply eqb_eq in E. congruence.
    + rewrite IH. destruct (f p) eqn:Ep; [|reflexivity].
      destruct (JS.eqb p x) eqn:E; [|reflexivity].
      apply eqb_eq in E. congruence.
Qed.

Lemma removeInvalid_paths (inv : list jsstring) (G : list AICommit) :
  proposedPaths (removeInvalid inv G) =
  filter (fun p => negb (arrayIncludes inv p)) (proposedPaths G).
Proof.
  unfold removeInvalid. induction G as [|g G IH]; simpl; [reflexivity|].
  rewrite filter_app, IH. f_equal.
  apply filter_ext. intros p. now rewrite Set_has_new.
Qed.

Lemma removeInvalid_In (inv : list jsstring) (G : list AICommit)
  (p : jsstring) :
  In p (proposedPaths (removeInvalid inv G)) <->
  In p (proposedPaths G) /\ ~ In p inv.
Proof.
  rewrite removeInvalid_paths, filter_In, negb_true_iff,
    arrayIncludes_false.
  reflexivity.
Qed.

Lemma removeInvalid_count (inv : list jsstring) (G : list AICommit)
  (p : jsstring) :
  count p (proposedPaths (removeInvalid inv G)) =
  if arrayIncludes inv p then 0 else count p (proposedPaths G).
Proof.
  rewrite removeInvalid_paths, count_filter.
  now destruct (arrayIncludes inv p).
Qed.

Lemma repair_no_flagged_invalid (G : list AICommit)
  (v : GeneratorValidationResult) (p : jsstring) :
  ValidationResult_wf v ->
  In p (invalidFiles v) -> ~ In p (proposedPaths (repair G v)).
Proof.
  intros Hwf Hp. unfold repair.
  destruct (valid v) eqn:Hv.
  - apply Hwf in Hv as (_ & _ & Hi). rewrite Hi in Hp. destruct Hp.
  - simpl. destruct (invalidFiles v) as [|x inv] eqn:Hi; [destruct Hp|].
    cbn [length Nat.ltb Nat.leb]. rewrite removeInvalid_In. tauto.
Qed.

(** C6.  For a validation result that satisfies the invariant of the data
    model, no path flagged invalid is left in any group after repair; repair
    puts no path into the groups that was in none of them, so the missing
    files that the validator reports are still in no group. *)
Theorem repair_drops_invalid_leaves_missing (G : list AICommit)
  (v : GeneratorValidationResult) :
  ValidationResult_wf v ->
  (forall p g', In p (invalidFiles v) -> In g' (repair G v) ->
                ~ In p (changes g'))
  /\ (forall p, (forall g, In g G -> ~ In p (changes g)) ->
                forall g', In g' (repair G v) -> ~ In p (changes g'))
  /\ (forall L, v = validateAIOutput G L ->
        forall p g', In p (missingFiles v) -> In g' (repair G v) ->
                     ~ In p (changes g')).
Proof.
  intros Hwf.
  assert (Hstay : forall p, ~ In p (proposedPaths G) ->
                  forall g', In g' (repair G v) -> ~ In p (changes g')).
  { intros p Hp g' Hg' Hin. apply Hp.
    apply (SameGroups_In G (repair G v) p (repair_same_groups G v)).
    apply in_flat_map. exists g'. auto. }
  split; [|split].
  - intros p g' Hp Hg' Hin.
    apply (repair_no_flagged_invalid G v p Hwf Hp).
    apply in_flat_map. exists g'. auto.
  - intros p Hp. apply Hstay. intros Hin.
    apply in_flat_map in Hin as (g & Hg & Hin). now apply (Hp g).
  - intros L -> p g' Hp. apply Hstay.
    now apply validate_missingFiles_In in Hp.
Qed.

(** ** Which occurrence of a duplicate survives *)

Lemma last_listing_group (G : list AICommit) (p : jsstring) :
  In p (proposedPaths G) ->
  exists pre g post,
    G = pre ++ g :: post /\ In p (changes g) /\
    ~ In p (proposedPaths post).
Proof.
  induction G as [|g0 G IH]; simpl; [tauto|].
  rewrite in_app_iff. intros H.
  destruct (in_dec jsstring_eq_dec p (proposedPaths G)) as [Hin | Hnin].
  - destruct (IH Hin) as (pre & g & post & -> & Hg & Hpost).
    exists (g0 :: pre), g, post. auto.
  - exists [], g0, G. destruct H as [H | H]; [auto | tauto].
Qed.

Lemma duplicatePass_kept_latest (d : list jsstring) (G : list AICommit)
  (p : jsstring) :
  In p d -> In p (proposedPaths G) ->
  KeptOnceInLatest p G (fst (duplicatePass d G [])).
Proof.
  intros Hd Hin.
  destruct (last_listing_group G p Hin) as (pre & g & post & -> & Hg & Hpost).
  rewrite duplicatePass_app. cbn [duplicatePass].
  pose proof (duplicatePass_set d post [] p) as Hset1.
  pose proof (duplicatePass_count_dup d post [] p Hd) as Hcnt1.
  pose proof (duplicatePass_frame d post []) as Hfr1.
  destruct (duplicatePass d post []) as [post' c1]. cbn [fst snd] in *.
  pose proof (filterDuplicates_set d (changes g) c1 p) as Hset2.
  pose proof (filterDuplicates_count_dup d (changes g) c1 p Hd) as Hcnt2.
  destruct (filterDuplicates d (changes g) c1) as [kept c2].
  cbn [fst snd] in *.
  pose proof (duplicatePass_count_dup d pre c2 p Hd) as Hcnt3.
  pose proof (duplicatePass_frame d pre c2) as Hfr3.
  destruct (duplicatePass d pre c2) as [pre' c3]. cbn [fst snd] in *.
  assert (E1 : Set_has c1 p = false).
  { apply arrayIncludes_false. rewrite Hset1. simpl. tauto. }
  assert (E2 : Set_has c2 p = true).
  { apply Set_has_In, Hset2. right. auto. }
  assert (E3 : arrayIncludes (changes g) p = true)
    by now apply arrayIncludes_In.
  assert (E4 : arrayIncludes (proposedPaths post) p = false)
    by now apply arrayIncludes_false.
  rewrite E1, E3 in Hcnt2. rewrite E2 in Hcnt3.
  change (Set_has [] p) with false in Hcnt1. rewrite E4 in Hcnt1.
  exists pre, g, post, pre', (mkAICommit (title g) kept), post'.
  repeat split; try assumption; try reflexivity.
  - now apply SameGroups_length.
  - now apply SameGroups_length.
  - now apply count_zero.
  - now apply count_zero.
Qed.

Lemma removeInvalid_kept (inv : list jsstring) (G G1 : list AICommit)
  (p : jsstring) :
  ~ In p inv ->
  KeptOnceInLatest p G G1 -> KeptOnceInLatest p G (removeInvalid inv G1).
Proof.
  intros Hp (pre & g & post & pre' & g' & post' &
             HG & HG1 & Hl1 & Hl2 & Hg & Hpost & Ht & Hc & Hn1 & Hn2).
  subst G1.
  exists pre, g, post, (removeInvalid inv pre'),
    (mkAICommit (title g')
       (filter (fun q => negb (Set_has (Set_new inv) q)) (changes g'))),
    (removeInvalid inv post').
  repeat split; try assumption.
  - unfold removeInvalid. now rewrite map_app.
  - unfold removeInvalid. now rewrite length_map.
  - unfold removeInvalid. now rewrite length_map.
  - cbn [changes]. rewrite count_filter, Set_has_new.
    apply arrayIncludes_false in Hp. now rewrite Hp.
  - rewrite removeInvalid_In. tauto.
  - rewrite removeInvalid_In. tauto.
Qed.

Lemma KeptOnceInLatest_count (p : jsstring) (G G' : list AICommit) :
  KeptOnceInLatest p G G' -> count p (proposedPaths G') = 1.
Proof.
  intros (pre & g & post & pre' & g' & post' &
          _ & -> & _ & _ & _ & _ & _ & Hc & Hn1 & Hn2).
  rewrite proposedPaths_app, proposedPaths_cons, !count_app.
  apply count_zero in Hn1, Hn2. lia.
Qed.

Lemma validate_invalid_when_duplicated (G : list AICommit)
  (L : list FileChange) :
  duplicateFiles (validateAIOutput G L) <> [] ->
  valid (validateAIOutput G L) = false.
Proof.
  intros H. destruct (valid (validateAIOutput G L)) eqn:Hv; [|reflexivity].
  apply validate_wf in Hv as (Hd & _). contradiction.
Qed.

Lemma repair_after_duplicates (G : list AICommit)
  (v : GeneratorValidationResult) :
  valid v = false -> duplicateFiles v <> [] ->
  repair G v =
  if 0 <? length (invalidFiles v)
  then removeInvalid (invalidFiles v) (resolveDuplicates (duplicateFiles v) G)
  else resolveDuplicates (duplicateFiles v) G.
Proof.
  intros Hv Hd. unfold repair. rewrite Hv. simpl negb. cbv iota.
  destruct (duplicateFiles v); [contradiction | reflexivity].
Qed.

(** C3.  When the validator reports duplicates, the duplicate pass, which
    runs over the groups from the last to the first, is the first thing
    repair does; it leaves every duplicate path exactly once, in the group
    at the position of the last group that listed it, and in no other
    group.  The same holds of the repaired groups for every duplicate that
    is a path of the change list.  In the scenario of groups A = [f1, f2]
    and B = [f2, f3] over the paths f1, f2, f3 the validator reports the
    one duplicate f2 and the repaired groups are A = [f1], B = [f2, f3]. *)
Theorem duplicates_kept_in_latest_group :
  (forall (L : list FileChange) (G : list AICommit),
     let v := validateAIOutput G L in
     duplicateFiles v <> [] ->
     let G' := resolveDuplicates (duplicateFiles v) G in
     repair G v =
       (if 0 <? length (invalidFiles v)
        then removeInvalid (invalidFiles v) G' else G')
     /\ forall p, In p (duplicateFiles v) ->
          count p (proposedPaths G') = 1
          /\ KeptOnceInLatest p G G'
          /\ (In p (map path L) ->
              count p (proposedPaths (repair G v)) = 1
              /\ KeptOnceInLatest p G (repair G v)))
  /\ (forall L : list FileChange,
        map path L = [str "f1"; str "f2"; str "f3"] ->
        let A := mkAICommit (str "A") [str "f1"; str "f2"] in
        let B := mkAICommit (str "B") [str "f2"; str "f3"] in
        validateAIOutput [A; B] L = mkValidationResult false [str "f2"] [] []
        /\ repair [A; B] (validateAIOutput [A; B] L) =
           [ mkAICommit (str "A") [str "f1"];
             mkAICommit (str "B") [str "f2"; str "f3"] ]).
Proof.
  split.
  - intros L G v Hne G'.
    pose proof (validate_invalid_when_duplicated G L Hne) as Hv.
    pose proof (repair_after_duplicates G v Hv Hne) as Hrep.
    split; [exact Hrep|].
    intros p Hp.
    assert (Hin : In p (proposedPaths G)).
    { apply validate_duplicateFiles_In in Hp. apply count_In. lia. }
    assert (Hk : KeptOnceInLatest p G G').
    { unfold G'. rewrite resolveDuplicates_pass.
      now apply duplicatePass_kept_latest. }
    split; [now apply KeptOnceInLatest_count with (G := G)|].
    split; [exact Hk|].
    intros HL.
    assert (Hk' : KeptOnceInLatest p G (repair G v)).
    { rewrite Hrep. destruct (0 <? length (invalidFiles v)); [|exact Hk].
      apply removeInvalid_kept; [|exact Hk].
      intros Hinv. apply validate_invalidFiles_In in Hinv. tauto. }
    split; [now apply KeptOnceInLatest_count with (G := G) | exact Hk'].
  - intros L HL A B.
    assert (Hval : validateAIOutput [A; B] L =
                   mkValidationResult false [str "f2"] [] []).
    { unfold validateAIOutput. rewrite HL. reflexivity. }
    split; [exact Hval|]. rewrite Hval. reflexivity.
Qed.

(** ** Repairing twice *)

Lemma resolveDuplicates_count_le (G : list AICommit) (L : list FileChange)
  (p : jsstring) :
  let d := duplicateFiles (validateAIOutput G L) in
  count p (proposedPaths
             (if 0 <? length d then resolveDuplicates d G else G)) <= 1.
Proof.
  intros d.
  destruct (in_dec jsstring_eq_dec p d) as [Hd | Hd].
  - destruct d as [|x d'] eqn:Ed; [destruct Hd|].
    cbn [length Nat.ltb Nat.leb]. rewrite resolveDuplicates_pass.
    rewrite (duplicatePass_count_dup (x :: d') G [] p Hd).
    change (Set_has [] p) with false. cbv iota.
    destruct (arrayIncludes (proposedPaths G) p); lia.
  - assert (Hle : count p (proposedPaths G) <= 1).
    { destruct (le_lt_dec (count p (proposedPaths G)) 1) as [H|H];
        [exact H|].
      exfalso. apply Hd. apply validate_duplicateFiles_In. lia. }
    destruct (0 <? length d); [|exact Hle].
    rewrite resolveDuplicates_pass.
    now rewrite (duplicatePass_count_other d G [] p Hd).
Qed.

Lemma repair_validated_count (G : list AICommit) (L : list FileChange)
  (p : jsstring) :
  count p (proposedPaths (repair G (validateAIOutput G L))) <= 1.
Proof.
  unfold repair. destruct (valid (validateAIOutput G L)) eqn:Hv.
  - simpl. now apply valid_no_duplicate with (L := L).
  - simpl negb. cbv iota.
    pose proof (resolveDuplicates_count_le G L p) as H. cbv zeta in H.
    destruct (0 <? length (invalidFiles (validateAIOutput G L)));
      [|exact H].
    rewrite removeInvalid_count.
    destruct (arrayIncludes _ p); [lia | exact H].
Qed.

Lemma repair_validated_listed (G : list AICommit) (L : list FileChange)
  (p : jsstring) :
  In p (proposedPaths (repair G (validateAIOutput G L))) ->
  In p (map path L).
Proof.
  intros H.
  destruct (in_dec jsstring_eq_dec p (map path L)) as [Hin|Hnin];
    [exact Hin|].
  exfalso.
  assert (HG : In p (proposedPaths G)).
  { eapply SameGroups_In; [apply repair_same_groups | exact H]. }
  assert (Hinv : In p (invalidFiles (validateAIOutput G L)))
    by (apply validate_invalidFiles_In; auto).
  revert H.
  apply repair_no_flagged_invalid; [apply validate_wf | exact Hinv].
Qed.

(** C4.  Repairing the repaired groups against a fresh validation of them
    changes nothing: it returns the same list of groups, with the same
    changes in every group. *)
Theorem repair_idempotent (L : list FileChange) (G : list AICommit) :
  let G' := repair G (validateAIOutput G L) in
  repair G' (validateAIOutput G' L) = G'.
Proof.
  intros G'.
  assert (Hd : duplicateFiles (validateAIOutput G' L) = []).
  { apply no_member_nil. intros p Hp.
    apply validate_duplicateFiles_In in Hp.
    pose proof (repair_validated_count G L p). fold G' in H. lia. }
  assert (Hi : invalidFiles (validateAIOutput G' L) = []).
  { apply no_member_nil. intros p Hp.
    apply validate_invalidFiles_In in Hp as [Hp Hn].
    apply Hn. now apply repair_validated_listed with (G := G). }
  unfold repair at 1. rewrite Hd, Hi.
  now destruct (valid (validateAIOutput G' L)).
Qed.

(** ** The matcher is sound for the declarative reading of patterns *)

Lemma firstn_length_app {A : Type} (w rest : list A) :
  firstn (length w) (w ++ rest) = w.
Proof. induction w as [|x w IH]; simpl; [reflexivity | now rewrite IH]. Qed.

Lemma rep_sound {A : Type} (cls : code_unit -> bool) (s : jsstring) :
  forall lo hi pos (k : nat -> jsstring -> option A) res,
    rep cls lo hi pos s k = Some res ->
    exists w rest,
      s = w ++ rest /\ forallb cls w = true /\ lo <= length w /\
      (forall h, hi = Some h -> length w <= h) /\
      k (pos + length w) rest = Some res.
Proof.
  assert (Hstop : forall lo hi pos (k : nat -> jsstring -> option A) res t,
             match lo with O => k pos t | S _ => None end = Some res ->
             exists w rest,
               t = w ++ rest /\ forallb cls w = true /\ lo <= length w /\
               (forall h, hi = Some h -> length w <= h) /\
               k (pos + length w) rest = Some res).
  { intros lo hi pos k res t H. destruct lo; [|discriminate].
    exists [], t. simpl. rewrite Nat.add_0_r.
    repeat split; try assumption; try lia. }
  induction s as [|c s IH]; intros lo hi pos k res H; simpl in H.
  - now apply Hstop.
  - destruct (cls c && below hi) eqn:E; [|now apply Hstop].
    destruct (rep cls (pred lo) (option_map pred hi) (S pos) s k) eqn:R;
      [|now apply Hstop].
    injection H as ->.
    apply IH in R as (w & rest & -> & Hw & Hlo & Hhi & Hk).
    apply andb_true_iff in E as [Ec Eb].
    exists (c :: w), rest. simpl. rewrite Ec, Hw.
    split; [reflexivity|]. split; [reflexivity|]. split; [lia|].
    split; [|now rewrite Nat.add_succ_r].
    intros h ->. simpl in Eb. destruct h as [|h]; [discriminate|].
    specialize (Hhi h eq_refl). lia.
Qed.

Lemma rmatch_sound {A : Type} (r : regex) :
  forall pos s caps (k : nat -> jsstring -> captures -> option A) res,
    rmatch r pos s caps k = Some res ->
    exists w rest caps',
      s = w ++ rest /\ Matches r pos w rest caps caps' /\
      k (pos + length w) rest caps' = Some res.
Proof.
  induction r as [| | c | cls lo hi | r1 IH1 r2 IH2 | r1 IH1 r2 IH2 | i r IH];
    intros pos s caps k res H; simpl in H.
  - destruct (Nat.eqb pos 0) eqn:E; [|discriminate].
    apply Nat.eqb_eq in E. subst.
    exists [], s, caps. repeat split; [constructor | exact H].
  - destruct s; [|discriminate].
    exists [], [], caps. simpl. rewrite Nat.add_0_r.
    repeat split; [constructor | exact H].
  - destruct s as [|x s]; [discriminate|].
    destruct (N.eqb x c) eqn:E; [|discriminate].
    apply N.eqb_eq in E. subst.
    exists [c], s, caps. simpl. rewrite Nat.add_1_r.
    repeat split; [constructor | exact H].
  - apply rep_sound in H as (w & rest & -> & Hw & Hlo & Hhi & Hk).
    exists w, rest, caps. repeat split; [now constructor | exact Hk].
  - apply IH1 in H as (w1 & rest1 & caps1 & -> & M1 & H).
    apply IH2 in H as (w2 & rest & caps2 & -> & M2 & H).
    exists (w1 ++ w2), rest, caps2.
    rewrite length_app, Nat.add_assoc, <- app_assoc.
    repeat split; [now apply M_Seq with (caps1 := caps1) | exact H].
  - destruct (rmatch r1 pos s caps k) eqn:E1.
    + injection H as ->.
      apply IH1 in E1 as (w & rest & caps' & -> & M & H).
      exists w, rest, caps'. repeat split; [now apply M_AltL | exact H].
    + apply IH2 in H as (w & rest & caps' & -> & M & H).
      exists w, rest, caps'. repeat split; [now apply M_AltR | exact H].
  - apply IH in H as (w & rest & caps' & -> & M & H).
    replace (pos + length w - pos) with (length w) in H by lia.
    rewrite firstn_length_app in H.
    exists w, rest, ((i, w) :: caps').
    repeat split; [now apply M_Grp | exact H].
Qed.

Lemma exec_from_sound (r : regex) (s : jsstring) :
  forall pos m,
    exec_from r pos s = Some m ->
    exists skipped w rest,
      s = skipped ++ w ++ rest /\
      Matches r (pos + length skipped) w rest [] (groups m) /\
      index m = pos + length skipped /\ matched m = w.
Proof.
  induction s as [|c s IH]; intros pos m H; simpl in H.
  - destruct (rmatch r pos [] [] _) eqn:E.
    + injection H as ->.
      apply rmatch_sound in E as (w & rest & caps' & Hs & M & Hk).
      injection Hk as <-. cbn [groups index matched].
      exists [], w, rest. simpl. rewrite Nat.add_0_r, Hs.
      replace (pos + length w - pos) with (length w) by lia.
      now rewrite firstn_length_app.
    + discriminate.
  - destruct (rmatch r pos (c :: s) [] _) eqn:E.
    + injection H as ->.
      apply rmatch_sound in E as (w & rest & caps' & Hs & M & Hk).
      injection Hk as <-. cbn [groups index matched].
      exists [], w, rest. simpl. rewrite Nat.add_0_r, Hs.
      replace (pos + length w - pos) with (length w) by lia.
      now rewrite firstn_length_app.
    + apply IH in H as (skipped & w & rest & -> & M & Hi & Hm).
      exists (c :: skipped), w, rest. simpl.
      rewrite Nat.add_succ_r. auto.
Qed.

(** What a successful match of the status-line pattern tells about the
    line: leading blanks, the status token, one or two blanks and a
    non-empty file field without line terminator, up to the end. *)
Lemma statusRegex_sound (line : jsstring) (m : match_result) :
  exec statusRegex line = Some m ->
  exists lead code gap file,
    line = lead ++ code ++ gap ++ file /\
    forallb isWhiteSpace lead = true /\
    (code = str "??" \/
     (forallb isStatusLetter code = true /\ 1 <= length code <= 2)) /\
    forallb isWhiteSpace gap = true /\ 1 <= length gap <= 2 /\
    forallb isDot file = true /\ 1 <= length file /\
    group m 1 = code /\ group m 2 = file /\
    index m = 0 /\ matched m = line.
Proof.
  intros H. apply exec_from_sound in H
    as (skipped & w & rest & Hline & M & Hi & Hm).
  unfold statusRegex in M. simpl in M.
  inversion M as [| | | | ? ? ? w0 w1 ? ? ? ? M0 M1 | | |]; subst; clear M.
  inversion M0; subst; clear M0.
  match goal with H : 0 = length skipped |- _ =>
    symmetry in H; apply length_zero_iff_nil in H; subst skipped end.
  inversion M1 as [| | | | ? ? ? lead w2 ? ? ? ? Mlead M2 | | |];
    subst; clear M1.
  inversion Mlead as [| | | ? ? ? ? ? ? ? Hlead _ _ | | | |]; subst; clear Mlead.
  inversion M2 as [| | | | ? ? ? code w3 ? ? ? ? Mcode M3 | | |];
    subst; clear M2.
  inversion M3 as [| | | | ? ? ? gap w4 ? ? ? ? Mgap M4 | | |];
    subst; clear M3.
  inversion Mgap as [| | | ? ? ? ? ? ? ? Hgap Hgap1 Hgap2 | | | |];
    subst; clear Mgap.
  inversion M4 as [| | | | ? ? ? file w5 ? ? ? ? Mfile M5 | | |];
    subst; clear M4.
  inversion M5; subst; clear M5.
  inversion Mfile as [| | | | | | | ? ? ? ? ? ? ? Mf]; subst; clear Mfile.
  inversion Mf as [| | | ? ? ? ? ? ? ? Hfile Hfile1 _ | | | |];
    subst; clear Mf.
  inversion Mcode as [| | | | | | | ? ? ? ? ? ? capsC Mc]; subst; clear Mcode.
  assert (Hcode : capsC = [] /\
                  (code = str "??" \/
                   (forallb isStatusLetter code = true /\
                    1 <= length code <= 2))).
  { inversion Mc as [| | | | | ? ? ? ? ? ? ? Ma | ? ? ? ? ? ? ? Mb |];
      subst; clear Mc.
    - inversion Ma as [| | | ? ? ? ? ? ? ? Hc Hc1 Hc2 | | | |]; subst.
      split; [reflexivity|]. right.
      repeat split; try assumption. apply Hc2. reflexivity.
    - inversion Mb as [| | | | ? ? ? q1 q2 ? ? ? ? Mq1 Mq2 | | |]; subst.
      inversion Mq1; subst. inversion Mq2; subst.
      split; [reflexivity|]. left. reflexivity. }
  destruct Hcode as [-> Hcode].
  exists lead, code, gap, file.
  simpl in *. rewrite ?app_nil_r in *.
  match goal with H : _ = groups m |- _ =>
    unfold group; rewrite <- H; simpl end.
  repeat split; try assumption; try congruence;
    try (apply Hgap2; reflexivity).
Qed.

(** ** Trimming *)

Lemma trimStart_nil (s : jsstring) :
  trimStart s = [] <-> forallb isWhiteSpace s = true.
Proof.
  induction s as [|c s IH]; simpl.
  - tauto.
  - destruct (isWhiteSpace c); simpl; [exact IH|].
    split; discriminate.
Qed.

Lemma trimStart_head (s : jsstring) (c : code_unit) (t : jsstring) :
  trimStart s = c :: t -> isWhiteSpace c = false.
Proof.
  induction s as [|x s IH]; simpl; [discriminate|].
  destruct (isWhiteSpace x) eqn:E; [exact IH|].
  intros [= <- _]. exact E.
Qed.

Lemma forallb_rev {A : Type} (f : A -> bool) (l : list A) :
  forallb f (rev l) = forallb f l.
Proof.
  induction l as [|x l IH]; simpl; [reflexivity|].
  rewrite forallb_app, IH. simpl. rewrite andb_true_r. apply andb_comm.
Qed.

Lemma trimStart_all_blank (s : jsstring) :
  forallb isWhiteSpace (trimStart s) = true <-> trimStart s = [].
Proof.
  destruct (trimStart s) as [|c t] eqn:E.
  - simpl. tauto.
  - apply trimStart_head in E. simpl. rewrite E. simpl.
    split; discriminate.
Qed.

Lemma rev_nil_iff {A : Type} (l : list A) : rev l = [] <-> l = [].
Proof.
  split; intros H.
  - rewrite <- (rev_involutive l), H. reflexivity.
  - subst. reflexivity.
Qed.

Lemma trim_nil (s : jsstring) :
  trim s = [] <-> forallb isWhiteSpace s = true.
Proof.
  unfold trim, trimEnd.
  transitivity (trimStart (rev (trimStart s)) = []); [apply rev_nil_iff|].
  transitivity (forallb isWhiteSpace (rev (trimStart s)) = true);
    [apply trimStart_nil|].
  rewrite forallb_rev.
  transitivity (trimStart s = []);
    [apply trimStart_all_blank | apply trimStart_nil].
Qed.

Lemma isBlank_spec (line : jsstring) :
  isBlank line = true <-> forallb isWhiteSpace line = true.
Proof.
  unfold isBlank.
  transitivity (trim line = []); [apply eqb_eq | apply trim_nil].
Qed.

(** ** Status tokens and their kinds *)

Lemma isStatusLetter_cases (c : code_unit) :
  isStatusLetter c = true ->
  c = 77%N \/ c = 65%N \/ c = 82%N \/ c = 68%N \/ c = 85%N.
Proof.
  unfold isStatusLetter. simpl.
  rewrite !orb_true_iff, !N.eqb_eq. intuition discriminate.
Qed.

Lemma getFileState_token (code : jsstring) :
  forallb isStatusLetter code = true ->
  1 <= length code <= 2 ->
  includes (str "U") code = false ->
  (1 <= getFileState code <= 15)%N.
Proof.
  intros Hl Hlen HU.
  destruct code as [|a [|b [|c code]]]; simpl in Hlen; try lia.
  - simpl in Hl. rewrite andb_true_r in Hl.
    apply isStatusLetter_cases in Hl.
    repeat match goal with H : _ \/ _ |- _ => destruct H end; subst;
      first [ discriminate HU | vm_compute; split; discriminate ].
  - simpl in Hl. rewrite andb_true_r in Hl.
    apply andb_true_iff in Hl as [Ha Hb].
    apply isStatusLetter_cases in Ha, Hb.
    repeat match goal with H : _ \/ _ |- _ => destruct H end; subst;
      first [ discriminate HU | vm_compute; split; discriminate ].
Qed.

(** ** One line of the status report *)

Section LineStepFacts.

Variable getFileDiff : jsstring -> option jsstring.

Lemma parseLines_cons (line : jsstring) (rest : list jsstring)
  (acc : list FileChange) :
  parseLines getFileDiff (line :: rest) acc =
  match lineStep getFileDiff line with
  | Skipped log =>
      let '(l, o) := parseLines getFileDiff rest acc in (log ++ l, o)
  | Recorded log r =>
      let '(l, o) := parseLines getFileDiff rest (acc ++ [r]) in
      (log ++ l, o)
  | Fatal log code => (log, Exited code)
  end.
Proof.
  cbn [parseLines]. unfold lineStep, isBlank.
  destruct (JS.eqb (trim line) []).
  { destruct (parseLines getFileDiff rest acc) as [l o]; reflexivity. }
  destruct (exec statusRegex line) as [m|].
  2:{ cbv beta iota zeta delta [bind logError emit app].
      destruct (parseLines getFileDiff rest acc) as [l o]; reflexivity. }
  destruct (JS.eqb (group m 1) (str "??")).
  { cbv beta iota zeta delta [bind logWarning emit app].
    destruct (parseLines getFileDiff rest acc) as [l o]; reflexivity. }
  destruct (includes (str "U") (group m 1)).
  { reflexivity. }
  destruct (negb (N.eqb (getFileState (group m 1)) FileState_D));
    cbv beta iota zeta delta [bind awaitFileDiff emit ret app];
    match goal with
    | |- context [parseLines getFileDiff rest ?a] =>
        destruct (parseLines getFileDiff rest a) as [l o]; reflexivity
    end.
Qed.

(** How the three kinds of step relate to the classification of lines. *)
Lemma lineStep_fatal (line : jsstring) :
  isUnmergedLine line = true ->
  exists filePath,
    filePathOf line = Some filePath /\
    lineStep getFileDiff line = Fatal (conflictReport filePath) 1.
Proof.
  unfold isUnmergedLine, statusCodeOf, filePathOf, lineStep.
  destruct (isBlank line); [discriminate|]. simpl.
  destruct (exec statusRegex line) as [m|]; [|discriminate].
  destruct (JS.eqb (group m 1) (str "??")); [discriminate|]. simpl.
  intros ->. eauto.
Qed.

Lemma lineStep_clean (line : jsstring) :
  isUnmergedLine line = false ->
  (exists log,
      lineStep getFileDiff line = Skipped log /\
      isRecordLine line = false /\
      filter isLogError log =
      (if isUnparseableLine line then [unparseableReport line] else []))
  \/
  (exists log r,
      lineStep getFileDiff line = Recorded log r /\
      isRecordLine line = true /\ isUnparseableLine line = false /\
      filter isLogError log = [] /\ RecordOf [line] r).
Proof.
  unfold isUnmergedLine, isRecordLine, isUnparseableLine, statusCodeOf,
    lineStep.
  destruct (isBlank line) eqn:Eb; simpl.
  { intros _. left. eexists. repeat split. }
  destruct (exec statusRegex line) as [m|] eqn:Em.
  2:{ intros _. left. eexists. repeat split. }
  destruct (JS.eqb (group m 1) (str "??")) eqn:Eq; simpl.
  { intros _. left. eexists. repeat split. }
  intros HU. rewrite HU. simpl. right.
  assert (Hrec : forall d,
             RecordOf [line]
               (mkFileChange (trim (group m 2)) (getFileState (group m 1)) d)).
  { intros d. split; cbn [state path].
    - destruct (statusRegex_sound line m Em)
        as (lead & code & gap & file & _ & _ & Hcode & _ & _ & _ & _ &
            Hg1 & _).
      rewrite Hg1 in *.
      destruct Hcode as [-> | [Hl Hlen]]; [discriminate Eq|].
      now apply getFileState_token.
    - exists line, (group m 2). unfold filePathOf. rewrite Em.
      repeat split. now left. }
  destruct (negb (N.eqb (getFileState (group m 1)) FileState_D));
    do 2 eexists; repeat split; try apply Hrec.
Qed.

Lemma RecordOf_incl (l1 l2 : list jsstring) (r : FileChange) :
  incl l1 l2 -> RecordOf l1 r -> RecordOf l2 r.
Proof.
  intros Hincl [Hs (line & filePath & Hin & Hf & Hp)].
  split; [exact Hs|]. exists line, filePath. auto.
Qed.

(** ** The loop over the lines *)

(** Lines without unmerged token in front of the rest of the input: the
    loop logs, pushes one record for every record line, and goes on with
    the rest. *)
Lemma parseLines_clean_prefix (pre : list jsstring) :
  forallb (fun l => negb (isUnmergedLine l)) pre = true ->
  exists log recs,
    (forall rest acc,
        parseLines getFileDiff (pre ++ rest) acc =
        let '(l, o) := parseLines getFileDiff rest (acc ++ recs) in
        (log ++ l, o))
    /\ length recs = length (filter isRecordLine pre)
    /\ filter isLogError log =
       map unparseableReport (filter isUnparseableLine pre)
    /\ Forall (RecordOf pre) recs.
Proof.
  induction pre as [|line pre IH]; intros Hclean.
  - exists [], []. repeat split; try constructor.
    intros rest acc. rewrite app_nil_r. simpl.
    destruct (parseLines getFileDiff rest acc); reflexivity.
  - simpl in Hclean. apply andb_true_iff in Hclean as [Hline Hpre].
    apply negb_true_iff in Hline.
    destruct (IH Hpre) as (log & recs & Hrun & Hlen & Herr & Hrec).
    assert (Hrec' : Forall (RecordOf (line :: pre)) recs).
    { eapply Forall_impl; [|exact Hrec].
      intros r. apply RecordOf_incl. apply incl_tl, incl_refl. }
    destruct (lineStep_clean line Hline)
      as [(log0 & Hstep & Hnr & Hlog0)
         | (log0 & r & Hstep & Hr & Hnu & Hlog0 & Hrof)].
    + exists (log0 ++ log), recs. repeat split.
      * intros rest acc. cbn [app]. rewrite parseLines_cons, Hstep, Hrun.
        destruct (parseLines getFileDiff rest (acc ++ recs)).
        now rewrite app_assoc.
      * simpl. now rewrite Hnr.
      * rewrite filter_app, Hlog0, Herr. simpl.
        destruct (isUnparseableLine line); reflexivity.
      * exact Hrec'.
    + exists (log0 ++ log), (r :: recs). repeat split.
      * intros rest acc. cbn [app]. rewrite parseLines_cons, Hstep, Hrun.
        rewrite <- app_assoc. cbn [app].
        destruct (parseLines getFileDiff rest (acc ++ r :: recs)).
        now rewrite app_assoc.
      * simpl. rewrite Hr. simpl. now rewrite Hlen.
      * rewrite filter_app, Hlog0, Herr. simpl. now rewrite Hnu.
      * constructor; [|exact Hrec'].
        eapply RecordOf_incl; [|exact Hrof].
        intros x [<- | []]. now left.
Qed.

Lemma parseLines_clean (lines : list jsstring) :
  forallb (fun l => negb (isUnmergedLine l)) lines = true ->
  exists log recs,
    parseLines getFileDiff lines [] = (log, Returned recs)
    /\ length recs = length (filter isRecordLine lines)
    /\ filter isLogError log =
       map unparseableReport (filter isUnparseableLine lines)
    /\ Forall (RecordOf lines) recs.
Proof.
  intros Hclean.
  destruct (parseLines_clean_prefix lines Hclean)
    as (log & recs & Hrun & Hlen & Herr & Hrec).
  exists log, recs. repeat split; try assumption.
  specialize (Hrun [] []). rewrite app_nil_r in Hrun. rewrite Hrun.
  simpl. now rewrite app_nil_r.
Qed.

Lemma parseLines_first_unmerged (pre : list jsstring) (u : jsstring) :
  forallb (fun l => negb (isUnmergedLine l)) pre = true ->
  isUnmergedLine u = true ->
  exists log recs filePath,
    parseLines getFileDiff pre [] = (log, Returned recs) /\
    filePathOf u = Some filePath /\
    forall post,
      parseLines getFileDiff (pre ++ u :: post) [] =
      (log ++ conflictReport filePath, Exited 1).
Proof.
  intros Hclean Hu.
  destruct (parseLines_clean_prefix pre Hclean)
    as (log & recs & Hrun & _).
  destruct (lineStep_fatal u Hu) as (filePath & Hf & Hstep).
  exists log, recs, filePath. repeat split; try assumption.
  - specialize (Hrun [] []). rewrite app_nil_r in Hrun. rewrite Hrun.
    simpl. now rewrite app_nil_r.
  - intros post. rewrite Hrun, parseLines_cons, Hstep. reflexivity.
Qed.

Lemma first_unmerged_split (lines : list jsstring) :
  forallb (fun l => negb (isUnmergedLine l)) lines = false ->
  exists pre u post,
    lines = pre ++ u :: post /\
    forallb (fun l => negb (isUnmergedLine l)) pre = true /\
    isUnmergedLine u = true.
Proof.
  induction lines as [|line lines IH]; simpl; [discriminate|].
  destruct (isUnmergedLine line) eqn:E; simpl.
  - intros _. exists [], line, lines. auto.
  - intros H. destruct (IH H) as (pre & u & post & -> & Hpre & Hu).
    exists (line :: pre), u, post. simpl. rewrite E. auto.
Qed.

Lemma unmerged_member_split (lines : list jsstring) :
  (exists line, In line lines /\ isUnmergedLine line = true) ->
  forallb (fun l => negb (isUnmergedLine l)) lines = false.
Proof.
  intros (line & Hin & Hu).
  destruct (forallb _ lines) eqn:E; [|reflexivity].
  rewrite forallb_forall in E. specialize (E line Hin).
  rewrite Hu in E. discriminate.
Qed.

Lemma parseLines_returned_clean (lines : list jsstring)
  (log : list event) (recs : list FileChange) :
  parseLines getFileDiff lines [] = (log, Returned recs) ->
  forallb (fun l => negb (isUnmergedLine l)) lines = true.
Proof.
  intros H.
  destruct (forallb _ lines) eqn:E; [reflexivity|].
  destruct (first_unmerged_split lines E) as (pre & u & post & -> & Hpre & Hu).
  destruct (parseLines_first_unmerged pre u Hpre Hu)
    as (log' & recs' & filePath & _ & _ & Hexit).
  rewrite Hexit in H. discriminate.
Qed.

End LineStepFacts.

(** ** Blank input *)

Lemma split_go_forall (P : code_unit -> bool) (sep s : jsstring) :
  forall skip cur,
    forallb P s = true -> forallb P cur = true ->
    Forall (fun seg => forallb P seg = true) (split_go sep s skip cur).
Proof.
  induction s as [|c s IH]; intros skip cur Hs Hcur; simpl.
  - constructor; [now rewrite forallb_rev | constructor].
  - simpl in Hs. apply andb_true_iff in Hs as [Hc Hs].
    destruct skip as [|n]; [|now apply IH].
    destruct (startsWith sep (c :: s)).
    + constructor; [now rewrite forallb_rev | now apply IH].
    + apply IH; [exact Hs|]. simpl. now rewrite Hc.
Qed.

Lemma parseLines_blank (getFileDiff : jsstring -> option jsstring)
  (lines : list jsstring) (acc : list FileChange) :
  Forall (fun l => forallb isWhiteSpace l = true) lines ->
  parseLines getFileDiff lines acc = ([], Returned acc).
Proof.
  induction 1 as [|line lines Hline _ IH]; [reflexivity|].
  rewrite parseLines_cons. unfold lineStep.
  apply isBlank_spec in Hline. rewrite Hline, IH. reflexivity.
Qed.

(** ** The matcher finds a match whenever the pattern has one *)

Lemma rep_complete {A : Type} (cls : code_unit -> bool) (w : jsstring) :
  forall lo hi pos rest (k : nat -> jsstring -> option A),
    forallb cls w = true -> lo <= length w ->
    (forall h, hi = Some h -> length w <= h) ->
    k (pos + length w) rest <> None ->
    rep cls lo hi pos (w ++ rest) k <> None.
Proof.
  induction w as [|c w IH]; intros lo hi pos rest k Hw Hlo Hhi Hk.
  - simpl in *. rewrite Nat.add_0_r in Hk.
    assert (lo = 0) by lia. subst lo.
    destruct rest as [|c rest]; simpl; [exact Hk|].
    destruct (cls c && below hi); [|exact Hk].
    destruct (rep cls 0 (option_map pred hi) (S pos) rest k);
      [discriminate | exact Hk].
  - simpl in Hw. apply andb_true_iff in Hw as [Hc Hw].
    assert (Hb : below hi = true).
    { destruct hi as [[|h]|]; try reflexivity.
      specialize (Hhi 0 eq_refl). simpl in Hhi. lia. }
    cbn [app rep]. rewrite Hc, Hb. cbn [andb].
    assert (Hrec : rep cls (pred lo) (option_map pred hi) (S pos)
                     (w ++ rest) k <> None).
    { apply IH; try assumption.
      - simpl in Hlo. lia.
      - intros h Hh. destruct hi as [h0|]; [|discriminate].
        injection Hh as <-. specialize (Hhi h0 eq_refl). simpl in Hhi. lia.
      - simpl in Hk. now rewrite Nat.add_succ_r in Hk. }
    destruct (rep cls (pred lo) (option_map pred hi) (S pos) (w ++ rest) k);
      [discriminate | contradiction].
Qed.

Lemma rmatch_complete (r : regex) (pos : nat) (w rest : jsstring)
  (caps caps' : captures) :
  Matches r pos w rest caps caps' ->
  forall (A : Type) (k : nat -> jsstring -> captures -> option A),
    k (pos + length w) rest caps' <> None ->
    rmatch r pos (w ++ rest) caps k <> None.
Proof.
  induction 1 as [ rest caps | pos caps | c pos rest caps
                 | cls lo hi pos w rest caps Hw Hlo Hhi
                 | r1 r2 pos w1 w2 rest caps caps1 caps2 M1 IH1 M2 IH2
                 | r1 r2 pos w rest caps caps' M IH
                 | r1 r2 pos w rest caps caps' M IH
                 | i r pos w rest caps caps' M IH ];
    intros A k Hk; simpl in *.
  - exact Hk.
  - now rewrite Nat.add_0_r in Hk.
  - rewrite N.eqb_refl. now rewrite Nat.add_1_r in Hk.
  - now apply rep_complete.
  - rewrite <- app_assoc. apply IH1. apply IH2.
    now rewrite length_app, Nat.add_assoc in Hk.
  - specialize (IH A k Hk).
    destruct (rmatch r1 pos (w ++ rest) caps k); [discriminate | contradiction].
  - destruct (rmatch r1 pos (w ++ rest) caps k); [discriminate|].
    now apply IH.
  - apply IH.
    replace (pos + length w - pos) with (length w) by lia.
    now rewrite firstn_length_app.
Qed.

Lemma exec_complete (r : regex) (w rest : jsstring) (caps : captures) :
  Matches r 0 w rest [] caps -> exec r (w ++ rest) <> None.
Proof.
  intros M. unfold exec.
  pose proof (rmatch_complete r 0 w rest [] caps M _
                (fun pos' (_ : jsstring) caps =>
                   Some (MatchResult 0 (firstn (pos' - 0) (w ++ rest)) caps)))
    as H.
  assert (Hr : rmatch r 0 (w ++ rest) []
                 (fun pos' (_ : jsstring) caps =>
                    Some (MatchResult 0 (firstn (pos' - 0) (w ++ rest)) caps))
               <> None) by (apply H; discriminate).
  destruct (w ++ rest) as [|c s]; simpl;
    match goal with
    | |- match ?x with _ => _ end <> None =>
        destruct x; [discriminate | contradiction]
    end.
Qed.

Lemma M_Seq_eq (r1 r2 : regex) (pos : nat) (w w1 w2 rest : jsstring)
  (caps caps1 caps2 : captures) :
  w = w1 ++ w2 ->
  Matches r1 pos w1 (w2 ++ rest) caps caps1 ->
  Matches r2 (pos + length w1) w2 rest caps1 caps2 ->
  Matches (Seq r1 r2) pos w rest caps caps2.
Proof. intros ->. apply M_Seq. Qed.

Lemma StatusToken_Matches (code rest : jsstring) (pos : nat) :
  StatusToken code ->
  Matches (Alt (Rep isStatusLetter 1 (Some 2))
               (Seq (Chr questionMark) (Chr questionMark)))
          pos code rest [] [].
Proof.
  intros [-> | [Hl Hlen]].
  - apply M_AltR.
    apply M_Seq_eq with (w1 := [questionMark]) (w2 := [questionMark])
                        (caps1 := []); [reflexivity | constructor..].
  - apply M_AltL. constructor; [exact Hl | lia |].
    intros h [= <-]. lia.
Qed.

Lemma statusRegex_complete (line code : jsstring) :
  StatusLine line code -> exec statusRegex line <> None.
Proof.
  intros (lead & gap & file & -> & Hlead & Hcode & Hgap & Hglen & Hfile & Hflen).
  rewrite <- (app_nil_r (lead ++ code ++ gap ++ file)).
  apply exec_complete with (caps := [(2, file); (1, code)]).
  unfold statusRegex.
  apply M_Seq_eq with (w1 := []) (w2 := lead ++ code ++ gap ++ file)
                      (caps1 := []); [reflexivity | constructor |].
  apply M_Seq_eq with (w1 := lead) (w2 := code ++ gap ++ file)
                      (caps1 := []); [reflexivity | |].
  { constructor; [exact Hlead | lia | discriminate]. }
  apply M_Seq_eq with (w1 := code) (w2 := gap ++ file)
                      (caps1 := [(1, code)]); [reflexivity | |].
  { apply M_Grp. now apply StatusToken_Matches. }
  apply M_Seq_eq with (w1 := gap) (w2 := file)
                      (caps1 := [(1, code)]); [reflexivity | |].
  { constructor; [exact Hgap | lia |]. intros h [= <-]. lia. }
  apply M_Seq_eq with (w1 := file) (w2 := [])
                      (caps1 := [(2, file); (1, code)]);
    [now rewrite app_nil_r | | constructor].
  apply M_Grp. constructor; [exact Hfile | lia | discriminate].
Qed.

(** ** The token of a status line is determined by the line *)

Lemma blank_prefix_unique (l1 l2 r1 r2 : jsstring) (a b : code_unit) :
  l1 ++ a :: r1 = l2 ++ b :: r2 ->
  forallb isWhiteSpace l1 = true -> forallb isWhiteSpace l2 = true ->
  isWhiteSpace a = false -> isWhiteSpace b = false ->
  l1 = l2 /\ a :: r1 = b :: r2.
Proof.
  revert l2; induction l1 as [|x l1 IH]; intros [|y l2] E H1 H2 Ha Hb;
    simpl in *.
  - auto.
  - injection E as -> _. apply andb_true_iff in H2 as [H2 _]. congruence.
  - injection E as -> _. apply andb_true_iff in H1 as [H1 _]. congruence.
  - injection E as -> E.
    apply andb_true_iff in H1 as [_ H1]. apply andb_true_iff in H2 as [_ H2].
    destruct (IH l2 E H1 H2 Ha Hb) as [-> Hr]. auto.
Qed.

Lemma isStatusLetter_not_blank (c : code_unit) :
  isStatusLetter c = true -> isWhiteSpace c = false.
Proof.
  intros H. apply isStatusLetter_cases in H.
  repeat match goal with H : _ \/ _ |- _ => destruct H end; subst;
    reflexivity.
Qed.

(** A token is one or two characters, none of them white space. *)
Lemma StatusToken_shape (code : jsstring) :
  StatusToken code ->
  (exists a, code = [a] /\ isWhiteSpace a = false) \/
  (exists a b, code = [a; b] /\ isWhiteSpace a = false /\
               isWhiteSpace b = false).
Proof.
  intros [-> | [Hl Hlen]].
  - right. exists questionMark, questionMark. repeat split.
  - destruct code as [|a [|b [|c code]]]; simpl in Hlen; try lia.
    + left. exists a. split; [reflexivity|].
      simpl in Hl. rewrite andb_true_r in Hl.
      now apply isStatusLetter_not_blank.
    + right. exists a, b. simpl in Hl. rewrite andb_true_r in Hl.
      apply andb_true_iff in Hl as [Ha Hb].
      repeat split; now apply isStatusLetter_not_blank.
Qed.

Lemma gap_head (gap : jsstring) :
  forallb isWhiteSpace gap = true -> 1 <= length gap ->
  exists g gap', gap = g :: gap' /\ isWhiteSpace g = true.
Proof.
  destruct gap as [|g gap']; simpl; [lia|].
  intros H _. apply andb_true_iff in H as [H _]. eauto.
Qed.

Lemma StatusLine_token_unique (line code code' : jsstring) :
  StatusLine line code -> StatusLine line code' -> code = code'.
Proof.
  intros (lead & gap & file & E & Hlead & Hcode & Hgap & Hglen & _)
         (lead' & gap' & file' & E' & Hlead' & Hcode' & Hgap' & Hglen' & _).
  destruct (gap_head gap Hgap (proj1 Hglen)) as (g & gt & -> & Hg).
  destruct (gap_head gap' Hgap' (proj1 Hglen')) as (g' & gt' & -> & Hg').
  rewrite E in E'. clear E.
  destruct (StatusToken_shape code Hcode)
    as [(a & -> & Ha) | (a & b & -> & Ha & Hb)];
    destruct (StatusToken_shape code' Hcode')
      as [(a' & -> & Ha') | (a' & b' & -> & Ha' & Hb')];
    cbn [app] in E';
    destruct (blank_prefix_unique _ _ _ _ _ _ E' Hlead Hlead' Ha Ha')
      as [_ Er];
    injection Er as -> Er; try injection Er as -> Er;
    try reflexivity; congruence.
Qed.

(** The token that the matcher captures is the token of the line. *)
Lemma statusCodeOf_spec (line code : jsstring) :
  statusCodeOf line = Some code <-> StatusLine line code.
Proof.
  unfold statusCodeOf. split.
  - destruct (exec statusRegex line) as [m|] eqn:Em; [|discriminate].
    intros [= <-].
    destruct (statusRegex_sound line m Em)
      as (lead & code & gap & file & -> & Hl & Hc & Hg & Hgl & Hf & Hfl &
          <- & _).
    exists lead, gap, file. repeat split; try assumption; lia.
  - intros H. pose proof (statusRegex_complete line code H) as Hex.
    destruct (exec statusRegex line) as [m|] eqn:Em; [|contradiction].
    f_equal. apply StatusLine_token_unique with (line := line); [|exact H].
    destruct (statusRegex_sound line m Em)
      as (lead & c & gap & file & -> & Hl & Hc & Hg & Hgl & Hf & Hfl &
          <- & _).
    exists lead, gap, file. repeat split; try assumption; lia.
Qed.

Lemma matches_pattern_spec (line : jsstring) :
  exec statusRegex line <> None <-> exists code, StatusLine line code.
Proof.
  split.
  - intros H. destruct (statusCodeOf line) as [code|] eqn:E.
    + exists code. now apply statusCodeOf_spec.
    + unfold statusCodeOf in E.
      destruct (exec statusRegex line); [discriminate | contradiction].
  - intros [code H]. now apply statusRegex_complete with (code := code).
Qed.

(** ** The classification of lines, read declaratively *)

Lemma StatusLine_not_blank (line code : jsstring) :
  StatusLine line code -> forallb isWhiteSpace line = false.
Proof.
  intros (lead & gap & file & -> & _ & Hcode & _).
  rewrite forallb_app.
  destruct (StatusToken_shape code Hcode)
    as [(a & -> & Ha) | (a & b & -> & Ha & _)];
    simpl; rewrite Ha; apply andb_false_r.
Qed.

Lemma isBlank_false (line : jsstring) :
  isBlank line = false <-> forallb isWhiteSpace line = false.
Proof.
  pose proof (isBlank_spec line) as H.
  destruct (isBlank line), (forallb isWhiteSpace line);
    intuition congruence.
Qed.

Lemma isRecordLine_spec (line : jsstring) :
  isRecordLine line = true <-> RecordLine line.
Proof.
  unfold isRecordLine, RecordLine. split.
  - intros H. apply andb_true_iff in H as [Hb H].
    apply negb_true_iff, isBlank_false in Hb. split; [exact Hb|].
    destruct (statusCodeOf line) as [code|] eqn:E; [|discriminate].
    apply andb_true_iff in H as [Hq HU].
    apply negb_true_iff in Hq, HU.
    exists code. repeat split.
    + now apply statusCodeOf_spec.
    + now apply eqb_neq.
    + exact HU.
  - intros [Hb (code & Hs & Hq & HU)].
    apply isBlank_false in Hb. rewrite Hb.
    apply statusCodeOf_spec in Hs. rewrite Hs.
    apply eqb_neq in Hq. now rewrite Hq, HU.
Qed.

Lemma isUnmergedLine_spec (line : jsstring) :
  isUnmergedLine line = true <-> UnmergedLine line.
Proof.
  unfold isUnmergedLine, UnmergedLine. split.
  - intros H. apply andb_true_iff in H as [_ H].
    destruct (statusCodeOf line) as [code|] eqn:E; [|discriminate].
    apply andb_true_iff in H as [_ HU].
    exists code. split; [now apply statusCodeOf_spec | exact HU].
  - intros (code & Hs & HU).
    pose proof (StatusLine_not_blank line code Hs) as Hb.
    apply isBlank_false in Hb. rewrite Hb.
    apply statusCodeOf_spec in Hs. rewrite Hs, HU.
    destruct (JS.eqb code (str "??")) eqn:Hq; [|reflexivity].
    apply eqb_eq in Hq. subst. discriminate HU.
Qed.

Lemma isUnparseableLine_spec (line : jsstring) :
  isUnparseableLine line = true <-> UnparseableLine line.
Proof.
  unfold isUnparseableLine, UnparseableLine.
  pose proof (matches_pattern_spec line) as Hm.
  split.
  - intros H. apply andb_true_iff in H as [Hb H].
    apply negb_true_iff, isBlank_false in Hb. split; [exact Hb|].
    destruct (exec statusRegex line); [discriminate|].
    intros Hex. apply Hm in Hex. now apply Hex.
  - intros [Hb Hn]. apply isBlank_false in Hb. rewrite Hb.
    destruct (exec statusRegex line); [|reflexivity].
    exfalso. apply Hn, Hm. discriminate.
Qed.

Lemma no_unmerged_forallb (lines : list jsstring) :
  (forall line, In line lines -> ~ UnmergedLine line) <->
  forallb (fun l => negb (isUnmergedLine l)) lines = true.
Proof.
  rewrite forallb_forall. split; intros H line Hin.
  - apply negb_true_iff.
    destruct (isUnmergedLine line) eqn:E; [|reflexivity].
    exfalso. apply (H line Hin). now apply isUnmergedLine_spec.
  - intros Hu. apply isUnmergedLine_spec in Hu.
    specialize (H line Hin). rewrite Hu in H. discriminate.
Qed.


(** ** Further facts about the model *)

(** [handleRenamedFilePath] reads element 1 of the split only when the
    separator occurs, and then the split has at least two elements. *)
Lemma split_go_nonempty (sep s : jsstring) :
  forall skip cur, 1 <= length (split_go sep s skip cur).
Proof.
  induction s as [|c s IH]; intros skip cur; simpl; [lia|].
  destruct skip; [|apply IH].
  destruct (startsWith sep (c :: s)); [simpl; lia | apply IH].
Qed.

Lemma split_includes (sep s : jsstring) :
  sep <> [] -> includes sep s = true -> 2 <= length (split sep s).
Proof.
  intros Hsep. destruct sep as [|x sep]; [contradiction|].
  unfold split. generalize (@nil code_unit) as cur.
  induction s as [|c s IH]; intros cur Hinc.
  - discriminate.
  - cbn [includes] in Hinc. cbn [split_go].
    destruct (startsWith (x :: sep) (c :: s)) eqn:E.
    + pose proof (split_go_nonempty (x :: sep) s (length (x :: sep) - 1) []).
      simpl length in *. lia.
    + simpl in Hinc. now apply IH.
Qed.

(** What [commitChanges] hands to [git commit]: one command for each
    repaired group, in order, those with no change left being passed over;
    a rejected command is reported and the loop goes on. *)
Section CommitLoopFacts.

Variable execAsync : nat -> jsstring -> option jsstring.




End CommitLoopFacts.

(** A path that is both listed twice and unknown is kept once by the
    duplicate pass and then removed by the invalid pass. *)
Example duplicate_and_invalid_path_dropped :
  let G := [ mkAICommit (str "A") [str "x"; str "f1"];
             mkAICommit (str "B") [str "x"; str "f2"; str "f3"] ] in
  let v := validateAIOutput G sampleChanges in
  v = mkValidationResult false [str "x"] [] [str "x"]
  /\ resolveDuplicates (duplicateFiles v) G =
     [ mkAICommit (str "A") [str "f1"];
       mkAICommit (str "B") [str "x"; str "f2"; str "f3"] ]
  /\ repair G v =
     [ mkAICommit (str "A") [str "f1"];
       mkAICommit (str "B") [str "f2"; str "f3"] ].
Proof. repeat split. Qed.

(** The lines of the parser's test file. *)
Example parse_four_kinds (getFileDiff : jsstring -> option jsstring) :
  parseGitStatusOutput getFileDiff
    (str "M  file1.txt" ++ newline ++ str "A  file2.txt" ++ newline
     ++ str "R  file3.txt -> file5.txt" ++ newline ++ str "D  file4.txt")
  = ([ GetFileDiff (str "file1.txt"); GetFileDiff (str "file2.txt");
       GetFileDiff (str "file5.txt") ],
     Returned
       [ mkFileChange (str "file1.txt") FileState_M
           (getFileDiff (str "file1.txt"));
         mkFileChange (str "file2.txt") FileState_A
           (getFileDiff (str "file2.txt"));
         mkFileChange (str "file3.txt -> file5.txt") FileState_R
           (getFileDiff (str "file5.txt"));
         mkFileChange (str "file4.txt") FileState_D None ]).
Proof. reflexivity. Qed.

Example parse_unknown_token (getFileDiff : jsstring -> option jsstring) :
  parseGitStatusOutput getFileDiff (str "X  invalid-file.txt")
  = ([unparseableReport (str "X  invalid-file.txt")], Returned []).
Proof. reflexivity. Qed.

(** Greedy matching and backtracking of the status-line pattern. *)
Example statusRegex_three_blanks :
  option_map (fun m => (group m 1, group m 2))
    (exec statusRegex (str "M   x")) = Some (str "M", str " x").
Proof. reflexivity. Qed.

Example statusRegex_two_letters :
  option_map (fun m => (group m 1, group m 2))
    (exec statusRegex (str " MD x y")) = Some (str "MD", str "x y").
Proof. reflexivity. Qed.

Example statusRegex_three_letters :
  exec statusRegex (str "MMM x") = None.
Proof. reflexivity. Qed.

Example statusRegex_blank_field :
  option_map (fun m => (group m 1, group m 2))
    (exec statusRegex (str "M  ")) = Some (str "M", str " ").
Proof. reflexivity. Qed.

(** ** The records and the log of the status parser *)


Section ParserReadings.

Variable getFileDiff : jsstring -> option jsstring.

Lemma lineStep_exact (line : jsstring) :
  isUnmergedLine line = false ->
  (exists log,
      lineStep getFileDiff line = Skipped log /\
      isRecordLine line = false /\
      filter isGetFileDiff log = [] /\
      filter isUntrackedWarning log =
      (if isUntrackedLine line then [untrackedReport line] else []))
  \/
  (exists log,
      lineStep getFileDiff line = Recorded log (recordOfLine getFileDiff line)
      /\ isRecordLine line = true /\ isUntrackedLine line = false /\
      filter isUntrackedWarning log = [] /\
      filter isGetFileDiff log =
      (if isDeleted (recordOfLine getFileDiff line) then []
       else [GetFileDiff
               (handleRenamedFilePath
                  (path (recordOfLine getFileDiff line)))])).
Proof.
  unfold isUnmergedLine, isRecordLine, isUntrackedLine, untrackedReport,
    recordOfLine, isDeleted, statusCodeOf, filePathOf, lineStep.
  destruct (isBlank line) eqn:Eb; simpl.
  { intros _. left. eexists. repeat split. }
  destruct (exec statusRegex line) as [m|] eqn:Em.
  2:{ intros _. left. eexists. repeat split. }
  destruct (JS.eqb (group m 1) (str "??")) eqn:Eq; simpl.
  { intros _. left. eexists. repeat split. }
  intros HU. rewrite HU. simpl. right.
  destruct (N.eqb (getFileState (group m 1)) FileState_D) eqn:Ed; simpl;
    eexists; repeat split.
Qed.

Lemma parseLines_clean_exact (pre : list jsstring) :
  forallb (fun l => negb (isUnmergedLine l)) pre = true ->
  exists log,
    (forall rest acc,
        parseLines getFileDiff (pre ++ rest) acc =
        let '(l, o) :=
          parseLines getFileDiff rest
            (acc ++ map (recordOfLine getFileDiff)
                        (filter isRecordLine pre)) in
        (log ++ l, o))
    /\ filter isGetFileDiff log =
       map (fun r => GetFileDiff (handleRenamedFilePath (path r)))
           (filter (fun r => negb (isDeleted r))
                   (map (recordOfLine getFileDiff)
                        (filter isRecordLine pre)))
    /\ filter isUntrackedWarning log =
       map untrackedReport (filter isUntrackedLine pre).
Proof.
  induction pre as [|line pre IH]; intros Hclean.
  - exists []. repeat split.
    intros rest acc. simpl. rewrite app_nil_r.
    destruct (parseLines getFileDiff rest acc); reflexivity.
  - simpl in Hclean. apply andb_true_iff in Hclean as [Hline Hpre].
    apply negb_true_iff in Hline.
    destruct (IH Hpre) as (log & Hrun & Hdiff & Hwarn).
    destruct (lineStep_exact line Hline)
      as [(log0 & Hstep & Hnr & Hd0 & Hw0)
         | (log0 & Hstep & Hr & Hnu & Hw0 & Hd0)].
    + exists (log0 ++ log). repeat split.
      * intros rest acc. cbn [app filter]. rewrite Hnr.
        rewrite parseLines_cons, Hstep, Hrun.
        destruct (parseLines getFileDiff rest _).
        now rewrite app_assoc.
      * cbn [filter]. rewrite Hnr, filter_app, Hd0, Hdiff. reflexivity.
      * cbn [filter]. rewrite filter_app, Hw0, Hwarn.
        destruct (isUntrackedLine line); reflexivity.
    + exists (log0 ++ log). repeat split.
      * intros rest acc. cbn [app filter]. rewrite Hr. cbn [map].
        rewrite parseLines_cons, Hstep, Hrun.
        rewrite <- app_assoc. cbn [app].
        destruct (parseLines getFileDiff rest _).
        now rewrite app_assoc.
      * cbn [filter]. rewrite Hr. cbn [map filter].
        rewrite filter_app, Hd0, Hdiff.
        destruct (isDeleted (recordOfLine getFileDiff line)); reflexivity.
      * cbn [filter]. rewrite Hnu, filter_app, Hw0, Hwarn. reflexivity.
Qed.

Lemma parseLines_exact (lines : list jsstring) :
  forallb (fun l => negb (isUnmergedLine l)) lines = true ->
  exists log,
    parseLines getFileDiff lines [] =
      (log, Returned (map (recordOfLine getFileDiff)
                          (filter isRecordLine lines)))
    /\ filter isGetFileDiff log =
       map (fun r => GetFileDiff (handleRenamedFilePath (path r)))
           (filter (fun r => negb (isDeleted r))
                   (map (recordOfLine getFileDiff)
                        (filter isRecordLine lines)))
    /\ filter isUntrackedWarning log =
       map untrackedReport (filter isUntrackedLine lines).
Proof.
  intros Hclean.
  destruct (parseLines_clean_exact lines Hclean) as (log & Hrun & Hd & Hw).
  exists log. repeat split; try assumption.
  specialize (Hrun [] []).
  rewrite (app_nil_r lines) in Hrun. rewrite Hrun.
  cbn [parseLines ret app]. now rewrite app_nil_r.
Qed.


End ParserReadings.

(** ** The status parser *)

(** C1.  What the parser does with a rename line.  For [R  a.txt -> b.txt]
    the diff is requested for [b.txt] only and the kind is Renamed, but the
    path of the record is the whole trimmed file field [a.txt -> b.txt],
    not [b.txt]; likewise for the rename line of the repository's test,
    which expects the path [file5.txt]. *)
Theorem rename_line_record (getFileDiff : jsstring -> option jsstring) :
  parseGitStatusOutput getFileDiff (str "R  a.txt -> b.txt") =
    ([GetFileDiff (str "b.txt")],
     Returned [mkFileChange (str "a.txt -> b.txt") FileState_R
                 (getFileDiff (str "b.txt"))])
  /\ parseGitStatusOutput getFileDiff (str "R  file3.txt -> file5.txt") =
    ([GetFileDiff (str "file5.txt")],
     Returned [mkFileChange (str "file3.txt -> file5.txt") FileState_R
                 (getFileDiff (str "file5.txt"))])
  /\ str "a.txt -> b.txt" <> str "b.txt"
  /\ str "file3.txt -> file5.txt" <> str "file5.txt".
Proof.
  repeat split; try reflexivity; discriminate.
Qed.




(** C8.  When no line carries an unmerged token the parser returns, with
    one record for every non-blank line that matches the pattern, is not
    untracked and has no unmerged letter in its token, and with one
    unparseable-line report for every non-blank line that does not match;
    whenever the parser returns, the number of records is that number of
    lines; a status text of white space only gives the empty list, with
    nothing logged. *)
Theorem record_count (getFileDiff : jsstring -> option jsstring)
  (statusOutput : jsstring) :
  let lines := split newline statusOutput in
  ((forall line, In line lines -> ~ UnmergedLine line) ->
   exists log recs,
     parseGitStatusOutput getFileDiff statusOutput = (log, Returned recs) /\
     length recs = length (filter isRecordLine lines) /\
     filter isLogError log =
     map unparseableReport (filter isUnparseableLine lines))
  /\ (forall log recs,
        parseGitStatusOutput getFileDiff statusOutput = (log, Returned recs) ->
        length recs = length (filter isRecordLine lines))
  /\ (forall line, isRecordLine line = true <-> RecordLine line)
  /\ (forall line, isUnparseableLine line = true <-> UnparseableLine line)
  /\ (forallb isWhiteSpace statusOutput = true ->
      parseGitStatusOutput getFileDiff statusOutput = ([], Returned [])).
Proof.
  intros lines. unfold parseGitStatusOutput. fold lines.
  split; [|split; [|split; [|split]]].
  - intros Hclean. apply no_unmerged_forallb in Hclean.
    destruct (parseLines_clean getFileDiff lines Hclean)
      as (log & recs & Hrun & Hlen & Herr & _).
    exists log, recs. auto.
  - intros log recs Hrun.
    pose proof (parseLines_returned_clean getFileDiff _ _ _ Hrun) as Hclean.
    destruct (parseLines_clean getFileDiff lines Hclean)
      as (log' & recs' & Hrun' & Hlen & _).
    rewrite Hrun in Hrun'. injection Hrun' as _ <-. exact Hlen.
  - apply isRecordLine_spec.
  - apply isUnparseableLine_spec.
  - intros Hblank. apply parseLines_blank.
    unfold lines, split, newline. now apply split_go_forall.
Qed.

Lemma record_count_witness :
  (exists log recs,
     parseGitStatusOutput (fun _ => None)
       (str "M  f1.txt" ++ newline ++ str "X  f2.txt" ++ newline
        ++ str "?? f3.txt") = (log, Returned recs) /\
     length recs = 1 /\
     filter isLogError log = [unparseableReport (str "X  f2.txt")])
  /\ parseGitStatusOutput (fun _ => None) (str "  ") = ([], Returned []).
Proof.
  split.
  - apply (proj1 (record_count (fun _ => None)
                    (str "M  f1.txt" ++ newline ++ str "X  f2.txt" ++ newline
                     ++ str "?? f3.txt"))).
    intros line Hin Hu. apply isUnmergedLine_spec in Hu.
    simpl in Hin.
    destruct Hin as [<- | [<- | [<- | []]]]; vm_compute in Hu; discriminate.
  - apply (proj2 (proj2 (proj2 (proj2
             (record_count (fun _ => None) (str "  ")))))).
    reflexivity.
Defined.

(** C9.  When some line of the input matches the pattern with a token that
    contains the unmerged letter, the run ends with exit code 1 and returns
    no list: what is logged is the log of the lines before the first such
    line, then the report of the conflict, and this does not depend on the
    lines that follow. *)
Theorem unmerged_line_exits (getFileDiff : jsstring -> option jsstring)
  (statusOutput : jsstring) :
  (exists line,
      In line (split newline statusOutput) /\ UnmergedLine line) ->
  exists pre u post filePath log recs,
    split newline statusOutput = pre ++ u :: post /\
    (forall line, In line pre -> ~ UnmergedLine line) /\
    UnmergedLine u /\ filePathOf u = Some filePath /\
    parseLines getFileDiff pre [] = (log, Returned recs) /\
    parseGitStatusOutput getFileDiff statusOutput =
      (log ++ conflictReport filePath, Exited 1) /\
    forall post',
      parseLines getFileDiff (pre ++ u :: post') [] =
      (log ++ conflictReport filePath, Exited 1).
Proof.
  intros (line & Hin & Hline).
  assert (Hex : exists line, In line (split newline statusOutput) /\
                             isUnmergedLine line = true).
  { exists line. split; [exact Hin | now apply isUnmergedLine_spec]. }
  apply unmerged_member_split in Hex.
  destruct (first_unmerged_split _ Hex) as (pre & u & post & Hsplit & Hpre & Hu).
  destruct (parseLines_first_unmerged getFileDiff pre u Hpre Hu)
    as (log & recs & filePath & Hrun & Hf & Hexit).
  exists pre, u, post, filePath, log, recs.
  repeat split; try assumption.
  - now apply no_unmerged_forallb.
  - now apply isUnmergedLine_spec.
  - unfold parseGitStatusOutput. rewrite Hsplit. apply Hexit.
Qed.

Lemma unmerged_line_exits_witness :
  exists pre u post filePath log recs,
    split newline (str "M  f1.txt" ++ newline ++ str "UU f2.txt" ++ newline
                   ++ str "A  f3.txt") = pre ++ u :: post /\
    (forall line, In line pre -> ~ UnmergedLine line) /\
    UnmergedLine u /\ filePathOf u = Some filePath /\
    parseLines (fun _ => None) pre [] = (log, Returned recs) /\
    parseGitStatusOutput (fun _ => None)
      (str "M  f1.txt" ++ newline ++ str "UU f2.txt" ++ newline
       ++ str "A  f3.txt") =
      (log ++ conflictReport filePath, Exited 1) /\
    forall post',
      parseLines (fun _ => None) (pre ++ u :: post') [] =
      (log ++ conflictReport filePath, Exited 1).
Proof.
  apply (unmerged_line_exits (fun _ => None)).
  exists (str "UU f2.txt"). split.
  - simpl. right. left. reflexivity.
  - apply isUnmergedLine_spec. reflexivity.
Defined.

(** ** Witnesses for the validator and the repair *)

Lemma valid_exact_cover_witness :
  NoDup (proposedPaths [mkAICommit (str "A") [str "f1"; str "f2"];
                        mkAICommit (str "B") [str "f3"]])
  /\ (forall p,
        In p (proposedPaths [mkAICommit (str "A") [str "f1"; str "f2"];
                             mkAICommit (str "B") [str "f3"]]) <->
        In p (map path [mkFileChange (str "f1") 1 None;
                        mkFileChange (str "f2") 2 None;
                        mkFileChange (str "f3") 8 None]))
  /\ (forall p,
        count p (proposedPaths [mkAICommit (str "A") [str "f1"; str "f2"];
                                mkAICommit (str "B") [str "f3"]]) =
        if arrayIncludes (map path [mkFileChange (str "f1") 1 None;
                                    mkFileChange (str "f2") 2 None;
                                    mkFileChange (str "f3") 8 None]) p
        then 1 else 0).
Proof.
  apply (valid_exact_cover
           [mkAICommit (str "A") [str "f1"; str "f2"];
            mkAICommit (str "B") [str "f3"]]
           [mkFileChange (str "f1") 1 None; mkFileChange (str "f2") 2 None;
            mkFileChange (str "f3") 8 None]).
  reflexivity.
Defined.

Lemma duplicates_kept_in_latest_group_witness :
  count (str "f2")
    (proposedPaths
       (resolveDuplicates
          (duplicateFiles (validateAIOutput sampleDuplicated sampleChanges))
          sampleDuplicated)) = 1
  /\ repair sampleDuplicated (validateAIOutput sampleDuplicated sampleChanges)
     = [ mkAICommit (str "A") [str "f1"];
         mkAICommit (str "B") [str "f2"; str "f3"] ].
Proof.
  split.
  - assert (Hne : duplicateFiles
                    (validateAIOutput sampleDuplicated sampleChanges) <> [])
      by (vm_compute; discriminate).
    destruct (proj1 duplicates_kept_in_latest_group
                sampleChanges sampleDuplicated Hne) as [_ H].
    destruct (H (str "f2")) as [Hc _];
      [vm_compute; left; reflexivity | exact Hc].
  - apply (proj2 duplicates_kept_in_latest_group sampleChanges).
    reflexivity.
Defined.

Lemma repair_drops_invalid_leaves_missing_witness :
  ~ In (str "x") (changes (mkAICommit (str "A") [str "f1"]))
  /\ ~ In (str "f3") (changes (mkAICommit (str "B") [str "f2"])).
Proof.
  assert (Hwf : ValidationResult_wf
                  (validateAIOutput sampleInvalid sampleChanges)).
  { unfold ValidationResult_wf. vm_compute.
    split; [discriminate | intros (_ & H & _); discriminate]. }
  destruct (repair_drops_invalid_leaves_missing sampleInvalid
              (validateAIOutput sampleInvalid sampleChanges) Hwf)
    as (Hinv & _ & Hmiss).
  split.
  - apply Hinv; vm_compute; left; reflexivity.
  - apply (Hmiss sampleChanges eq_refl);
      [vm_compute; left; reflexivity | vm_compute; right; left; reflexivity].
Defined.

Lemma repair_frame_witness :
  exists g,
    nth_error sampleInvalid 0 = Some g /\
    title (mkAICommit (str "A") [str "f1"]) = title g /\
    Subsequence (changes (mkAICommit (str "A") [str "f1"])) (changes g).
Proof.
  destruct (repair_frame sampleInvalid
              (validateAIOutput sampleInvalid sampleChanges))
    as (_ & _ & _ & H & _).
  destruct (H 0 (mkAICommit (str "A") [str "f1"]) eq_refl)
    as (g & Hg & Ht & Hs & _).
  exists g. auto.
Defined.

(* ================================================================== *)
(** * Part II, continued: properties of the rest of the code           *)
(* ================================================================== *)

(** ** [split] and [join] at a separator of one code unit *)

Lemma split_unit_step (d c : code_unit) (s cur : jsstring) :
  split_go [d] (c :: s) 0 cur =
  if N.eqb d c then rev cur :: split_go [d] s 0 []
  else split_go [d] s 0 (c :: cur).
Proof.
  cbn [split_go startsWith]. rewrite andb_true_r. reflexivity.
Qed.

Lemma split_go_unit_cur (d : code_unit) (s cur : jsstring) :
  split_go [d] s 0 cur =
  (rev cur ++ hd [] (split_go [d] s 0 []))
    :: tl (split_go [d] s 0 []).
Proof.
  revert cur; induction s as [|c s IH]; intros cur.
  - simpl. now rewrite app_nil_r.
  - rewrite !split_unit_step. destruct (N.eqb d c).
    + simpl. now rewrite app_nil_r.
    + rewrite (IH (c :: cur)), (IH [c]). simpl.
      now rewrite <- app_assoc.
Qed.

Lemma split_unit_cons (d c : code_unit) (s : jsstring) :
  split [d] (c :: s) =
  if N.eqb d c then [] :: split [d] s
  else (c :: hd [] (split [d] s)) :: tl (split [d] s).
Proof.
  unfold split.
  rewrite split_unit_step. destruct (N.eqb d c); [reflexivity|].
  now rewrite split_go_unit_cur.
Qed.

Lemma lacksUnit_cons (d c : code_unit) (x : jsstring) :
  lacksUnit d (c :: x) = true <-> N.eqb d c = false /\ lacksUnit d x = true.
Proof.
  unfold lacksUnit. cbn [forallb].
  rewrite andb_true_iff, negb_true_iff. reflexivity.
Qed.


Lemma join_cons2 (sep x y : jsstring) (l : list jsstring) :
  join sep (x :: y :: l) = x ++ sep ++ join sep (y :: l).
Proof. simpl. now rewrite <- app_assoc. Qed.

Lemma join_single (sep x : jsstring) : join sep [x] = x.
Proof. simpl. apply app_nil_r. Qed.

Lemma split_lacksUnit (d : code_unit) (x : jsstring) :
  lacksUnit d x = true -> split [d] x = [x].
Proof.
  induction x as [|c x IH]; [reflexivity|].
  intros H. apply lacksUnit_cons in H as [Hc Hx].
  rewrite split_unit_cons, Hc, (IH Hx). reflexivity.
Qed.

Lemma split_app_unit (d : code_unit) (x rest : jsstring) :
  lacksUnit d x = true ->
  split [d] (x ++ [d] ++ rest) = x :: split [d] rest.
Proof.
  induction x as [|c x IH]; intros H.
  - cbn [app]. now rewrite split_unit_cons, N.eqb_refl.
  - apply lacksUnit_cons in H as [Hc Hx].
    cbn [app]. rewrite split_unit_cons, Hc.
    change (x ++ d :: rest) with (x ++ [d] ++ rest).
    rewrite (IH Hx). reflexivity.
Qed.

Lemma split_join_unit (d : code_unit) (l : list jsstring) :
  l <> [] -> Forall (fun x => lacksUnit d x = true) l ->
  split [d] (join [d] l) = l.
Proof.
  induction l as [|x l IH]; [contradiction|].
  intros _ H. inversion H as [|? ? Hx Hl]; subst.
  destruct l as [|y l].
  - rewrite join_single. now apply split_lacksUnit.
  - rewrite join_cons2, split_app_unit by exact Hx.
    f_equal. apply IH; [discriminate | exact Hl].
Qed.

(** ** The kind of a status token ([getFileState]) *)

Lemma eqb_single (x c : code_unit) : JS.eqb [x] [c] = N.eqb x c.
Proof. simpl. apply andb_true_r. Qed.

Lemma letterValue_cases (c : code_unit) :
  letterValue c =
  if N.eqb c letterM then 1%N
  else if N.eqb c letterA then 2%N
  else if N.eqb c letterR then 4%N
  else if N.eqb c letterD then 8%N
  else 0%N.
Proof.
  unfold letterValue, letterM, letterA, letterR, letterD.
  change FileState with
    [ ([77%N], Num 1); ([65%N], Num 2); ([82%N], Num 4); ([68%N], Num 8);
      ([49%N], Str [77%N]); ([50%N], Str [65%N]);
      ([52%N], Str [82%N]); ([56%N], Str [68%N]) ].
  cbn [FileState_get]. rewrite !eqb_single.
  rewrite (N.eqb_sym 77 c), (N.eqb_sym 65 c), (N.eqb_sym 82 c),
    (N.eqb_sym 68 c).
  destruct (N.eqb c 77); [reflexivity|].
  destruct (N.eqb c 65); [reflexivity|].
  destruct (N.eqb c 82); [reflexivity|].
  destruct (N.eqb c 68); [reflexivity|].
  destruct (N.eqb 49 c); [reflexivity|].
  destruct (N.eqb 50 c); [reflexivity|].
  destruct (N.eqb 52 c); [reflexivity|].
  destruct (N.eqb 56 c); reflexivity.
Qed.

Lemma getFileState_fold_from (code : jsstring) (acc : N) :
  fold_left
    (fun acc char =>
       match FileState_get FileState char with
       | Some stateValue => bitOr acc stateValue
       | None => acc
       end)
    (split [] code) acc
  = fold_left (fun acc c => N.lor acc (letterValue c)) code acc.
Proof.
  revert acc; induction code as [|c code IH]; intros acc; [reflexivity|].
  cbn [split map fold_left] in *. rewrite IH. f_equal.
  unfold letterValue.
  destruct (FileState_get FileState [c]) as [[n | s]|]; simpl.
  - reflexivity.
  - reflexivity.
  - now rewrite N.lor_0_r.
Qed.

Lemma lor_fold_from (code : jsstring) (acc : N) :
  fold_left (fun acc c => N.lor acc (letterValue c)) code acc =
  N.lor acc (fold_left (fun acc c => N.lor acc (letterValue c)) code 0%N).
Proof.
  revert acc; induction code as [|c code IH]; intros acc; simpl.
  - now rewrite N.lor_0_r.
  - rewrite IH, (IH (letterValue c)). now rewrite N.lor_assoc.
Qed.

Lemma getFileState_fold (code : jsstring) :
  getFileState code =
  fold_left (fun acc c => N.lor acc (letterValue c)) code 0%N.
Proof. apply getFileState_fold_from. Qed.

Lemma getFileState_cons (c : code_unit) (code : jsstring) :
  getFileState (c :: code) = N.lor (letterValue c) (getFileState code).
Proof.
  rewrite !getFileState_fold. simpl. apply lor_fold_from.
Qed.

Lemma getFileState_nil : getFileState [] = 0%N.
Proof. reflexivity. Qed.

(** X1.  The kind of a token is the bitwise or of the kinds of its parts:
    neither the order of the letters nor a repeated letter changes it. *)
Theorem getFileState_app (a b : jsstring) :
  getFileState (a ++ b) = N.lor (getFileState a) (getFileState b)
  /\ getFileState (a ++ b) = getFileState (b ++ a)
  /\ getFileState (a ++ a) = getFileState a.
Proof.
  assert (Happ : forall x y,
             getFileState (x ++ y) = N.lor (getFileState x) (getFileState y)).
  { intros x y. rewrite !getFileState_fold, fold_left_app.
    apply lor_fold_from. }
  split; [apply Happ|]. split.
  - rewrite !Happ. apply N.lor_comm.
  - rewrite Happ. apply N.lor_diag.
Qed.

Lemma letterValue_testbit (c : code_unit) (k : N) :
  N.testbit (letterValue c) k =
  (N.eqb k 0 && N.eqb c letterM) || (N.eqb k 1 && N.eqb c letterA)
  || (N.eqb k 2 && N.eqb c letterR) || (N.eqb k 3 && N.eqb c letterD).
Proof.
  rewrite letterValue_cases. unfold letterM, letterA, letterR, letterD.
  destruct (N.eqb c 77) eqn:E1.
  { apply N.eqb_eq in E1. subst. cbn [N.eqb]. rewrite !andb_false_r.
    rewrite andb_true_r, !orb_false_r.
    change 1%N with (2 ^ 0)%N. rewrite N.pow2_bits_eqb. apply N.eqb_sym. }
  destruct (N.eqb c 65) eqn:E2.
  { apply N.eqb_eq in E2. subst. rewrite !andb_false_r.
    rewrite andb_true_r, !orb_false_r. simpl orb.
    change 2%N with (2 ^ 1)%N. rewrite N.pow2_bits_eqb. apply N.eqb_sym. }
  destruct (N.eqb c 82) eqn:E3.
  { apply N.eqb_eq in E3. subst. rewrite !andb_false_r.
    rewrite andb_true_r, !orb_false_r. simpl orb.
    change 4%N with (2 ^ 2)%N. rewrite N.pow2_bits_eqb. apply N.eqb_sym. }
  destruct (N.eqb c 68) eqn:E4.
  { apply N.eqb_eq in E4. subst. rewrite !andb_false_r.
    rewrite andb_true_r. simpl orb.
    change 8%N with (2 ^ 3)%N. rewrite N.pow2_bits_eqb. apply N.eqb_sym. }
  rewrite !andb_false_r. simpl orb. apply N.bits_0.
Qed.

Lemma getFileState_testbit (code : jsstring) (k : N) :
  N.testbit (getFileState code) k =
  (N.eqb k 0 && occurs letterM code) || (N.eqb k 1 && occurs letterA code)
  || (N.eqb k 2 && occurs letterR code) || (N.eqb k 3 && occurs letterD code).
Proof.
  induction code as [|c code IH].
  - rewrite getFileState_nil, N.bits_0. simpl. now rewrite !andb_false_r.
  - rewrite getFileState_cons, N.lor_spec, IH, letterValue_testbit.
    unfold occurs. cbn [existsb].
    rewrite (N.eqb_sym letterM c), (N.eqb_sym letterA c),
      (N.eqb_sym letterR c), (N.eqb_sym letterD c).
    destruct (N.eqb k 0), (N.eqb k 1), (N.eqb k 2), (N.eqb k 3),
      (N.eqb c letterM), (N.eqb c letterA), (N.eqb c letterR),
      (N.eqb c letterD),
      (existsb (N.eqb letterM) code), (existsb (N.eqb letterA) code),
      (existsb (N.eqb letterR) code), (existsb (N.eqb letterD) code);
      reflexivity.
Qed.

Lemma testbit_low4_bound (a : N) :
  (forall k, (4 <= k)%N -> N.testbit a k = false) -> (a <= 15)%N.
Proof.
  intros H.
  destruct (N.eq_dec a 0) as [->|Hne]; [lia|].
  assert (Hlog : (N.log2 a < 4)%N).
  { destruct (N.lt_ge_cases (N.log2 a) 4) as [Hlt|Hge]; [exact Hlt|].
    specialize (H (N.log2 a) Hge).
    rewrite N.bit_log2 in H by exact Hne. discriminate. }
  assert (Hlt : (a < 2 ^ 4)%N) by (apply N.log2_lt_pow2; lia).
  change (2 ^ 4)%N with 16%N in Hlt. lia.
Qed.

(** X2.  Bit by bit: the flags Modified, Added, Renamed and Deleted of the
    kind are set exactly when the letter M, A, R or D occurs in the token,
    and no other bit is ever set; so the kind is at most 15, and it is zero
    exactly when none of the four letters occurs. *)
Theorem getFileState_bits (code : jsstring) :
  N.testbit (getFileState code) 0 = occurs letterM code
  /\ N.testbit (getFileState code) 1 = occurs letterA code
  /\ N.testbit (getFileState code) 2 = occurs letterR code
  /\ N.testbit (getFileState code) 3 = occurs letterD code
  /\ (forall k, (4 <= k)%N -> N.testbit (getFileState code) k = false)
  /\ (getFileState code <= 15)%N
  /\ (getFileState code = 0%N <->
      occurs letterM code = false /\ occurs letterA code = false /\
      occurs letterR code = false /\ occurs letterD code = false).
Proof.
  assert (Hhigh : forall k, (4 <= k)%N ->
                  N.testbit (getFileState code) k = false).
  { intros k Hk. rewrite getFileState_testbit.
    replace (N.eqb k 0) with false by (symmetry; apply N.eqb_neq; lia).
    replace (N.eqb k 1) with false by (symmetry; apply N.eqb_neq; lia).
    replace (N.eqb k 2) with false by (symmetry; apply N.eqb_neq; lia).
    replace (N.eqb k 3) with false by (symmetry; apply N.eqb_neq; lia).
    reflexivity. }
  repeat split; try (rewrite getFileState_testbit; simpl;
                     rewrite ?orb_false_r; reflexivity).
  - exact Hhigh.
  - now apply testbit_low4_bound.
  - pose proof (getFileState_testbit code 0) as H0.
    rewrite H in H0. rewrite N.bits_0 in H0. simpl in H0.
    rewrite ?orb_false_r in H0. now symmetry.
  - pose proof (getFileState_testbit code 1) as H0.
    rewrite H in H0. rewrite N.bits_0 in H0. simpl in H0.
    rewrite ?orb_false_r in H0. now symmetry.
  - pose proof (getFileState_testbit code 2) as H0.
    rewrite H in H0. rewrite N.bits_0 in H0. simpl in H0.
    rewrite ?orb_false_r in H0. now symmetry.
  - pose proof (getFileState_testbit code 3) as H0.
    rewrite H in H0. rewrite N.bits_0 in H0. simpl in H0.
    now symmetry.
  - intros (HM & HA & HR & HD).
    apply N.bits_inj_0. intros k. rewrite getFileState_testbit.
    rewrite HM, HA, HR, HD. now rewrite !andb_false_r.
Qed.

(** ** State names for the prompt ([getFileStateStrings]) *)

Lemma land_pow2_zero (a k : N) :
  N.eqb (N.land a (2 ^ k)) 0 = negb (N.testbit a k).
Proof.
  destruct (N.testbit a k) eqn:E; simpl.
  - apply N.eqb_neq. intros H.
    assert (Hb : N.testbit (N.land a (2 ^ k)) k = true)
      by (rewrite N.land_spec, E, N.pow2_bits_true; reflexivity).
    rewrite H, N.bits_0 in Hb. discriminate.
  - apply N.eqb_eq, N.bits_inj_0. intros n.
    rewrite N.land_spec, N.pow2_bits_eqb.
    destruct (N.eqb k n) eqn:Ek.
    + apply N.eqb_eq in Ek. subst. now rewrite E.
    + apply andb_false_r.
Qed.

Lemma enum_names :
  filter Number_isNaN_of_string (Object_keys FileState) =
  [str "M"; str "A"; str "R"; str "D"].
Proof. vm_compute. reflexivity. Qed.

Lemma getFileStateStrings_closed (fileState : N) :
  getFileStateStrings fileState = join (str ", ") (flagNames fileState).
Proof.
  unfold getFileStateStrings. rewrite enum_names.
  cbn [filter].
  change (FileState_number (str "M")) with (2 ^ 0)%N.
  change (FileState_number (str "A")) with (2 ^ 1)%N.
  change (FileState_number (str "R")) with (2 ^ 2)%N.
  change (FileState_number (str "D")) with (2 ^ 3)%N.
  rewrite !land_pow2_zero, !negb_involutive. unfold flagNames.
  destruct (N.testbit fileState 0), (N.testbit fileState 1),
    (N.testbit fileState 2), (N.testbit fileState 3); reflexivity.
Qed.

Lemma flagNames_low (fileState : N) :
  flagNames (N.land fileState 15) = flagNames fileState.
Proof.
  unfold flagNames. rewrite !N.land_spec.
  change (N.testbit 15 0) with true. change (N.testbit 15 1) with true.
  change (N.testbit 15 2) with true. change (N.testbit 15 3) with true.
  now rewrite !andb_true_r.
Qed.

Lemma land15_zero (fileState : N) :
  N.land fileState 15 = 0%N <->
  N.testbit fileState 0 = false /\ N.testbit fileState 1 = false /\
  N.testbit fileState 2 = false /\ N.testbit fileState 3 = false.
Proof.
  split.
  - intros H.
    assert (Hb : forall k, N.testbit fileState k && N.testbit 15 k = false).
    { intros k. rewrite <- N.land_spec, H. apply N.bits_0. }
    pose proof (Hb 0%N) as H0. pose proof (Hb 1%N) as H1.
    pose proof (Hb 2%N) as H2. pose proof (Hb 3%N) as H3.
    change (N.testbit 15 0) with true in H0.
    change (N.testbit 15 1) with true in H1.
    change (N.testbit 15 2) with true in H2.
    change (N.testbit 15 3) with true in H3.
    rewrite andb_true_r in H0, H1, H2, H3. auto.
  - intros (H0 & H1 & H2 & H3).
    apply N.bits_inj_0. intros k. rewrite N.land_spec.
    destruct (N.lt_ge_cases k 4) as [Hlt | Hge].
    + assert (Hk : k = 0%N \/ k = 1%N \/ k = 2%N \/ k = 3%N) by lia.
      destruct Hk as [-> | [-> | [-> | ->]]];
        [rewrite H0 | rewrite H1 | rewrite H2 | rewrite H3]; reflexivity.
    + change 15%N with (N.ones 4).
      rewrite N.ones_spec_high by exact Hge. apply andb_false_r.
Qed.

(** X3.  The state text lists the names of the flags that are set in the
    kind, in the order MODIFIED, ADDED, RENAMED, DELETED and separated by a
    comma and a blank; bits other than the four flags are ignored, and the
    text is empty exactly when none of the four flags is set. *)
Theorem getFileStateStrings_flags (fileState : N) :
  getFileStateStrings fileState = join (str ", ") (flagNames fileState)
  /\ getFileStateStrings fileState =
     getFileStateStrings (N.land fileState 15)
  /\ (getFileStateStrings fileState = [] <-> N.land fileState 15 = 0%N).
Proof.
  split; [apply getFileStateStrings_closed|]. split.
  - now rewrite !getFileStateStrings_closed, flagNames_low.
  - rewrite getFileStateStrings_closed, land15_zero. unfold flagNames.
    destruct (N.testbit fileState 0), (N.testbit fileState 1),
      (N.testbit fileState 2), (N.testbit fileState 3);
      split; intros H; try discriminate H; try reflexivity;
      try (repeat split; reflexivity);
      destruct H as (H0 & H1 & H2 & H3); discriminate.
Qed.

Lemma small_kind_cases (a : N) :
  (a <= 15)%N ->
  In a [0; 1; 2; 3; 4; 5; 6; 7; 8; 9; 10; 11; 12; 13; 14; 15]%N.
Proof.
  intros H. rewrite <- (N2Nat.id a).
  assert (Hn : N.to_nat a < 16) by lia.
  destruct (N.to_nat a) as [|n]; [simpl; tauto|].
  do 15 (destruct n as [|n]; [simpl; tauto|]).
  lia.
Qed.

(** X4.  Two kinds between 0 and 15 with the same state text are the same
    kind: the text given to the language model determines the kind. *)
Theorem getFileStateStrings_injective (a b : N) :
  (a <= 15)%N -> (b <= 15)%N ->
  getFileStateStrings a = getFileStateStrings b -> a = b.
Proof.
  intros Ha Hb.
  apply small_kind_cases in Ha. apply small_kind_cases in Hb.
  simpl in Ha, Hb.
  repeat match goal with H : _ \/ _ |- _ => destruct H as [H | H] end;
    try contradiction; subst; intros E; try reflexivity;
    vm_compute in E; discriminate E.
Qed.

Lemma getFileStateStrings_injective_witness :
  9%N = 9%N.
Proof.
  apply (getFileStateStrings_injective 9 9); [lia | lia | reflexivity].
Defined.

(** X5.  Token to kind to text: the state text of the kind of a token names
    exactly those of the letters M, A, R, D that occur in the token, each
    once, whatever their order and number in the token. *)
Theorem getFileStateStrings_of_token (statusCode : jsstring) :
  getFileStateStrings (getFileState statusCode) =
  join (str ", ")
    ((if occurs letterM statusCode then [str "MODIFIED"] else [])
     ++ (if occurs letterA statusCode then [str "ADDED"] else [])
     ++ (if occurs letterR statusCode then [str "RENAMED"] else [])
     ++ (if occurs letterD statusCode then [str "DELETED"] else [])).
Proof.
  rewrite getFileStateStrings_closed. unfold flagNames.
  rewrite !getFileState_testbit. simpl.
  now rewrite !orb_false_r.
Qed.

(** ** The records of the parser, line by line *)


(** X6.  When the parser returns, its records are those of the record
    lines of the input, one per line and in the order of the lines: path the
    trimmed file field, kind the kind of the token, diff the collaborator's
    answer for the renamed-to path, and no diff for a kind that is exactly
    Deleted. *)
Theorem records_in_line_order (getFileDiff : jsstring -> option jsstring)
  (statusOutput : jsstring) (log : list event) (recs : list FileChange) :
  parseGitStatusOutput getFileDiff statusOutput = (log, Returned recs) ->
  recs = map (recordOfLine getFileDiff)
             (filter isRecordLine (split newline statusOutput))
  /\ Forall
       (fun r =>
          diff r = if isDeleted r then None
                   else getFileDiff (handleRenamedFilePath (path r)))
       recs.
Proof.
  unfold parseGitStatusOutput. intros Hrun.
  pose proof (parseLines_returned_clean getFileDiff _ _ _ Hrun) as Hclean.
  destruct (parseLines_exact getFileDiff _ Hclean)
    as (log' & Hrun' & _).
  rewrite Hrun in Hrun'. injection Hrun' as _ Hrecs.
  split; [exact Hrecs|].
  rewrite Hrecs. apply Forall_forall. intros r Hr.
  apply in_map_iff in Hr as (line & <- & _). reflexivity.
Qed.

Lemma records_in_line_order_witness :
  [ mkFileChange (str "f1.txt") 1 (Some (str "diff"));
    mkFileChange (str "f2.txt") 8 None ]
  = map (recordOfLine (fun _ => Some (str "diff")))
        (filter isRecordLine
           (split newline
              (str "M  f1.txt" ++ newline ++ str "?? x" ++ newline
               ++ str "D  f2.txt")))
  /\ Forall
       (fun r =>
          diff r = if isDeleted r then None
                   else (fun _ => Some (str "diff"))
                          (handleRenamedFilePath (path r)))
       [ mkFileChange (str "f1.txt") 1 (Some (str "diff"));
         mkFileChange (str "f2.txt") 8 None ].
Proof.
  apply (records_in_line_order (fun _ => Some (str "diff"))
           (str "M  f1.txt" ++ newline ++ str "?? x" ++ newline
            ++ str "D  f2.txt")
           [ GetFileDiff (str "f1.txt");
             LogWarning (str "Untracked file:") (str "x (skipping)") ]).
  reflexivity.
Defined.

(** X7.  When the parser returns, the diff collaborator has been asked once
    for every record whose kind is not exactly Deleted, in the order of the
    records and at the renamed-to reading of the record's path, and never
    for a record whose kind is exactly Deleted; and one untracked-file
    warning has been logged for every untracked line, in order. *)
Theorem diff_requests_and_warnings
  (getFileDiff : jsstring -> option jsstring)
  (statusOutput : jsstring) (log : list event) (recs : list FileChange) :
  parseGitStatusOutput getFileDiff statusOutput = (log, Returned recs) ->
  filter isGetFileDiff log =
    map (fun r => GetFileDiff (handleRenamedFilePath (path r)))
        (filter (fun r => negb (isDeleted r)) recs)
  /\ filter isUntrackedWarning log =
     map untrackedReport
         (filter isUntrackedLine (split newline statusOutput)).
Proof.
  unfold parseGitStatusOutput. intros Hrun.
  pose proof (parseLines_returned_clean getFileDiff _ _ _ Hrun) as Hclean.
  destruct (parseLines_exact getFileDiff _ Hclean)
    as (log' & Hrun' & Hdiff & Hwarn).
  rewrite Hrun in Hrun'. injection Hrun' as Hlog Hrecs.
  subst log' recs. auto.
Qed.

Lemma diff_requests_and_warnings_witness :
  filter isGetFileDiff
    [ GetFileDiff (str "f1.txt");
      LogWarning (str "Untracked file:") (str "x (skipping)") ]
  = map (fun r => GetFileDiff (handleRenamedFilePath (path r)))
        (filter (fun r => negb (isDeleted r))
           [ mkFileChange (str "f1.txt") 1 (Some (str "diff"));
             mkFileChange (str "f2.txt") 8 None ])
  /\ filter isUntrackedWarning
       [ GetFileDiff (str "f1.txt");
         LogWarning (str "Untracked file:") (str "x (skipping)") ]
     = map untrackedReport
         (filter isUntrackedLine
            (split newline
               (str "M  f1.txt" ++ newline ++ str "?? x" ++ newline
                ++ str "D  f2.txt"))).
Proof.
  apply (diff_requests_and_warnings (fun _ => Some (str "diff"))
           (str "M  f1.txt" ++ newline ++ str "?? x" ++ newline
            ++ str "D  f2.txt")).
  reflexivity.
Defined.

(** ** Repair, validation and commit together *)

Lemma repair_validated_In (G : list AICommit) (L : list FileChange)
  (p : jsstring) :
  In p (proposedPaths (repair G (validateAIOutput G L))) <->
  In p (proposedPaths G) /\ In p (map path L).
Proof.
  split.
  - intros H. split.
    + eapply SameGroups_In; [apply repair_same_groups | exact H].
    + now apply repair_validated_listed with (G := G).
  - intros [HG HL]. unfold repair.
    destruct (valid (validateAIOutput G L)); [exact HG|]. simpl negb. cbv iota.
    assert (H1 : In p (proposedPaths
                         (if 0 <? length (duplicateFiles (validateAIOutput G L))
                          then resolveDuplicates
                                 (duplicateFiles (validateAIOutput G L)) G
                          else G))).
    { destruct (0 <? length (duplicateFiles (validateAIOutput G L)));
        [|exact HG].
      rewrite resolveDuplicates_pass. apply count_In.
      destruct (in_dec jsstring_eq_dec p
                  (duplicateFiles (validateAIOutput G L))) as [Hd | Hd].
      - rewrite (duplicatePass_count_dup _ G [] p Hd).
        change (Set_has [] p) with false. cbv iota.
        apply arrayIncludes_In in HG. rewrite HG. lia.
      - rewrite (duplicatePass_count_other _ G [] p Hd).
        now apply count_In. }
    destruct (0 <? length (invalidFiles (validateAIOutput G L)));
      [|exact H1].
    apply removeInvalid_In. split; [exact H1|].
    intros Hinv. apply validate_invalidFiles_In in Hinv. tauto.
Qed.


(** X8.  Validating the repaired groups again, against the same change
    list: no duplicate and no invalid file is reported any more, the
    missing files are those that were missing before, and the repaired
    proposal is valid exactly when no file was missing. *)
Theorem repaired_proposal_validation (L : list FileChange)
  (G : list AICommit) :
  let v := validateAIOutput G L in
  let v' := validateAIOutput (repair G v) L in
  duplicateFiles v' = [] /\ invalidFiles v' = []
  /\ missingFiles v' = missingFiles v
  /\ (valid v' = true <-> missingFiles v = []).
Proof.
  intros v v'.
  assert (Hd : duplicateFiles v' = []).
  { apply no_member_nil. intros p Hp.
    apply validate_duplicateFiles_In in Hp.
    pose proof (repair_validated_count G L p). fold v in H. lia. }
  assert (Hi : invalidFiles v' = []).
  { apply no_member_nil. intros p Hp.
    apply validate_invalidFiles_In in Hp as [Hp Hn].
    apply Hn. now apply repair_validated_listed with (G := G). }
  assert (Hm : missingFiles v' = missingFiles v).
  { unfold v', v at 2, validateAIOutput. cbn [missingFiles].
    rewrite !when_nonempty_id. apply filter_ext_in. intros p Hp.
    f_equal. apply bool_eq_iff. rewrite !arrayIncludes_In.
    fold (proposedPaths (repair G v)). fold (proposedPaths G).
    unfold v. rewrite repair_validated_In. tauto. }
  repeat split; try assumption.
  - intros Hv. apply validate_wf in Hv as (_ & Hm' & _).
    rewrite <- Hm. exact Hm'.
  - intros Hm'. apply validate_wf. fold v'. rewrite Hd, Hi, Hm. auto.
Qed.





(** A path with a blank is not one word of the command: the paths part
    shows it as several, as it does with the path of a rename record. *)
Example commitCommand_blank_path :
  commitCommand (str "T") [str "my file.txt"] =
    str "git commit -m " ++ [doubleQuote] ++ str "T" ++ [doubleQuote]
      ++ str " my file.txt"
  /\ pathWords [str "my file.txt"] = [str "my"; str "file.txt"]
  /\ pathWords [str "a.txt -> b.txt"] =
     [str "a.txt"; str "->"; str "b.txt"].
Proof. repeat split. Qed.



(** A group of [G'] stands at the index of a group of [G] with the same
    number of occurrences of [p]. *)
Lemma count_kept_nth (p : jsstring) (G G' : list AICommit) :
  Forall2 (fun g g' => count p (changes g') = count p (changes g)) G G' ->
  forall i g g',
    nth_error G i = Some g -> nth_error G' i = Some g' ->
    count p (changes g') = count p (changes g).
Proof.
  induction 1 as [|g0 g0' G G' H0 H IH]; intros i g g' Hg Hg'.
  - destruct i; discriminate.
  - destruct i as [|i]; simpl in *.
    + now injection Hg as <-; injection Hg' as <-.
    + eapply IH; eassumption.
Qed.

Lemma Forall2_count_refl (p : jsstring) (G : list AICommit) :
  Forall2 (fun g g' => count p (changes g') = count p (changes g)) G G.
Proof. induction G; constructor; auto. Qed.

Lemma Forall2_count_trans (p : jsstring) (G1 G2 G3 : list AICommit) :
  Forall2 (fun g g' => count p (changes g') = count p (changes g)) G1 G2 ->
  Forall2 (fun g g' => count p (changes g') = count p (changes g)) G2 G3 ->
  Forall2 (fun g g' => count p (changes g') = count p (changes g)) G1 G3.
Proof.
  intros H12. revert G3.
  induction H12 as [|g1 g2 G1 G2 Hc H IH]; intros G3 H23.
  - inversion H23. constructor.
  - inversion H23 as [|? g3 ? G3' Hc' H']; subst.
    constructor; [congruence | now apply IH].
Qed.

Lemma duplicatePass_group_count (d : list jsstring) (G : list AICommit)
  (c : JSSet) (p : jsstring) :
  ~ In p d ->
  Forall2 (fun g g' => count p (changes g') = count p (changes g))
          G (fst (duplicatePass d G c)).
Proof.
  intros Hp. induction G as [|g G IH]; simpl; [constructor|].
  destruct (duplicatePass d G c) as [G' c1]. simpl in IH.
  pose proof (filterDuplicates_count_other d (changes g) c1 p Hp) as Hs.
  destruct (filterDuplicates d (changes g) c1) as [kept c2]. simpl in *.
  constructor; assumption.
Qed.

Lemma removeInvalid_group_count (inv : list jsstring) (G : list AICommit)
  (p : jsstring) :
  ~ In p inv ->
  Forall2 (fun g g' => count p (changes g') = count p (changes g))
          G (removeInvalid inv G).
Proof.
  intros Hp. unfold removeInvalid.
  induction G as [|g G IH]; simpl; constructor; [|exact IH].
  cbn [changes]. rewrite count_filter, Set_has_new.
  apply arrayIncludes_false in Hp. now rewrite Hp.
Qed.

Lemma repair_group_count (G : list AICommit)
  (v : GeneratorValidationResult) (p : jsstring) :
  ~ In p (duplicateFiles v) -> ~ In p (invalidFiles v) ->
  Forall2 (fun g g' => count p (changes g') = count p (changes g))
          G (repair G v).
Proof.
  intros Hd Hi. unfold repair.
  destruct (valid v); simpl; [apply Forall2_count_refl|].
  assert (H1 : Forall2
                 (fun g g' => count p (changes g') = count p (changes g)) G
                 (if 0 <? length (duplicateFiles v)
                  then resolveDuplicates (duplicateFiles v) G else G)).
  { destruct (0 <? length (duplicateFiles v));
      [|apply Forall2_count_refl].
    rewrite resolveDuplicates_pass. now apply duplicatePass_group_count. }
  destruct (0 <? length (invalidFiles v)); [|exact H1].
  eapply Forall2_count_trans; [exact H1|].
  now apply removeInvalid_group_count.
Qed.

(** X10.  Repair touches nothing but the flagged paths: whatever the
    validation result, a path that is flagged neither duplicate nor invalid
    occurs in every repaired group as often as in the group it comes
    from. *)
Theorem repair_keeps_unflagged_paths (G : list AICommit)
  (v : GeneratorValidationResult) (p : jsstring) :
  ~ In p (duplicateFiles v) -> ~ In p (invalidFiles v) ->
  forall i g g',
    nth_error G i = Some g -> nth_error (repair G v) i = Some g' ->
    count p (changes g') = count p (changes g).
Proof.
  intros Hd Hi. apply count_kept_nth. now apply repair_group_count.
Qed.

Lemma repair_keeps_unflagged_paths_witness :
  count (str "f1") (changes (mkAICommit (str "A") [str "f1"])) =
  count (str "f1") (changes (mkAICommit (str "A") [str "f1"; str "f2"])).
Proof.
  apply (repair_keeps_unflagged_paths sampleDuplicated
           (validateAIOutput sampleDuplicated sampleChanges) (str "f1"))
    with (i := 0).
  - vm_compute. intros [H | []]. discriminate H.
  - vm_compute. intros [].
  - reflexivity.
  - reflexivity.
Defined.

(** ** Masking an API key *)

Lemma repeatString_star (n : nat) : repeatString (str "*") n = repeat star n.
Proof. induction n as [|n IH]; simpl; [reflexivity | now rewrite IH]. Qed.

Lemma maskApiKey_nonempty (key : jsstring) :
  key <> [] ->
  maskApiKey key =
  if visibleLength <? length key
  then firstn visibleLength key ++ repeat star (length key - visibleLength)
  else repeat star (length key).
Proof.
  intros H. unfold maskApiKey. apply eqb_neq in H. rewrite H.
  now rewrite !repeatString_star.
Qed.

Lemma maskApiKey_length (key : jsstring) :
  key <> [] -> length (maskApiKey key) = length key.
Proof.
  intros H. rewrite maskApiKey_nonempty by exact H.
  destruct (visibleLength <? length key) eqn:E.
  - apply Nat.ltb_lt in E.
    rewrite length_app, firstn_length_le, repeat_length by lia. lia.
  - apply repeat_length.
Qed.

Lemma maskApiKey_tail (key : jsstring) (i : nat) :
  key <> [] -> visibleLength <= i -> i < length key ->
  nth i (maskApiKey key) 0%N = star.
Proof.
  intros H Hi Hlen. rewrite maskApiKey_nonempty by exact H.
  assert (E : (visibleLength <? length key) = true)
    by (apply Nat.ltb_lt; lia).
  rewrite E, app_nth2; rewrite firstn_length_le by lia; [|lia].
  apply nth_repeat_lt. lia.
Qed.

Lemma maskApiKey_head (key : jsstring) :
  key <> [] -> visibleLength < length key ->
  firstn visibleLength (maskApiKey key) = firstn visibleLength key.
Proof.
  intros H Hlt. rewrite maskApiKey_nonempty by exact H.
  assert (E : (visibleLength <? length key) = true)
    by (apply Nat.ltb_lt; lia).
  rewrite E, firstn_app, firstn_firstn, Nat.min_id.
  rewrite firstn_length_le by lia.
  rewrite Nat.sub_diag. simpl. apply app_nil_r.
Qed.

(** X11.  The mask of a non-empty key has the length of the key; a key of
    at most four code units is shown as asterisks only; a longer key keeps
    its first four code units and shows an asterisk at every later
    position. *)
Theorem maskApiKey_shape (key : jsstring) :
  key <> [] ->
  length (maskApiKey key) = length key
  /\ (length key <= visibleLength ->
      maskApiKey key = repeat star (length key))
  /\ (visibleLength < length key ->
      firstn visibleLength (maskApiKey key) = firstn visibleLength key)
  /\ (forall i, visibleLength <= i -> i < length key ->
                nth i (maskApiKey key) 0%N = star).
Proof.
  intros H. split; [now apply maskApiKey_length|]. split; [|split].
  - intros Hle. rewrite maskApiKey_nonempty by exact H.
    assert (E : (visibleLength <? length key) = false)
      by (apply Nat.ltb_ge; lia).
    now rewrite E.
  - now apply maskApiKey_head.
  - intros i. now apply maskApiKey_tail.
Qed.

Lemma maskApiKey_shape_witness :
  length (maskApiKey (str "sk-12345")) = length (str "sk-12345")
  /\ (length (str "sk-12345") <= visibleLength ->
      maskApiKey (str "sk-12345") = repeat star (length (str "sk-12345")))
  /\ (visibleLength < length (str "sk-12345") ->
      firstn visibleLength (maskApiKey (str "sk-12345")) =
      firstn visibleLength (str "sk-12345"))
  /\ (forall i, visibleLength <= i -> i < length (str "sk-12345") ->
                nth i (maskApiKey (str "sk-12345")) 0%N = star).
Proof.
  apply (maskApiKey_shape (str "sk-12345")). discriminate.
Defined.

Lemma placeholder_is_no_mask (key : jsstring) :
  key <> [] -> maskApiKey key <> str "No API Key".
Proof.
  intros H E.
  pose proof (maskApiKey_length key H) as Hlen. rewrite E in Hlen.
  simpl in Hlen.
  assert (Hn : nth 4 (maskApiKey key) 0%N = star)
    by (apply maskApiKey_tail; [exact H | unfold visibleLength; lia | lia]).
  rewrite E in Hn. discriminate Hn.
Qed.

(** X12.  What a mask tells about the key: two keys have the same mask
    exactly when both are empty, or both are non-empty, have the same
    length and, if that length exceeds four, the same first four code
    units.  In particular the placeholder text is shown for the empty key
    only. *)
Theorem maskApiKey_reveals (k1 k2 : jsstring) :
  maskApiKey k1 = maskApiKey k2 <->
  (k1 = [] /\ k2 = []) \/
  (k1 <> [] /\ k2 <> [] /\ length k1 = length k2 /\
   (visibleLength < length k1 ->
    firstn visibleLength k1 = firstn visibleLength k2)).
Proof.
  split.
  - intros E.
    destruct k1 as [|c1 k1'] eqn:E1; destruct k2 as [|c2 k2'] eqn:E2.
    + left. auto.
    + exfalso. symmetry in E. revert E.
      apply placeholder_is_no_mask. discriminate.
    + exfalso. revert E. apply placeholder_is_no_mask. discriminate.
    + right. rewrite <- E1, <- E2 in *.
      assert (H1 : k1 <> []) by (rewrite E1; discriminate).
      assert (H2 : k2 <> []) by (rewrite E2; discriminate).
      assert (Hlen : length k1 = length k2).
      { rewrite <- (maskApiKey_length k1 H1), <- (maskApiKey_length k2 H2).
        now rewrite E. }
      repeat split; try assumption.
      intros Hlt.
      rewrite <- (maskApiKey_head k1 H1), <- (maskApiKey_head k2 H2) by lia.
      now rewrite E.
  - intros [[-> ->] | (H1 & H2 & Hlen & Hf)]; [reflexivity|].
    rewrite !maskApiKey_nonempty by assumption. rewrite <- Hlen.
    destruct (visibleLength <? length k1) eqn:E; [|reflexivity].
    apply Nat.ltb_lt in E. now rewrite Hf.
Qed.

(** ** The renamed-to path ([handleRenamedFilePath]) *)

Lemma startsWith_app (p s : jsstring) : startsWith p (p ++ s) = true.
Proof.
  induction p as [|c p IH]; simpl; [reflexivity|].
  now rewrite N.eqb_refl, IH.
Qed.

Lemma includes_app_r (sub a b : jsstring) :
  includes sub b = true -> includes sub (a ++ b) = true.
Proof.
  intros H. induction a as [|c a IH]; simpl; [exact H|].
  rewrite IH. apply orb_true_r.
Qed.

Lemma includes_startsWith (sub s : jsstring) :
  startsWith sub s = true -> includes sub s = true.
Proof. intros H. destruct s; simpl; now rewrite H. Qed.

Lemma includes_self_app (sub a b : jsstring) :
  includes sub (a ++ sub ++ b) = true.
Proof.
  apply includes_app_r, includes_startsWith, startsWith_app.
Qed.

Lemma includes_cons_false (sub : jsstring) (c : code_unit) (s : jsstring) :
  includes sub (c :: s) = false ->
  startsWith sub (c :: s) = false /\ includes sub s = false.
Proof. cbn [includes]. apply orb_false_iff. Qed.

(** No occurrence of the arrow starts in a text without arrow, even when
    the text is followed by an arrow. *)
Lemma arrow_not_astride (c : code_unit) (a rest : jsstring) :
  includes arrow (c :: a) = false ->
  startsWith arrow (c :: a ++ arrow ++ rest) = false.
Proof.
  intros H. apply includes_cons_false in H as [H _].
  unfold arrow in *. change (str "->") with [45%N; 62%N] in *.
  cbn [startsWith app] in *.
  destruct (N.eqb 45 c); [|reflexivity]. cbn [andb] in *.
  destruct a as [|d a]; cbn [app]; [reflexivity|].
  exact H.
Qed.

Lemma split_arrow_first (a rest cur : jsstring) :
  includes arrow a = false ->
  split_go arrow (a ++ arrow ++ rest) 0 cur =
  (rev cur ++ a) :: split_go arrow rest 0 [].
Proof.
  revert cur; induction a as [|c a IH]; intros cur H.
  - rewrite app_nil_r. reflexivity.
  - cbn [app split_go]. rewrite (arrow_not_astride c a rest H).
    apply includes_cons_false in H as [_ H].
    rewrite (IH (c :: cur) H). cbn [rev]. now rewrite <- app_assoc.
Qed.

Lemma split_arrow_none (a cur : jsstring) :
  includes arrow a = false ->
  split_go arrow a 0 cur = [rev cur ++ a].
Proof.
  revert cur; induction a as [|c a IH]; intros cur H.
  - now rewrite app_nil_r.
  - cbn [split_go].
    apply includes_cons_false in H as [Hs H]. rewrite Hs.
    rewrite (IH (c :: cur) H). cbn [rev]. now rewrite <- app_assoc.
Qed.

Lemma split_arrow_eq (s : jsstring) : split arrow s = split_go arrow s 0 [].
Proof. reflexivity. Qed.

Lemma handleRenamedFilePath_after_arrow (a rest : jsstring) :
  includes arrow a = false ->
  handleRenamedFilePath (a ++ arrow ++ rest) =
  trim (hd [] (split arrow rest)).
Proof.
  intros H. unfold handleRenamedFilePath. fold arrow.
  rewrite includes_self_app, split_arrow_eq, split_arrow_first by exact H.
  cbn [nth]. rewrite split_arrow_eq.
  pose proof (split_go_nonempty arrow rest 0 []) as Hn.
  destruct (split_go arrow rest 0 []); [simpl in Hn; lia | reflexivity].
Qed.

(** X13.  A path without arrow is returned as it is.  For a field
    [old->new] in which neither part contains an arrow the result is [new],
    trimmed; when a second arrow follows, the result is the trimmed text
    between the first two arrows, not the text after the last one. *)
Theorem handleRenamedFilePath_destination :
  (forall p, includes arrow p = false -> handleRenamedFilePath p = p)
  /\ (forall old new,
        includes arrow old = false -> includes arrow new = false ->
        handleRenamedFilePath (old ++ arrow ++ new) = trim new)
  /\ (forall a b c,
        includes arrow a = false -> includes arrow b = false ->
        handleRenamedFilePath (a ++ arrow ++ b ++ arrow ++ c) = trim b).
Proof.
  split; [|split].
  - intros p H. unfold handleRenamedFilePath. fold arrow. now rewrite H.
  - intros old new Ho Hn.
    rewrite handleRenamedFilePath_after_arrow by exact Ho.
    now rewrite split_arrow_eq, split_arrow_none.
  - intros a b c Ha Hb.
    rewrite handleRenamedFilePath_after_arrow by exact Ha.
    now rewrite split_arrow_eq, split_arrow_first.
Qed.

Lemma handleRenamedFilePath_destination_witness :
  handleRenamedFilePath (str "a.txt") = str "a.txt"
  /\ handleRenamedFilePath (str "a.txt " ++ arrow ++ str " b.txt") =
     trim (str " b.txt")
  /\ handleRenamedFilePath
       (str "a " ++ arrow ++ str " b " ++ arrow ++ str " c") =
     trim (str " b ").
Proof.
  destruct handleRenamedFilePath_destination as (H1 & H2 & H3).
  split; [|split].
  - apply H1. reflexivity.
  - apply H2; reflexivity.
  - apply H3; reflexivity.
Defined.

(** ** Removing the markdown fences ([cleanJson]) *)

Lemma rmatch_lit {A : Type} (w : jsstring) :
  forall c pos s caps (k : nat -> jsstring -> captures -> option A),
    rmatch (lit c w) pos s caps k =
    if startsWith (c :: w) s
    then k (pos + length (c :: w)) (skipn (length (c :: w)) s) caps
    else None.
Proof.
  induction w as [|d w IH]; intros c pos s caps k.
  - cbn [lit rmatch startsWith length skipn].
    destruct s as [|x s]; [reflexivity|].
    rewrite (N.eqb_sym c x). destruct (N.eqb x c); [|reflexivity].
    cbn [andb]. destruct s; now rewrite Nat.add_1_r.
  - cbn [lit rmatch]. destruct s as [|x s]; [reflexivity|].
    cbn [startsWith]. rewrite (N.eqb_sym c x).
    destruct (N.eqb x c); [|reflexivity]. cbn [andb].
    rewrite IH. cbn [startsWith length skipn].
    destruct s as [|y s]; [reflexivity|].
    destruct (N.eqb d y && startsWith w s); [|reflexivity].
    f_equal. cbn [length]. lia.
Qed.

Lemma fence_match (pos : nat) (s : jsstring) :
  rmatch fenceRegex pos s [] (fun pos' _ _ => Some (pos' - pos)) =
  if startsWith (str "```json") s then Some 7
  else if startsWith fence s then Some 3 else None.
Proof.
  unfold fenceRegex, fence, backtick. cbn [rmatch]. rewrite !rmatch_lit.
  change (96%N :: str "``json") with (str "```json").
  change (96%N :: str "``") with (str "```").
  destruct (startsWith (str "```json") s).
  - f_equal. simpl length. lia.
  - destruct (startsWith (str "```") s); [|reflexivity].
    f_equal. simpl length. lia.
Qed.

Lemma startsWith_cons (c : code_unit) (p : jsstring) (x : code_unit)
  (s : jsstring) :
  startsWith (c :: p) (x :: s) = N.eqb c x && startsWith p s.
Proof. reflexivity. Qed.

Lemma removeAll_go_cons (pos : nat) (c : code_unit) (s : jsstring) :
  removeAll_go fenceRegex pos (c :: s) 0 =
  if startsWith (str "```json") (c :: s)
  then removeAll_go fenceRegex (S pos) s 6
  else if startsWith fence (c :: s)
  then removeAll_go fenceRegex (S pos) s 2
  else c :: removeAll_go fenceRegex (S pos) s 0.
Proof.
  cbn [removeAll_go]. rewrite fence_match.
  destruct (startsWith (str "```json") (c :: s)); [reflexivity|].
  destruct (startsWith fence (c :: s)); reflexivity.
Qed.

Lemma fence_needs_backtick (c : code_unit) (s : jsstring) :
  N.eqb backtick c = false ->
  startsWith (str "```json") (c :: s) = false /\
  startsWith fence (c :: s) = false.
Proof.
  intros H. unfold fence.
  change (str "```json") with (backtick :: str "``json").
  change (str "```") with (backtick :: str "``").
  rewrite !startsWith_cons, H. auto.
Qed.

Lemma removed_no_backtick_head (pos : nat) (s : jsstring) :
  startsWith [backtick] s = false ->
  startsWith [backtick] (removeAll_go fenceRegex pos s 0) = false.
Proof.
  destruct s as [|c s]; [reflexivity|].
  intros H. rewrite startsWith_cons in H. cbn [startsWith] in H.
  rewrite andb_true_r in H. rewrite removeAll_go_cons.
  destruct (fence_needs_backtick c s H) as [-> ->]. cbv iota.
  rewrite startsWith_cons, H. reflexivity.
Qed.

Lemma removed_no_two_backticks (pos : nat) (s : jsstring) :
  startsWith [backtick; backtick] s = false ->
  startsWith [backtick; backtick] (removeAll_go fenceRegex pos s 0) = false.
Proof.
  destruct s as [|c s]; [reflexivity|].
  intros H. rewrite startsWith_cons in H. rewrite removeAll_go_cons.
  destruct (N.eqb backtick c) eqn:Ec.
  - cbn [andb] in H.
    assert (Hj : startsWith (str "```json") (c :: s) = false).
    { change (str "```json") with (backtick :: backtick :: str "`json").
      rewrite startsWith_cons, Ec. cbn [andb].
      destruct s as [|d s]; [reflexivity|].
      rewrite startsWith_cons in *. cbn [startsWith] in H.
      rewrite andb_true_r in H. now rewrite H. }
    assert (Hf : startsWith fence (c :: s) = false).
    { unfold fence. change (str "```") with (backtick :: backtick :: str "`").
      rewrite startsWith_cons, Ec. cbn [andb].
      destruct s as [|d s]; [reflexivity|].
      rewrite startsWith_cons in *. cbn [startsWith] in H.
      rewrite andb_true_r in H. now rewrite H. }
    rewrite Hj, Hf. cbv iota. rewrite startsWith_cons, Ec. cbn [andb].
    now apply removed_no_backtick_head.
  - destruct (fence_needs_backtick c s Ec) as [-> ->]. cbv iota.
    now rewrite startsWith_cons, Ec.
Qed.

Lemma removeAll_go_no_fence (s : jsstring) :
  forall pos skip,
    includes fence (removeAll_go fenceRegex pos s skip) = false.
Proof.
  induction s as [|c s IH]; intros pos skip; [reflexivity|].
  destruct skip as [|n]; [|apply IH].
  rewrite removeAll_go_cons.
  destruct (startsWith (str "```json") (c :: s)); [apply IH|].
  destruct (startsWith fence (c :: s)) eqn:Ef; [apply IH|].
  cbn [includes]. rewrite IH, orb_false_r.
  unfold fence in *. change (str "```") with (backtick :: [backtick; backtick]) in *.
  rewrite startsWith_cons in *.
  destruct (N.eqb backtick c); [|reflexivity]. cbn [andb] in *.
  now apply removed_no_two_backticks.
Qed.

Lemma startsWith_app_l (p s b : jsstring) :
  startsWith p s = true -> startsWith p (s ++ b) = true.
Proof.
  revert s; induction p as [|c p IH]; intros s H; [reflexivity|].
  destruct s as [|x s]; [discriminate|].
  cbn [app]. rewrite startsWith_cons in *.
  apply andb_true_iff in H as [H1 H2]. now rewrite H1, IH.
Qed.

Lemma includes_app_l (sub a b : jsstring) :
  includes sub a = true -> includes sub (a ++ b) = true.
Proof.
  induction a as [|c a IH]; intros H.
  - simpl in H. rewrite orb_false_r in H.
    destruct sub; [|discriminate]. destruct b; reflexivity.
  - cbn [includes] in H. cbn [app includes].
    apply orb_true_iff in H as [H | H].
    + pose proof (startsWith_app_l _ (c :: a) b H) as H'.
      cbn [app] in H'. now rewrite H'.
    + rewrite IH by exact H. apply orb_true_r.
Qed.

Lemma trimStart_suffix (s : jsstring) : exists a, s = a ++ trimStart s.
Proof.
  induction s as [|c s [a IH]]; [now exists []|].
  simpl. destruct (isWhiteSpace c).
  - exists (c :: a). simpl. now rewrite <- IH.
  - now exists [].
Qed.

Lemma trimEnd_prefix (s : jsstring) : exists b, s = trimEnd s ++ b.
Proof.
  unfold trimEnd. destruct (trimStart_suffix (rev s)) as [a Ha].
  exists (rev a). rewrite <- rev_app_distr, <- Ha.
  symmetry. apply rev_involutive.
Qed.

Lemma includes_trim (sub s : jsstring) :
  includes sub s = false -> includes sub (trim s) = false.
Proof.
  intros H. destruct (includes sub (trim s)) eqn:E; [|reflexivity].
  unfold trim in E.
  destruct (trimEnd_prefix (trimStart s)) as [b Hb].
  destruct (trimStart_suffix s) as [a Ha].
  apply includes_app_l with (b := b) in E. rewrite <- Hb in E.
  apply includes_app_r with (a := a) in E. rewrite <- Ha in E.
  congruence.
Qed.

Lemma startsWith_prefix (a b s : jsstring) :
  startsWith (a ++ b) s = true -> startsWith a s = true.
Proof.
  revert s; induction a as [|c a IH]; intros s H; [reflexivity|].
  destruct s as [|x s]; [discriminate|].
  cbn [app] in H. rewrite startsWith_cons in *.
  apply andb_true_iff in H as [H1 H2]. now rewrite H1, (IH s H2).
Qed.

Lemma removeAll_go_without_fence (s : jsstring) (pos : nat) :
  includes fence s = false -> removeAll_go fenceRegex pos s 0 = s.
Proof.
  revert pos; induction s as [|c s IH]; intros pos H; [reflexivity|].
  rewrite removeAll_go_cons.
  apply includes_cons_false in H as [Hs H].
  assert (Hj : startsWith (str "```json") (c :: s) = false).
  { destruct (startsWith (str "```json") (c :: s)) eqn:E; [|reflexivity].
    change (str "```json") with (fence ++ str "json") in E.
    apply startsWith_prefix in E. congruence. }
  now rewrite Hj, Hs, IH.
Qed.

(** ** Trimming twice *)

Lemma trimStart_fixed (s : jsstring) :
  trimStart (trimStart s) = trimStart s.
Proof.
  destruct (trimStart s) as [|c t] eqn:E; [reflexivity|].
  apply trimStart_head in E. simpl. now rewrite E.
Qed.

Lemma trimStart_snoc (l : jsstring) (c : code_unit) :
  isWhiteSpace c = false -> trimStart (l ++ [c]) = trimStart l ++ [c].
Proof.
  intros H. induction l as [|x l IH]; simpl.
  - now rewrite H.
  - destruct (isWhiteSpace x); [exact IH | reflexivity].
Qed.

Lemma trimEnd_keeps_start (y : jsstring) :
  trimStart y = y -> trimStart (trimEnd y) = trimEnd y.
Proof.
  intros H. destruct y as [|c y]; [reflexivity|].
  assert (Hc : isWhiteSpace c = false).
  { simpl in H. destruct (isWhiteSpace c) eqn:E; [|reflexivity].
    exfalso. destruct (trimStart_suffix y) as [a Ha].
    rewrite H in Ha. apply (f_equal (@length code_unit)) in Ha.
    rewrite length_app in Ha. simpl in Ha. lia. }
  unfold trimEnd. cbn [rev]. rewrite trimStart_snoc by exact Hc.
  rewrite rev_app_distr. simpl. now rewrite Hc.
Qed.

Lemma trimEnd_fixed (s : jsstring) : trimEnd (trimEnd s) = trimEnd s.
Proof.
  unfold trimEnd. now rewrite rev_involutive, trimStart_fixed.
Qed.

Lemma trim_idempotent (s : jsstring) : trim (trim s) = trim s.
Proof.
  unfold trim.
  rewrite (trimEnd_keeps_start (trimStart s) (trimStart_fixed s)).
  apply trimEnd_fixed.
Qed.

(** X14.  The cleaned answer never contains three backticks in a row; an
    answer without fence is only trimmed; and cleaning a cleaned answer
    changes nothing. *)
Theorem cleanJson_no_fence (content : jsstring) :
  includes fence (cleanJson content) = false
  /\ (includes fence content = false -> cleanJson content = trim content)
  /\ cleanJson (cleanJson content) = cleanJson content.
Proof.
  assert (H1 : includes fence (cleanJson content) = false).
  { unfold cleanJson, removeAll. apply includes_trim.
    apply removeAll_go_no_fence. }
  assert (H2 : forall s, includes fence s = false -> cleanJson s = trim s).
  { intros s H. unfold cleanJson, removeAll.
    now rewrite removeAll_go_without_fence. }
  split; [exact H1|]. split; [apply H2|].
  rewrite (H2 _ H1). unfold cleanJson. apply trim_idempotent.
Qed.

Lemma cleanJson_no_fence_witness :
  cleanJson (str "{}") = trim (str "{}").
Proof.
  apply (proj1 (proj2 (cleanJson_no_fence (str "{}")))). reflexivity.
Defined.

(** ** Which answers of the language model are accepted *)

Lemma isValidSingleCommit_true (c : AIResponse.json) :
  AIResponse.isValidSingleCommit c = AIResponse.Value true <->
  AIResponse.WellFormedCommit c.
Proof.
  unfold AIResponse.isValidSingleCommit, AIResponse.WellFormedCommit.
  split.
  - destruct c as [| b | n | s | items | members]; simpl; try discriminate.
    change (AIResponse.keyName AIResponse.Title) with (str "title").
    change (AIResponse.keyName AIResponse.Changes) with (str "changes").
    destruct (AIResponse.lookupMember (str "title") members)
      as [[| | | t | |]|] eqn:Et; simpl; try discriminate.
    destruct (AIResponse.lookupMember (str "changes") members)
      as [[| | | | l |]|] eqn:Ec; simpl; try discriminate.
    intros _. exists members, t, l. auto.
  - intros (members & t & l & -> & Ht & Hc). simpl.
    change (AIResponse.keyName AIResponse.Title) with (str "title").
    change (AIResponse.keyName AIResponse.Changes) with (str "changes").
    now rewrite Ht, Hc.
Qed.

Lemma every_true (f : AIResponse.json -> AIResponse.attempt bool)
  (l : list AIResponse.json) :
  AIResponse.every f l = AIResponse.Value true <->
  Forall (fun x => f x = AIResponse.Value true) l.
Proof.
  induction l as [|x l IH]; simpl.
  - split; [constructor | reflexivity].
  - destruct (f x) as [[|]|] eqn:E.
    + rewrite IH. split.
      * intros H. now constructor.
      * intros H. now inversion H.
    + split; [discriminate|]. intros H. inversion H. congruence.
    + split; [discriminate|]. intros H. inversion H. congruence.
Qed.

Lemma validateAICommit_true (d : AIResponse.json) :
  AIResponse.validateAICommit d = AIResponse.Value true <->
  exists items,
    AIResponse.getMember d AIResponse.Commits =
      AIResponse.Value (Some (AIResponse.JArray items))
    /\ Forall AIResponse.WellFormedCommit items.
Proof.
  unfold AIResponse.validateAICommit.
  destruct (AIResponse.getMember d AIResponse.Commits)
    as [[[| b | n | s | items | members]|]|];
    try (split; [discriminate | intros (items' & [=] & _)]).
  rewrite every_true. split.
  - intros H. exists items. split; [reflexivity|].
    eapply Forall_impl; [|exact H].
    intros c. apply isValidSingleCommit_true.
  - intros (items' & [= <-] & H).
    eapply Forall_impl; [|exact H].
    intros c. apply isValidSingleCommit_true.
Qed.

(** X15.  [getAICommits] returns commits exactly when the answer has a
    non-empty content whose cleaned text parses to a value with an array
    under [commits], every element of which is an object with a string
    under [title] and an array under [changes]; the commits returned are
    those elements, in order, and the elements of [changes] are taken as
    they are.  In every other case the process exits with code 1. *)
Theorem getAICommits_accepts
  (JSON_parse : jsstring -> option AIResponse.json)
  (chatCompletion : AIResponse.completion) :
  (forall commits,
      AIResponse.getAICommits JSON_parse chatCompletion =
        AIResponse.Commits_ commits <->
      exists text parsedData items,
        chatCompletion = AIResponse.Completed (Some text) /\ text <> [] /\
        JSON_parse (cleanJson text) = Some parsedData /\
        AIResponse.getMember parsedData AIResponse.Commits =
          AIResponse.Value (Some (AIResponse.JArray items)) /\
        Forall AIResponse.WellFormedCommit items /\
        commits = map AIResponse.toCommit items)
  /\ ((exists commits,
         AIResponse.getAICommits JSON_parse chatCompletion =
           AIResponse.Commits_ commits)
      \/ (exists reported,
            AIResponse.getAICommits JSON_parse chatCompletion =
              AIResponse.ExitAfter reported 1))
  /\ (forall members t l,
        AIResponse.lookupMember (str "title") members =
          Some (AIResponse.JString t) ->
        AIResponse.lookupMember (str "changes") members =
          Some (AIResponse.JArray l) ->
        AIResponse.toCommit (AIResponse.JObject members) =
          AIResponse.mkCommit t l).
Proof.
  split; [|split].
  - intros commits. unfold AIResponse.getAICommits. split.
    + destruct chatCompletion as [error | [text|]]; try discriminate.
      destruct (JS.eqb text []) eqn:Et; [discriminate|].
      apply eqb_neq in Et.
      destruct (JSON_parse (cleanJson text)) as [d|] eqn:Ep;
        [|discriminate].
      destruct (AIResponse.validateAICommit d) as [[|]|] eqn:Ev;
        try discriminate.
      apply validateAICommit_true in Ev as (items & Hc & Hw).
      rewrite Hc. intros [= <-].
      exists text, d, items. repeat split; assumption.
    + intros (text & d & items & -> & Ht & Hp & Hc & Hw & ->).
      apply eqb_neq in Ht. rewrite Ht, Hp.
      assert (Hv : AIResponse.validateAICommit d = AIResponse.Value true)
        by (apply validateAICommit_true; eauto).
      now rewrite Hv, Hc.
  - unfold AIResponse.getAICommits.
    destruct chatCompletion as [error | [text|]]; eauto.
    destruct (JS.eqb text []); eauto.
    destruct (JSON_parse (cleanJson text)) as [d|]; eauto.
    destruct (AIResponse.validateAICommit d) as [[|]|]; eauto.
    destruct (AIResponse.getMember d AIResponse.Commits)
      as [[[| | | | |]|]|]; eauto.
  - intros members t l Ht Hc. unfold AIResponse.toCommit. simpl.
    change (AIResponse.keyName AIResponse.Title) with (str "title").
    change (AIResponse.keyName AIResponse.Changes) with (str "changes").
    now rewrite Ht, Hc.
Qed.

Lemma getAICommits_accepts_witness :
  AIResponse.toCommit
    (AIResponse.JObject
       [ (str "title", AIResponse.JString (str "t"));
         (str "changes", AIResponse.JArray [AIResponse.JNull]) ])
  = AIResponse.mkCommit (str "t") [AIResponse.JNull].
Proof.
  apply (proj2 (proj2 (getAICommits_accepts
                         (fun _ => None) (AIResponse.Completed None))));
    reflexivity.
Defined.

(** ** Reading the status through git *)

Lemma parse_unmerged_or_returns
  (getFileDiff : jsstring -> option jsstring) (statusOutput : jsstring) :
  (exists log recs,
      parseGitStatusOutput getFileDiff statusOutput = (log, Returned recs))
  \/ (exists log line,
        parseGitStatusOutput getFileDiff statusOutput = (log, Exited 1) /\
        In line (split newline statusOutput) /\ UnmergedLine line).
Proof.
  unfold parseGitStatusOutput.
  destruct (forallb (fun l => negb (isUnmergedLine l))
              (split newline statusOutput)) eqn:E.
  - left. destruct (parseLines_clean getFileDiff _ E)
      as (log & recs & Hrun & _).
    eauto.
  - right.
    destruct (first_unmerged_split _ E) as (pre & u & post & Hs & Hpre & Hu).
    destruct (parseLines_first_unmerged getFileDiff pre u Hpre Hu)
      as (log & recs & filePath & _ & _ & Hexit).
    exists (log ++ conflictReport filePath), u. rewrite Hs.
    split; [apply Hexit|]. split.
    + apply in_or_app. right. now left.
    + now apply isUnmergedLine_spec.
Qed.

(** X16.  [getGitFileChanges] gives the empty list, with one error report,
    when git cannot be run and also when git writes anything to [stderr],
    whatever [stdout] holds; otherwise it is the parse of the trimmed
    [stdout], which is the empty list without any report for a blank
    [stdout]; and it ends the process only with code 1 and only when
    [stderr] is empty and a line of the trimmed [stdout] is unmerged. *)
Theorem getGitFileChanges_outcomes
  (getFileDiff : jsstring -> option jsstring) :
  (forall error,
      getGitFileChanges getFileDiff (ExecFailed error) =
      ([LogError (str "Error while getting Git status:") error],
       Returned []))
  /\ (forall stdout stderr, stderr <> [] ->
        getGitFileChanges getFileDiff (ExecDone stdout stderr) =
        ([LogError (str "Git command error:") stderr], Returned []))
  /\ (forall stdout,
        getGitFileChanges getFileDiff (ExecDone stdout []) =
        parseGitStatusOutput getFileDiff (trim stdout))
  /\ (forall stdout, forallb isWhiteSpace stdout = true ->
        getGitFileChanges getFileDiff (ExecDone stdout []) =
        ([], Returned []))
  /\ (forall git log code,
        getGitFileChanges getFileDiff git = (log, Exited code) ->
        code = 1%Z /\
        exists stdout line,
          git = ExecDone stdout [] /\
          In line (split newline (trim stdout)) /\ UnmergedLine line).
Proof.
  assert (H3 : forall stdout,
             getGitFileChanges getFileDiff (ExecDone stdout []) =
             parseGitStatusOutput getFileDiff (trim stdout)).
  { intros stdout. unfold getGitFileChanges, getGitStatusOutput.
    cbn [JS.eqb negb]. unfold bind, ret.
    now destruct (parseGitStatusOutput getFileDiff (trim stdout)). }
  assert (H2 : forall stdout stderr, stderr <> [] ->
             getGitFileChanges getFileDiff (ExecDone stdout stderr) =
             ([LogError (str "Git command error:") stderr], Returned [])).
  { intros stdout stderr H. unfold getGitFileChanges, getGitStatusOutput.
    apply eqb_neq in H. rewrite H. reflexivity. }
  split; [reflexivity|]. split; [exact H2|]. split; [exact H3|]. split.
  - intros stdout Hb. rewrite H3.
    apply trim_nil in Hb. rewrite Hb. reflexivity.
  - intros git log code Hrun.
    destruct git as [stdout stderr | error]; [|discriminate Hrun].
    destruct stderr as [|e stderr].
    + rewrite H3 in Hrun.
      destruct (parse_unmerged_or_returns getFileDiff (trim stdout))
        as [(log' & recs & Hp) | (log' & line & Hp & Hin & Hu)].
      * rewrite Hp in Hrun. discriminate.
      * rewrite Hp in Hrun. injection Hrun as _ <-.
        split; [reflexivity|]. exists stdout, line. auto.
    + rewrite H2 in Hrun by discriminate. discriminate.
Qed.

Lemma getGitFileChanges_outcomes_witness :
  getGitFileChanges (fun _ => None)
    (ExecDone (str "M  f1.txt") (str "warning: LF will be replaced"))
  = ([LogError (str "Git command error:")
        (str "warning: LF will be replaced")],
     Returned []).
Proof.
  apply (proj1 (proj2 (getGitFileChanges_outcomes (fun _ => None)))).
  discriminate.
Defined.

(** ** Lines: [split] and [join] at the newline *)

Lemma split_newline_nil : split newline [] = [[]].
Proof. reflexivity. Qed.

Lemma split_newline_cons (c : code_unit) (s : jsstring) :
  split newline (c :: s) =
  if N.eqb 10 c then [] :: split newline s
  else (c :: hd [] (split newline s)) :: tl (split newline s).
Proof. exact (split_unit_cons 10%N c s). Qed.

Lemma split_newline_shape (s : jsstring) :
  exists seg rest, split newline s = seg :: rest.
Proof.
  destruct s as [|c s]; [now exists [], []|].
  rewrite split_newline_cons. destruct (N.eqb 10 c); eauto.
Qed.

Lemma split_newline_segments (s : jsstring) :
  Forall (fun l => noNewline l = true) (split newline s).
Proof.
  induction s as [|c s IH]; [repeat constructor|].
  rewrite split_newline_cons.
  destruct (split_newline_shape s) as (seg & rest & E).
  rewrite E in *. inversion IH as [|? ? Hseg Hrest]; subst.
  destruct (N.eqb 10 c) eqn:Ec.
  - constructor; [reflexivity | now constructor].
  - constructor; [|exact Hrest]. apply lacksUnit_cons. now split.
Qed.

Lemma split_join (l : list jsstring) :
  l <> [] -> Forall (fun x => noNewline x = true) l ->
  split newline (join newline l) = l.
Proof. exact (split_join_unit 10%N l). Qed.

Lemma join_snoc (sep w : jsstring) (l : list jsstring) :
  join sep (l ++ [w]) =
  match l with
  | [] => w
  | _ :: _ => join sep l ++ sep ++ w
  end.
Proof.
  destruct l as [|x l]; [apply join_single|].
  simpl. rewrite flat_map_app. simpl.
  now rewrite app_nil_r, <- app_assoc.
Qed.

Lemma split_last (s : jsstring) (c : code_unit) :
  N.eqb 10 c = false ->
  exists init seg, split newline (s ++ [c]) = init ++ [seg ++ [c]].
Proof.
  intros Hc. induction s as [|d s (init & seg & IH)].
  - exists [], []. simpl app. now rewrite split_newline_cons, Hc.
  - cbn [app]. rewrite split_newline_cons, IH.
    destruct (N.eqb 10 d).
    + now exists ([] :: init), seg.
    + destruct init as [|i0 init]; simpl.
      * now exists [], (d :: seg).
      * now exists ((d :: i0) :: init), seg.
Qed.

(** ** The recent commit titles ([getRecentCommitTitles]) *)

Lemma trim_not_blank_ends (s : jsstring) :
  trim s = [] \/
  ((exists c t, trim s = c :: t /\ isWhiteSpace c = false) /\
   (exists t c, trim s = t ++ [c] /\ isWhiteSpace c = false)).
Proof.
  destruct (trim s) as [|c0 t0] eqn:E; [now left|]. right. split.
  - exists c0, t0. split; [reflexivity|].
    pose proof (trimEnd_keeps_start (trimStart s) (trimStart_fixed s)) as H.
    fold (trim s) in H. rewrite E in H.
    exact (trimStart_head (c0 :: t0) c0 t0 H).
  - pose proof (trimEnd_fixed (trimStart s)) as H. fold (trim s) in H.
    rewrite E in H. unfold trimEnd in H.
    apply (f_equal (@rev code_unit)) in H. rewrite rev_involutive in H.
    destruct (rev (c0 :: t0)) as [|c r] eqn:Er.
    + apply (f_equal (@length code_unit)) in Er.
      rewrite length_rev in Er. discriminate.
    + exists (rev r), c. split.
      * rewrite <- (rev_involutive (c0 :: t0)), Er. reflexivity.
      * now apply trimStart_head in H.
Qed.

Lemma newline_is_blank (c : code_unit) :
  isWhiteSpace c = false -> N.eqb 10 c = false.
Proof.
  intros H. destruct (N.eqb 10 c) eqn:E; [|reflexivity].
  apply N.eqb_eq in E. subst. discriminate H.
Qed.

Lemma trimStart_head_fixed (c : code_unit) (t : jsstring) :
  isWhiteSpace c = false -> trimStart (c :: t) = c :: t.
Proof. intros H. simpl. now rewrite H. Qed.

Lemma trimEnd_last_fixed (t : jsstring) (c : code_unit) :
  isWhiteSpace c = false -> trimEnd (t ++ [c]) = t ++ [c].
Proof.
  intros H. unfold trimEnd. rewrite rev_app_distr. simpl.
  rewrite H. simpl. now rewrite rev_involutive.
Qed.

Lemma filter_nonempty_fixed (l : list jsstring) :
  filter (fun t => 0 <? length t) (filter (fun t => 0 <? length t) l) =
  filter (fun t => 0 <? length t) l.
Proof.
  induction l as [|x l IH]; simpl; [reflexivity|].
  destruct (0 <? length x) eqn:E; simpl; [now rewrite E, IH | exact IH].
Qed.

Lemma commitTitles_lines (stdout : jsstring) :
  let titles :=
    filter (fun t => 0 <? length t) (split newline (trim stdout)) in
  (titles = [] /\ commitTitlesOf stdout = [])
  \/ (titles <> [] /\ split newline (commitTitlesOf stdout) = titles).
Proof.
  intros titles. unfold commitTitlesOf. fold titles.
  destruct titles as [|x l] eqn:E; [left; auto|]. right.
  split; [discriminate|]. apply split_join; [discriminate|].
  rewrite <- E. unfold titles.
  pose proof (split_newline_segments (trim stdout)) as H.
  rewrite Forall_forall in *. intros y Hy.
  apply filter_In in Hy as [Hy _]. now apply H.
Qed.

Lemma commitTitles_trimmed (stdout : jsstring) :
  trim (commitTitlesOf stdout) = commitTitlesOf stdout.
Proof.
  unfold commitTitlesOf.
  destruct (trim_not_blank_ends stdout)
    as [E | [(c & t & E & Hc) (t' & c' & E' & Hc')]].
  - rewrite E. reflexivity.
  - (* the text starts with [c] *)
    assert (Hhead : exists u,
               join newline
                 (filter (fun t => 0 <? length t)
                    (split newline (trim stdout))) = c :: u).
    { rewrite E, split_newline_cons, (newline_is_blank c Hc).
      cbn [filter length Nat.ltb Nat.leb join app]. eauto. }
    (* and ends with [c'] *)
    assert (Hlast : exists u,
               join newline
                 (filter (fun t => 0 <? length t)
                    (split newline (trim stdout))) = u ++ [c']).
    { rewrite E'.
      destruct (split_last t' c' (newline_is_blank c' Hc'))
        as (init & seg & ->).
      rewrite filter_app. cbn [filter].
      assert (Hne : (0 <? length (seg ++ [c'])) = true)
        by (rewrite length_app; simpl; apply Nat.ltb_lt; lia).
      rewrite Hne, join_snoc.
      destruct (filter _ init).
      - now exists seg.
      - eexists. now rewrite !app_assoc. }
    destruct Hhead as [u Hu]. destruct Hlast as [u' Hu'].
    set (text := join newline _) in *.
    assert (Hs : trimStart text = text)
      by (rewrite Hu; now apply trimStart_head_fixed).
    assert (He : trimEnd text = text)
      by (rewrite Hu'; now apply trimEnd_last_fixed).
    unfold trim. now rewrite Hs.
Qed.

(** What [getRecentCommitTitles] returns: the titles text, or the empty
    text after a failure. *)
Lemma getRecentCommitTitles_value (git : execResult) :
  snd (getRecentCommitTitles git) =
  Returned match git with
           | ExecDone stdout _ => commitTitlesOf stdout
           | ExecFailed _ => []
           end.
Proof.
  destruct git as [stdout stderr | error]; [|reflexivity].
  unfold getRecentCommitTitles. destruct (negb (JS.eqb stderr []));
    reflexivity.
Qed.

(** X17.  When [git log] succeeds, [getRecentCommitTitles] returns the
    titles text of its output, whatever was written to the error stream.
    This text is made of the non-empty lines of the trimmed output: it is
    either empty or splits at the newlines into exactly these lines, none
    of them empty; it has no white space at either end; and making the
    titles text of a titles text changes nothing. *)
Theorem getRecentCommitTitles_clean (stdout : jsstring) :
  let titles :=
    filter (fun t => 0 <? length t) (split newline (trim stdout)) in
  (forall stderr,
      snd (getRecentCommitTitles (ExecDone stdout stderr)) =
      Returned (commitTitlesOf stdout))
  /\ ((titles = [] /\ commitTitlesOf stdout = [])
   \/ (split newline (commitTitlesOf stdout) = titles
       /\ Forall (fun t => t <> []) (split newline (commitTitlesOf stdout))))
  /\ trim (commitTitlesOf stdout) = commitTitlesOf stdout
  /\ commitTitlesOf (commitTitlesOf stdout) = commitTitlesOf stdout.
Proof.
  intros titles.
  pose proof (commitTitles_lines stdout) as Hl. cbv zeta in Hl.
  fold titles in Hl.
  pose proof (commitTitles_trimmed stdout) as Ht.
  split; [|split; [|split; [exact Ht|]]].
  - intros stderr.
    exact (getRecentCommitTitles_value (ExecDone stdout stderr)).
  - destruct Hl as [Hl | [Hne Hl]]; [left; exact Hl|]. right.
    split; [exact Hl|]. rewrite Hl. apply Forall_forall.
    intros t Hin. apply filter_In in Hin as [_ Hin].
    destruct t; [discriminate | discriminate].
  - unfold commitTitlesOf at 1. rewrite Ht.
    destruct Hl as [[_ Hl] | [Hne Hl]].
    + rewrite Hl. reflexivity.
    + rewrite Hl. unfold titles. rewrite filter_nonempty_fixed.
      reflexivity.
Qed.
